(** * The chat pipeline and the catalogue of the card-comparison site

    A shallow embedding of the server-side request pipeline
    ([checkRateLimit], [validateMessageStructure], [enhanceSearchParams],
    [generateResponse]), of the client-side [enhanceMarkdown], of the fee
    and selector logic of the catalogue page ([parseFeeValue] and the
    filters of [CardsPage]) and of the slug and excerpt the article form
    makes from an imported page, together with the properties the
    specification states about them and further properties read off the
    code.

    The file is organised as follows:
    - [JS]: the part of the JavaScript runtime the sources rely on
      (strings as sequences of UTF-16 code units, [includes], [trim],
      [join], a backtracking regular-expression matcher with the ECMAScript
      priorities, global [replace] and [split]); [Numbers]: [parseInt];
    - [RateLimit], [Validator], [Search], [Generator], [Markdown], [Cards],
      [ArticleForm]: the program, one module per source function or page;
    - [Observations], [Language], [Tables], [Headings], [Sections],
      [Slugs], [Comparisons], [Amounts], [Tracking], [Scenario]: the
      vocabulary of the statements, and concrete surroundings for worked
      runs;
    - the theorems, one section per component. *)

From Stdlib Require DecimalPos.
From stdpp Require Import gmap list strings.
From Equations Require Import Equations.

Local Open Scope Z_scope.

(** ** The JavaScript runtime *)

Module JS.

(** A JavaScript string is a sequence of 16-bit code units. *)
Abbreviation jsstring := (list N).

(** Source text is written as a Rocq string (UTF-8 bytes) and decoded to
    code units; the sources only contain characters of the basic plane. *)
Fixpoint utf8_units (bs : list N) : jsstring :=
  match bs with
  | [] => []
  | b :: rest =>
    if (b <? 128)%N then b :: utf8_units rest
    else if (b <? 224)%N then
      match rest with
      | b1 :: rest1 => ((b - 192) * 64 + (b1 - 128))%N :: utf8_units rest1
      | [] => [b]
      end
    else
      match rest with
      | b1 :: b2 :: rest2 =>
        ((b - 224) * 4096 + (b1 - 128) * 64 + (b2 - 128))%N :: utf8_units rest2
      | _ => [b]
      end
  end.

Definition js (s : string) : jsstring :=
  utf8_units (Ascii.N_of_ascii <$> String.list_ascii_of_string s).

Definition chr (s : string) : N :=
  match js s with c :: _ => c | [] => 0%N end.

Arguments js : simpl never.
Arguments chr : simpl never.

(** [WhiteSpace] and [LineTerminator] of ECMAScript: the characters matched
    by [\s] and removed by [trim]. *)
Definition is_line_terminator (c : N) : bool :=
  ((c =? 10) || (c =? 13) || (c =? 8232) || (c =? 8233))%N.

Definition is_space (c : N) : bool :=
  ((c =? 9) || (c =? 11) || (c =? 12) || (c =? 32) || (c =? 160)
   || (c =? 5760) || ((8192 <=? c) && (c <=? 8202)) || (c =? 8239)
   || (c =? 8287) || (c =? 12288) || (c =? 65279))%N
  || is_line_terminator c.

Fixpoint trimStart (s : jsstring) : jsstring :=
  match s with
  | c :: s' => if is_space c then trimStart s' else s
  | [] => []
  end.

Definition trimEnd (s : jsstring) : jsstring := rev (trimStart (rev s)).

Definition trim (s : jsstring) : jsstring := trimEnd (trimStart s).

(** Truthiness of a string: non-empty. *)
Definition truthy (s : jsstring) : bool :=
  match s with [] => false | _ => true end.

Fixpoint startsWith (s pre : jsstring) {struct pre} : bool :=
  match pre, s with
  | [], _ => true
  | p :: pre', c :: s' => (p =? c)%N && startsWith s' pre'
  | _ :: _, [] => false
  end.

Fixpoint includes (s sub : jsstring) : bool :=
  startsWith s sub
  || match s with
     | [] => false
     | _ :: s' => includes s' sub
     end.

Fixpoint join (sep : jsstring) (parts : list jsstring) : jsstring :=
  match parts with
  | [] => []
  | [p] => p
  | p :: rest => p ++ sep ++ join sep rest
  end.

(** [Number.prototype.toString] on an integer. *)
Fixpoint digits (u : Decimal.uint) : jsstring :=
  match u with
  | Decimal.Nil => []
  | Decimal.D0 u' => 48%N :: digits u'
  | Decimal.D1 u' => 49%N :: digits u'
  | Decimal.D2 u' => 50%N :: digits u'
  | Decimal.D3 u' => 51%N :: digits u'
  | Decimal.D4 u' => 52%N :: digits u'
  | Decimal.D5 u' => 53%N :: digits u'
  | Decimal.D6 u' => 54%N :: digits u'
  | Decimal.D7 u' => 55%N :: digits u'
  | Decimal.D8 u' => 56%N :: digits u'
  | Decimal.D9 u' => 57%N :: digits u'
  end.

Definition toString (z : Z) : jsstring :=
  match z with
  | Z0 => [48%N]
  | Zpos p => digits (Pos.to_uint p)
  | Zneg p => 45%N :: digits (Pos.to_uint p)
  end.

(** *** Regular expressions

    The abstract syntax covers what the sources use: character classes,
    sequence, ordered alternation, greedy bounded repetition, capture
    groups, a one-character negative look-behind and the line anchors of
    the [m] flag. *)
Inductive regex : Type :=
| Eps
| Chr (p : N → bool)
| Seq (r1 r2 : regex)
| Alt (r1 r2 : regex)
| Rep (lo : nat) (hi : option nat) (r : regex)
| Grp (i : nat) (r : regex)
| NotBehind (p : N → bool)
| Bol
| Eol.

(** The matcher's position: the code units already passed (most recent
    first), the ones ahead, and the captures made so far. *)
Record mstate : Type := MState {
  behind : jsstring;
  ahead : jsstring;
  caps : list (nat * jsstring)
}.

Definition pos (st : mstate) : nat := length (behind st).

Fixpoint lookup_cap (i : nat) (cs : list (nat * jsstring)) : option jsstring :=
  match cs with
  | [] => None
  | (j, s) :: cs' => if bool_decide (i = j) then Some s else lookup_cap i cs'
  end.

Definition capture (i : nat) (st : mstate) : option jsstring :=
  lookup_cap i (caps st).

(** The text passed between two positions of one run. *)
Definition passed (st st' : mstate) : jsstring :=
  rev (take (pos st' - pos st) (behind st')).

Fixpoint groups (r : regex) : list nat :=
  match r with
  | Seq r1 r2 | Alt r1 r2 => groups r1 ++ groups r2
  | Rep _ _ r' => groups r'
  | Grp i r' => i :: groups r'
  | _ => []
  end.

Definition clear (gs : list nat) (st : mstate) : mstate :=
  MState (behind st) (ahead st)
         (filter (λ c, fst c ∉ gs) (caps st)).

Definition below (n : nat) (hi : option nat) : bool :=
  match hi with None => true | Some h => bool_decide (n < h)%nat end.

(** Backtracking matcher in continuation-passing style, after the
    ECMAScript pattern semantics: alternatives left to right, greedy
    repetition, captures of a repeated group reset at each iteration, and
    an iteration past the minimum that consumes nothing is refused. The
    repetition counts its iterations down from the minimum plus the length
    of the text ahead plus one; since an iteration past the minimum must
    consume, the count is never used up. *)
Fixpoint rmatch (r : regex) (st : mstate)
    (k : mstate → option mstate) {struct r} : option mstate :=
  match r with
  | Eps => k st
  | Chr p =>
    match ahead st with
    | c :: rest => if p c then k (MState (c :: behind st) rest (caps st)) else None
    | [] => None
    end
  | Seq r1 r2 => rmatch r1 st (λ st', rmatch r2 st' k)
  | Alt r1 r2 =>
    match rmatch r1 st k with
    | Some res => Some res
    | None => rmatch r2 st k
    end
  | Rep lo hi r' =>
    (fix iterate (fuel n : nat) (st : mstate) {struct fuel} : option mstate :=
       match fuel with
       | O => None
       | S fuel' =>
         let more :=
           if below n hi then
             rmatch r' (clear (groups r') st)
               (λ st', if bool_decide (lo ≤ n)%nat && bool_decide (pos st' = pos st)
                       then None else iterate fuel' (S n) st')
           else None in
         match more with
         | Some res => Some res
         | None => if bool_decide (lo ≤ n)%nat then k st else None
         end
       end) (S (lo + length (ahead st))) O st
  | Grp i r' =>
    rmatch r' st (λ st', k (MState (behind st') (ahead st')
                                    ((i, passed st st') :: caps st')))
  | NotBehind p =>
    match behind st with
    | c :: _ => if p c then None else k st
    | [] => k st
    end
  | Bol =>
    match behind st with
    | c :: _ => if is_line_terminator c then k st else None
    | [] => k st
    end
  | Eol =>
    match ahead st with
    | c :: _ => if is_line_terminator c then k st else None
    | [] => k st
    end
  end.

(** One attempt at a fixed position (what [exec] does at [lastIndex]). *)
Definition match_here (r : regex) (before after : jsstring) : option mstate :=
  rmatch r (MState before after []) Some.

(** A successful match as seen by a replacement function: the matched text
    and the captures. *)
Record result : Type := Result {
  matched : jsstring;
  group : nat → jsstring
}.

Definition result_of (before : jsstring) (st : mstate) : result :=
  Result (rev (take (pos st - length before) (behind st)))
         (λ i, default [] (capture i st)).

(** [String.prototype.replace] with a global pattern: matches are searched
    left to right from the end of the previous one, an empty match moves
    the search one code unit on, and the text between matches is kept. *)
Fixpoint replace_from (r : regex) (f : result → jsstring)
    (before after : jsstring) (skip : nat) : jsstring :=
  match skip with
  | S skip' =>
    match after with
    | c :: after' => replace_from r f (c :: before) after' skip'
    | [] => []
    end
  | O =>
    match match_here r before after with
    | Some st =>
      let n := (pos st - length before)%nat in
      f (result_of before st)
        ++ match after with
           | c :: after' =>
             match n with
             | O => c :: replace_from r f (c :: before) after' O
             | S n' => replace_from r f (c :: before) after' n'
             end
           | [] => []
           end
    | None =>
      match after with
      | c :: after' => c :: replace_from r f (c :: before) after' O
      | [] => []
      end
    end
  end.

Definition replace (r : regex) (f : result → jsstring) (s : jsstring) : jsstring :=
  replace_from r f [] s O.

(** [String.prototype.split] with a pattern (no captures in the sources'
    separators): [piece] is the text since the last separator, most recent
    first. A separator found at the current position closes the piece,
    unless it is empty and the piece is empty too. *)
Fixpoint split_from (r : regex) (before after piece : jsstring)
    (skip : nat) : list jsstring :=
  match after with
  | [] => [rev piece]
  | c :: after' =>
    match skip with
    | S skip' => split_from r (c :: before) after' piece skip'
    | O =>
      match match_here r before after with
      | Some st =>
        match (pos st - length before)%nat, piece with
        | O, [] => split_from r (c :: before) after' [c] O
        | O, _ => rev piece :: split_from r (c :: before) after' [c] O
        | S n', _ => rev piece :: split_from r (c :: before) after' [] n'
        end
      | None => split_from r (c :: before) after' (c :: piece) O
      end
    end
  end.

Definition split (r : regex) (s : jsstring) : list jsstring :=
  match s with
  | [] => match match_here r [] [] with Some _ => [] | None => [[]] end
  | _ => split_from r [] s [] O
  end.

(** Pattern shorthands. *)
Definition lit1 (c : N) : regex := Chr (N.eqb c).
Definition not1 (c : N) : regex := Chr (λ x, negb (x =? c)%N).
Definition star (r : regex) : regex := Rep 0 None r.
Definition plus (r : regex) : regex := Rep 1 None r.
Definition opt (r : regex) : regex := Rep 0 (Some 1%nat) r.
Definition atleast (n : nat) (r : regex) : regex := Rep n None r.
Definition any_of (cs : jsstring) (space : bool) : regex :=
  Chr (λ x, existsb (N.eqb x) cs || (space && is_space x)).
Definition dot : regex := Chr (λ x, negb (is_line_terminator x)).
Definition ws : regex := Chr is_space.

Fixpoint lit (s : jsstring) : regex :=
  match s with
  | [] => Eps
  | [c] => lit1 c
  | c :: s' => Seq (lit1 c) (lit s')
  end.

Fixpoint seq (rs : list regex) : regex :=
  match rs with
  | [] => Eps
  | [r] => r
  | r :: rs' => Seq r (seq rs')
  end.

End JS.

Import JS.

(** ** The rate limiter ([RATE_LIMIT], [checkRateLimit]) *)

Module RateLimit.

Record Bucket : Type := { count : Z; resetTime : Z }.

Definition windowMs : Z := 60 * 1000.
Definition maxRequests : Z := 10.

(** [RATE_LIMIT.tokens]: buckets keyed by the printed window number. *)
Abbreviation Tokens := (gmap (list N) Bucket).

(** [{ allowed: true }] or [{ allowed: false, resetTime }]. *)
Inductive Check : Type :=
| Allowed
| Rejected (reset : Z).

Definition expired (now : Z) (b : Bucket) : bool :=
  bool_decide (resetTime b < now).

Definition bump (b : Bucket) : Bucket :=
  {| count := count b + 1; resetTime := resetTime b |}.

(** [now] is the value read from [Date.now()].  The bucket is an object
    shared with the map, so [tokenBucket.count++] is an update in place of
    the entry stored under [windowKey]. *)
Definition checkRateLimit (now : Z) (tokens : Tokens) : Check * Tokens :=
  let windowKey := toString (now `div` windowMs) in
  let (tokenBucket, tokens) :=
    match tokens !! windowKey with
    | Some b => (b, tokens)
    | None =>
      let b := {| count := 0; resetTime := now + windowMs |} in
      (b, filter (λ kv, expired now kv.2 = false) (<[windowKey := b]> tokens))
    end in
  if bool_decide (maxRequests ≤ count tokenBucket)
  then (Rejected (resetTime tokenBucket), tokens)
  else (Allowed, alter bump windowKey tokens).

(** A series of checks at the given instants, oldest first. *)
Fixpoint checks (times : list Z) (tokens : Tokens) : list Check * Tokens :=
  match times with
  | [] => ([], tokens)
  | now :: times' =>
    let (c, tokens) := checkRateLimit now tokens in
    let (cs, tokens) := checks times' tokens in
    (c :: cs, tokens)
  end.

(** What the [i]-th of a series of checks answers when the series starts
    on a window whose bucket holds [b]. *)
Definition later_outcome (b : Bucket) (i : nat) : Check :=
  if bool_decide (count b + Z.of_nat i < maxRequests) then Allowed
  else Rejected (resetTime b).

End RateLimit.

(** ** The message validator ([validateMessageStructure]) *)

Module Validator.

(** The validator's parameter type: [{ role: string; content: string }]. *)
Record Turn : Type := { role : jsstring; content : jsstring }.

(** The loop over adjacent pairs: [false] at the first pair with one
    role. *)
Fixpoint alternates (ms : list Turn) : bool :=
  match ms with
  | a :: (b :: _) as rest =>
    if bool_decide (role a = role b) then false else alternates rest
  | _ => true
  end.

Definition validateMessageStructure (messages : list Turn) : bool :=
  match messages with
  | [] => true
  | _ =>
    let nonSystemMessages := filter (λ msg, role msg ≠ js "system") messages in
    match nonSystemMessages with
    | [] => true
    | _ =>
      if negb (alternates nonSystemMessages) then false
      else
        match last nonSystemMessages with
        | Some m => if bool_decide (role m ≠ js "user") then false else true
        | None => true
        end
    end
  end.

End Validator.

(** ** The search-query enhancer ([enhanceSearchParams]) *)

Module Search.

Record SearchParams : Type := { searchQuery : jsstring }.

(** [/vs|compare|and/] *)
Definition separators : regex :=
  Alt (lit (js "vs")) (Alt (lit (js "compare")) (lit (js "and"))).

Definition baseSearchTerms : jsstring := js "latest Indian credit cards".

Definition siteClause : jsstring :=
  js "(site:cardinsider.com OR site:bankbazaar.com OR site:cardexpert.in)".

Definition compareTerms (query : jsstring) : jsstring :=
  let cards := trim <$> split separators query in
  js "compare " ++ join (js " vs ") cards ++ js " detailed features benefits india".

Definition cashbackTerms : jsstring :=
  js "highest cashback rewards Indian credit cards latest offers".
Definition travelTerms : jsstring :=
  js "best Indian airport lounge access credit cards international travel benefits".
Definition premiumTerms : jsstring :=
  js "top Indian premium credit cards exclusive lifestyle benefits luxury privileges".
Definition businessTerms : jsstring :=
  js "best Indian business credit cards corporate benefits GST features".
Definition firstTerms : jsstring :=
  js "best first credit cards India beginners no credit history".
Definition rewardTerms : jsstring :=
  js "highest reward rate Indian credit cards points multipliers".

Definition additionalTerms (query : jsstring) : jsstring :=
  if includes query (js "vs") || includes query (js "compare") then
    compareTerms query
  else if includes query (js "cashback") then cashbackTerms
  else if includes query (js "travel") || includes query (js "lounge") then
    travelTerms
  else if includes query (js "premium") || includes query (js "lifestyle") then
    premiumTerms
  else if includes query (js "business") then businessTerms
  else if includes query (js "first") || includes query (js "new") then
    firstTerms
  else if includes query (js "reward") then rewardTerms
  else [].

Definition enhanceSearchParams (query : jsstring) : SearchParams :=
  {| searchQuery :=
       baseSearchTerms ++ js " " ++ additionalTerms query ++ js " " ++ siteClause |}.

(** The same rules as the specification words them: an ordered list of
    (predicate, phrase) rules, the first whose predicate holds wins. *)
Definition Rule : Type := (jsstring → bool) * (jsstring → jsstring).

Definition has (words : list string) : jsstring → bool :=
  λ query, existsb (λ w, includes query (js w)) words.

Definition priority_rules : list Rule :=
  [ (has ["vs"; "compare"], compareTerms);
    (has ["cashback"], λ _, cashbackTerms);
    (has ["travel"; "lounge"], λ _, travelTerms);
    (has ["premium"; "lifestyle"], λ _, premiumTerms);
    (has ["business"], λ _, businessTerms);
    (has ["first"; "new"], λ _, firstTerms);
    (has ["reward"], λ _, rewardTerms) ].

Fixpoint first_match (rules : list Rule) (query : jsstring) : jsstring :=
  match rules with
  | [] => []
  | (applies, phrase) :: rules' =>
    if applies query then phrase query else first_match rules' query
  end.

Definition spec_searchQuery (query : jsstring) : jsstring :=
  baseSearchTerms ++ js " " ++ first_match priority_rules query
    ++ js " " ++ siteClause.

End Search.

(** ** The response generator ([generateResponse]) *)

Module Generator.

Import RateLimit.

Inductive Role : Type := user | assistant | system.

Definition role_name (r : Role) : jsstring :=
  match r with
  | user => js "user"
  | assistant => js "assistant"
  | system => js "system"
  end.

Record Message : Type := { role : Role; content : jsstring }.

(** A [Message] seen at the validator's wider parameter type. *)
Definition as_turn (m : Message) : Validator.Turn :=
  {| Validator.role := role_name (role m); Validator.content := content m |}.

Definition is_user (m : Message) : bool :=
  match role m with user => true | _ => false end.

Definition CREDIT_CARD_EXPERT_PROMPT : jsstring := js
"You are a concise credit card expert focusing on the Indian market. ALWAYS use tables for comparisons, never use bullet points or paragraphs for comparing features.

RESPONSE FORMAT RULES:
1. ALL comparisons MUST be in table format
2. NEVER use bullet points or paragraphs for comparisons
3. Use tables with the following structure:

### Basic Features
| Feature | Card 1 | Card 2 |
|---------|--------|--------|
| Annual Fee | ₹XXX | ₹YYY |
| Welcome Benefits | Detail | Detail |
| Income Required | ₹XXX | ₹YYY |

### Reward Rates
| Category | Card 1 | Card 2 |
|----------|--------|--------|
| General Spend | X% | Y% |
| Dining | X% | Y% |
| Travel | X% | Y% |
| Shopping | X% | Y% |

### Additional Benefits
| Benefit | Card 1 | Card 2 |
|---------|--------|--------|
| Lounge Access | Detail | Detail |
| Insurance | Detail | Detail |
| Offers | Detail | Detail |

### Best Suited For
| Use Case | Best Card | Reason |
|----------|-----------|---------|
| Overall | Name | Why |
| Rewards | Name | Why |
| Travel | Name | Why |
| Shopping | Name | Why |

IMPORTANT:
- Use ₹ symbol for all amounts
- Include actual numbers/percentages
- Present ALL comparisons in tables
- No bullet points or paragraphs for comparing features
- Add table headers for each comparison section
- Ensure proper markdown table formatting

Remember to:
- Keep Indian context central
- Use local examples
- Reference local regulations
- Consider Indian spending patterns".

Definition OFFICIAL_BANK_DOMAINS : list jsstring :=
  js <$> [ "cardinsider.com"; "bankbazaar.com"; "hdfcbank.com"; "sbicard.com";
           "icicibank.com"; "axisbank.com"; "idfcfirstbank.com"; "indusind.com";
           "hsbc.co.in"; "sc.com"; "kotak.com"; "yesbank.in"; "rblbank.com";
           "creditcardinsider.in"; "cardexpert.in" ].

Definition MAX_RETRIES : nat := 3.
Definition RETRY_DELAY : Z := 1000.

(** The body posted to the provider; the sampling parameters and the
    locale fields are constants of the call and are left out. *)
Record Request : Type := {
  model : jsstring;
  messages : list Message;
  search_domain_filter : list jsstring;
  search_query : jsstring
}.

(** What [fetch] gives back: a rejection (network failure) or a response
    with its status and text. *)
Inductive FetchOutcome : Type :=
| Failed (message : jsstring)
| Responded (status : Z) (text : jsstring).

Definition ok (status : Z) : bool :=
  bool_decide (200 ≤ status) && bool_decide (status ≤ 299).

(** [JSON.parse(responseText)] followed by the reads of
    [choices[0].message.content] and [citations]: an exception, or the two
    fields ([citations] may be absent). *)
Inductive Parsed : Type :=
| Malformed (message : jsstring)
| Payload (content : jsstring) (citations : option (list jsstring)).

(** The surroundings of one run: the clock, the provider, and the built-ins
    whose result depends on the host (locale, Unicode tables, JSON). The
    clock and the provider are indexed by the number of earlier reads and
    calls. *)
Record Env : Type := {
  now : nat → Z;
  respond : nat → Request → FetchOutcome;
  parse : jsstring → Parsed;
  toLowerCase : jsstring → jsstring;
  toLocaleTimeString : Z → jsstring
}.

(** Observable effects, oldest first in a trace. Of the console output
    only the dump of the received messages is recorded. *)
Inductive Event : Type :=
| Received (messages : list Message)
| Fetch (request : Request)
| Sleep (ms : Z).

Record World : Type := {
  tokens : Tokens;
  ticks : nat;
  calls : nat;
  trace : list Event
}.

Definition emit (e : Event) (w : World) : World :=
  {| tokens := tokens w; ticks := ticks w; calls := calls w;
     trace := trace w ++ [e] |}.

Record Answer : Type := { answer : jsstring; sources : list jsstring }.

(** How a call ends: a value or a thrown [Error] with its message. *)
Inductive Completion : Type :=
| Returned (a : Answer)
| Thrown (message : jsstring).

Definition invalidStructure : jsstring :=
  js "Invalid message structure: After system messages, user and assistant roles must alternate".
Definition rateLimitExceeded : jsstring := js "Rate limit exceeded".
Definition qualifier : jsstring := js "For Indian credit cards only: ".
Definition serviceBusy : jsstring :=
  js "Service is temporarily busy. Please try again in a few moments.".
Definition authError : jsstring :=
  js "Authentication error. Please check your API key.".
Definition serviceError : jsstring :=
  js "Service is experiencing issues. Please try again later.".
Definition unknownError : jsstring :=
  js "An unexpected error occurred. Please try again.".

(** The callback of [messages.map]. *)
Definition qualify (msg : Message) : Message :=
  match role msg with
  | user => {| role := role msg; content := qualifier ++ content msg |}
  | _ => msg
  end.

Definition withSystemPrompt (modifiedMessages : list Message) : list Message :=
  match modifiedMessages with
  | m :: _ =>
    match role m with
    | system => modifiedMessages
    | _ => {| role := system; content := CREDIT_CARD_EXPERT_PROMPT |} :: modifiedMessages
    end
  | [] => [{| role := system; content := CREDIT_CARD_EXPERT_PROMPT |}]
  end.

Definition apiError (status : Z) (responseText : jsstring) : jsstring :=
  js "Perplexity API error (" ++ toString status ++ js "): " ++ responseText.

Section Run.

Variable env : Env.

(** [checkRateLimit()] against the process-wide map and the clock. *)
Definition checkRateLimit_now (w : World) : Check * World :=
  let (c, t) := checkRateLimit (now env (ticks w)) (tokens w) in
  (c, {| tokens := t; ticks := S (ticks w); calls := calls w; trace := trace w |}).

Definition fetch (request : Request) (w : World) : FetchOutcome * World :=
  (respond env (calls w) request,
   {| tokens := tokens w; ticks := ticks w; calls := S (calls w);
      trace := trace w ++ [Fetch request] |}).

Definition userQuery (modifiedMessages : list Message) : jsstring :=
  match List.find is_user modifiedMessages with
  | Some m => toLowerCase env (content m)
  | None => []
  end.

Definition buildRequest (msgs : list Message) : Request :=
  let modifiedMessages := qualify <$> msgs in
  let searchParams := Search.enhanceSearchParams (userQuery modifiedMessages) in
  {| model := js "llama-3.1-sonar-small-128k-online";
     messages := withSystemPrompt modifiedMessages;
     search_domain_filter := OFFICIAL_BANK_DOMAINS;
     search_query := Search.searchQuery searchParams |}.

(** The [try] block. *)
Definition attempt (msgs : list Message) (w : World) : Completion * World :=
  let w := emit (Received msgs) w in
  if negb (Validator.validateMessageStructure (as_turn <$> msgs)) then
    (Thrown invalidStructure, w)
  else
    let (rateLimitCheck, w) := checkRateLimit_now w in
    match rateLimitCheck with
    | Rejected reset =>
      (Thrown (rateLimitExceeded ++ js ". Please try again after "
                 ++ toLocaleTimeString env reset), w)
    | Allowed =>
      let (response, w) := fetch (buildRequest msgs) w in
      match response with
      | Failed message => (Thrown message, w)
      | Responded status responseText =>
        if negb (ok status) then (Thrown (apiError status responseText), w)
        else
          match parse env responseText with
          | Malformed message => (Thrown message, w)
          | Payload content citations =>
            (Returned {| answer := content; sources := default [] citations |}, w)
          end
      end
    end.

(** The message chosen at the end of the [catch] block. *)
Definition errorMessage (message : jsstring) : jsstring :=
  if includes message (js "429") then serviceBusy
  else if includes message (js "401") then authError
  else if includes message (js "5") then serviceError
  else unknownError.

Equations? generateResponse (msgs : list Message) (retryCount : nat) (w : World)
  : Completion * World by wf (MAX_RETRIES - retryCount)%nat lt :=
generateResponse msgs retryCount w with attempt msgs w => {
  | (Returned a, w1) => (Returned a, w1)
  | (Thrown message, w1) with includes message rateLimitExceeded => {
    | true => (Thrown message, w1)
    | false with decide (retryCount < MAX_RETRIES)%nat => {
      | left _ =>
        generateResponse msgs (S retryCount)
          (emit (Sleep (RETRY_DELAY * (Z.of_nat retryCount + 1))) w1)
      | right _ => (Thrown (errorMessage message), w1) } } }.
Proof. unfold MAX_RETRIES in *. lia. Qed.

End Run.

End Generator.

(** ** The markdown enhancer ([enhanceMarkdown]) *)

Module Markdown.

Definition NL : N := 10.
Definition PIPE : N := chr "|".
Definition HASH : N := chr "#".

Definition pipe : regex := lit1 PIPE.
Definition nl : regex := lit1 NL.
Definition notnl : regex := not1 NL.
(** The class [[-:\|\s]]. *)
Definition rule : regex := any_of (js "-:|") true.

(** Patterns are quoted with their tokens spaced out.
    [tablePattern]:  \|  \s*  ( [^|]+ )  \s*  \|  \s*  ( [^|]+ )  \s*  \|  \s*  ( [^|]* )  \s*  \|  *)
Definition tablePattern : regex :=
  seq [ pipe; star ws; Grp 1 (plus (not1 PIPE)); star ws;
        pipe; star ws; Grp 2 (plus (not1 PIPE)); star ws;
        pipe; star ws; Grp 3 (star (not1 PIPE)); star ws; pipe ].

Definition tableRow (m : result) : jsstring :=
  let col1 := group m 1 in
  let col2 := group m 2 in
  let col3 := group m 3 in
  if includes col1 (js "---") || includes col2 (js "---") || includes col3 (js "---")
  then []
  else
    js "**" ++ trim col1 ++ js "**: " ++ trim col2
      ++ (if truthy (trim col3) then js " - _" ++ trim col3 ++ js "_" else []).

(** Divider rows:  \|  \s*  [-:\|\s]+  \s*  \|  \s*  [-:\|\s]+  \s*  \|  ( \s*  [-:\|\s]+  \s*  \| )?  \s*  \n  *)
Definition dividerPattern : regex :=
  seq [ pipe; star ws; plus rule; star ws;
        pipe; star ws; plus rule; star ws; pipe;
        opt (Grp 1 (seq [star ws; plus rule; star ws; pipe]));
        star ws; nl ].

(** [bestSuitedForRegex]:
    (?: ##?  \s*  #?  \s*  Best Suited For  [^\n]*  \n+ )
    ( \|  [^\n]+  \|  [^\n]*  \n  \|  [-:\|\s]+  \|  [^\n]*  \n )?
    ( .+ )  *)
Definition bestSuitedForRegex : regex :=
  seq [ lit1 HASH; opt (lit1 HASH); star ws; opt (lit1 HASH); star ws;
        lit (js "Best Suited For"); star notnl; plus nl;
        opt (Grp 1 (seq [ pipe; plus notnl; pipe; star notnl; nl;
                          pipe; plus rule; pipe; star notnl; nl ]));
        Grp 2 (plus dot) ].

(** [items[i]] used as a condition or after one: a missing entry behaves
    as the empty string. *)
Definition item (items : list jsstring) (i : nat) : jsstring :=
  default [] (items !! i).

(** The loop [for (i = 0; i < items.length; i += 3)]; it runs at most
    [items.length] times. *)
Fixpoint listRows (turns i : nat) (items : list jsstring) : jsstring :=
  match turns with
  | O => []
  | S turns' =>
    if bool_decide (i < length items)%nat then
      (if truthy (item items i) && truthy (item items (i + 1)) then
         js "- **" ++ trim (item items i) ++ js "**: " ++ trim (item items (i + 1))
           ++ (if truthy (item items (i + 2))
               then js " - _" ++ trim (item items (i + 2)) ++ js "_" else [])
           ++ [NL]
       else [])
      ++ listRows turns' (i + 3) items
    else []
  end.

Definition bestSuitedFor (m : result) : jsstring :=
  let content := group m 2 in
  let title := js "### Best Suited For" ++ [NL; NL] in
  let items :=
    List.filter (λ item, truthy (trim item))
      (split (Alt (lit (js "||")) pipe) content) in
  if bool_decide (0 < length items)%nat then
    title ++ listRows (length items) 0 items ++ [NL]
  else
    title ++ trim (replace pipe (λ _, []) content) ++ [NL].

Definition enhanceMarkdown (content : jsstring) : jsstring :=
  let enhanced := content in
  (* table rows to structured text *)
  let enhanced := replace tablePattern tableRow enhanced in
  (* header and divider rows *)
  let enhanced := replace dividerPattern (λ _, []) enhanced in
  (* "Best Suited For" sections to lists *)
  let enhanced := replace bestSuitedForRegex bestSuitedFor enhanced in
  (* remaining table characters:  \|{2,}  and  ^\|\s* | \s*\|$  (flag m) *)
  let enhanced := replace (atleast 2 pipe) (λ _, js " - ") enhanced in
  let enhanced :=
    replace (Alt (seq [Bol; pipe; star ws]) (seq [star ws; pipe; Eol]))
      (λ _, []) enhanced in
  (* headings:  ###( [^\n]+ ) ,  ##( [^\n]+ ) ,  (?<!\#)#( [^\n#]+ )  *)
  let enhanced :=
    replace (seq [lit (js "###"); Grp 1 (plus notnl)])
      (λ m, js "### " ++ group m 1) enhanced in
  let enhanced :=
    replace (seq [lit (js "##"); Grp 1 (plus notnl)])
      (λ m, js "## " ++ group m 1) enhanced in
  let enhanced :=
    replace (seq [ NotBehind (N.eqb HASH); lit1 HASH;
                   Grp 1 (plus (Chr (λ x, negb (x =? NL)%N && negb (x =? HASH)%N))) ])
      (λ m, js "# " ++ group m 1) enhanced in
  (* list items:  \n-( [^\n]+ )  *)
  let enhanced :=
    replace (seq [nl; lit1 (chr "-"); Grp 1 (plus notnl)])
      (λ m, [NL] ++ js "- " ++ group m 1) enhanced in
  (* blank line before headings:  ( [^\n] )( \n#{1,3}  ) , the second group ending in a space *)
  let enhanced :=
    replace (seq [ Grp 1 notnl;
                   Grp 2 (seq [nl; Rep 1 (Some 3%nat) (lit1 HASH); lit1 (chr " ")]) ])
      (λ m, group m 1 ++ [NL; NL] ++ group m 2) enhanced in
  (* lists:  \n{2,}-  *)
  let enhanced :=
    replace (seq [atleast 2 nl; lit1 (chr "-")]) (λ _, [NL; NL] ++ js "-") enhanced in
  (* runs of newlines:  \n{3,}  *)
  let enhanced := replace (atleast 3 nl) (λ _, [NL; NL]) enhanced in
  enhanced.

End Markdown.

(** ** Numbers ([parseInt]) *)

Module Numbers.

(** The numbers of the card catalogue are integers or NaN. [Int z] stands
    for the double nearest to [z], which is [z] itself below 2^53. Beyond,
    the double stays at or above 2^53, so the comparisons of the page (with
    a 32-bit database identifier, and with the thresholds 100 and 300) give
    what they give on the integers. *)
Inductive number : Type :=
| NaN
| Int (z : Z).


(** [a === b], [a >= b] and [a < b]: all false on NaN. *)
Definition strict_eq (a b : number) : bool :=
  match a, b with
  | Int x, Int y => x =? y
  | _, _ => false
  end.

Definition ge (a : number) (b : Z) : bool :=
  match a with
  | Int x => b <=? x
  | NaN => false
  end.

Definition lt (a : number) (b : Z) : bool :=
  match a with
  | Int x => x <? b
  | NaN => false
  end.

Definition is_digit (c : N) : bool := ((48 <=? c) && (c <=? 57))%N.

(** The value of a code unit as a digit in a radix, if it is one. *)
Definition digit_value (radix : Z) (c : N) : option Z :=
  let v :=
    if is_digit c then Some (Z.of_N c - 48)
    else if ((97 <=? c) && (c <=? 122))%N then Some (Z.of_N c - 87)
    else if ((65 <=? c) && (c <=? 90))%N then Some (Z.of_N c - 55)
    else None in
  match v with
  | Some d => if d <? radix then Some d else None
  | None => None
  end.

(** The digits at the start of a text, up to the first code unit that is
    not a digit of the radix. *)
Fixpoint radix_prefix (radix : Z) (s : jsstring) : list Z :=
  match s with
  | c :: s' =>
    match digit_value radix c with
    | Some d => d :: radix_prefix radix s'
    | None => []
    end
  | [] => []
  end.

Definition mathInt (radix : Z) (ds : list Z) : Z :=
  fold_left (λ acc d, acc * radix + d) ds 0.

(** The digits after the sign: [0x] or [0X] selects radix 16, and the
    digits are read up to the first other code unit; no digit gives NaN. *)
Definition read_digits (sign : Z) (text : jsstring) : number :=
  let '(radix, text) :=
    match text with
    | 48%N :: x :: rest =>
      if ((x =? 120) || (x =? 88))%N then (16, rest) else (10, text)
    | _ => (10, text)
    end in
  match radix_prefix radix text with
  | [] => NaN
  | ds => Int (sign * mathInt radix ds)
  end.

(** [parseInt(string)] with no radix: leading white space is skipped and a
    sign is read before the digits. *)
Definition parseInt (string : jsstring) : number :=
  match trimStart string with
  | 45%N :: rest => read_digits (-1) rest
  | 43%N :: rest => read_digits 1 rest
  | text => read_digits 1 text
  end.

End Numbers.

(** ** The card catalogue page ([parseFeeValue], the filters of [CardsPage]) *)

Module Cards.

Import Numbers.

(** The fields of a card the filters read. *)
Record Card : Type := {
  id : Z;
  bankId : Z;
  categoryId : Z;
  annualFee : jsstring
}.

(** [parseInt(fee.replace(/[^0-9]/g, "") || "0")]; neither call throws on
    a string, so the [catch] branch is never taken. *)
Definition parseFeeValue (fee : jsstring) : number :=
  let digits := replace (Chr (λ c, negb (is_digit c))) (λ _, []) fee in
  parseInt (if truthy digits then digits else js "0").



(** The callback of the second filter. *)
Definition keeps (selectedBank selectedFee : jsstring) (card : Card) : bool :=
  if bool_decide (selectedBank ≠ js "all")
     && negb (strict_eq (Int (bankId card)) (parseInt selectedBank))
  then false
  else if bool_decide (selectedFee = js "no-fee")
          && bool_decide (annualFee card ≠ js "$0")
  then false
  else if bool_decide (selectedFee = js "under-100")
          && (bool_decide (annualFee card = js "$0")
              || ge (parseFeeValue (annualFee card)) 100)
  then false
  else if bool_decide (selectedFee = js "100-300")
          && (lt (parseFeeValue (annualFee card)) 100
              || ge (parseFeeValue (annualFee card)) 300)
  then false
  else if bool_decide (selectedFee = js "300-plus")
          && lt (parseFeeValue (annualFee card)) 300
  then false
  else true.


(** The values of the fee selector other than ["all"]. *)
Definition feeOptions : list jsstring :=
  [js "no-fee"; js "under-100"; js "100-300"; js "300-plus"].

End Cards.

(** ** The article form: slug and excerpt of an imported page *)

Module ArticleForm.

Import Numbers.

(** The class [\w]. *)
Definition is_word (c : N) : bool :=
  is_digit c || ((65 <=? c) && (c <=? 90))%N || ((97 <=? c) && (c <=? 122))%N
  || (c =? 95)%N.

(** The slug made from the title of an imported page:
    [title.toLowerCase().replace(/[^\w\s-]/g, '').replace(/\s+/g, '-')]. *)
Definition slug (toLowerCase : jsstring → jsstring) (title : jsstring) : jsstring :=
  replace (plus ws) (λ _, js "-")
    (replace (Chr (λ c, negb (is_word c || is_space c || (c =? 45)%N)))
             (λ _, []) (toLowerCase title)).

(** The excerpt made from the first paragraph:
    [paragraph.replace(/<[^>]*>/g, '').substring(0, 190)]. *)
Definition excerpt (paragraph : jsstring) : jsstring :=
  take 190
    (replace (seq [lit1 60%N; star (not1 62%N); lit1 62%N]) (λ _, []) paragraph).

End ArticleForm.

(** ** Vocabulary for statements about runs *)

Module Observations.

Import Generator.

(** The world after further events, the rest unchanged. *)
Definition emits (es : list Event) (w : World) : World :=
  {| tokens := tokens w; ticks := ticks w; calls := calls w;
     trace := trace w ++ es |}.

(** [sent] is [original] with the qualifier put once in front of the
    content of each user turn, the other turns as they were. *)
Definition qualified_once (original sent : list Message) : Prop :=
  Forall2 (λ m m',
             role m' = role m
             ∧ content m' = if is_user m then qualifier ++ content m
                            else content m)
          original sent.

(** What a request may carry for the conversation [original]: the
    qualified turns, after the expert prompt unless the conversation opens
    with a system turn of its own. *)
Definition carries (original sent : list Message) : Prop :=
  ∃ opening rest,
    sent = opening ++ rest
    ∧ (opening = []
       ∨ opening = [{| role := system; content := CREDIT_CARD_EXPERT_PROMPT |}])
    ∧ qualified_once original rest.

(** An event of a run on [original] leaves the input as it was received:
    each attempt is handed [original] itself and each request carries it
    qualified once. *)
Definition faithful_to (original : list Message) (e : Event) : Prop :=
  match e with
  | Received ms => ms = original
  | Fetch request => carries original (messages request)
  | Sleep _ => True
  end.

#[global] Instance Role_eq_dec : EqDecision Role.
Proof. solve_decision. Defined.

(** What an attempt makes of the provider's outcome once the request has
    gone out. *)
Definition settle (env : Env) (response : FetchOutcome) : Completion :=
  match response with
  | Failed message => Thrown message
  | Responded status responseText =>
    if ok status then
      match parse env responseText with
      | Malformed message => Thrown message
      | Payload content citations =>
        Returned {| answer := content; sources := default [] citations |}
      end
    else Thrown (apiError status responseText)
  end.

(** The requests and the sleeps among some events. *)
Definition fetches (es : list Event) : list Request :=
  omap (λ e, match e with Fetch r => Some r | _ => None end) es.

Definition sleeps (es : list Event) : list Z :=
  omap (λ e, match e with Sleep ms => Some ms | _ => None end) es.

(** The sleeps still ahead of a call entered with [retryCount]. *)
Definition schedule (retryCount : nat) : list Z :=
  (λ k, RETRY_DELAY * (Z.of_nat k + 1))
    <$> List.seq retryCount (MAX_RETRIES - retryCount).

(** The turns that are not system turns. *)
Definition spoken (msgs : list Message) : list Message :=
  filter (λ m, role m ≠ system) msgs.

Definition other (r : Role) : Role :=
  match r with user => assistant | _ => user end.

(** The role expected [i] places before a turn of role [r] when roles
    alternate. *)
Definition back (i : nat) (r : Role) : Role :=
  if Nat.even i then r else other r.

End Observations.

(** ** Vocabulary for statements about patterns and the enhancer *)

Module Language.

Import Markdown.

(** The texts a pattern can pass over, its assertions about what lies
    around the match and the upper bounds of its repetitions left aside:
    whatever the matcher passes over is among them. *)
Fixpoint spans (r : regex) (mid : jsstring) : Prop :=
  match r with
  | Eps | NotBehind _ | Bol | Eol => mid = []
  | Chr p => ∃ c, mid = [c] ∧ p c = true
  | Seq r1 r2 => ∃ a b, mid = a ++ b ∧ spans r1 a ∧ spans r2 b
  | Alt r1 r2 => spans r1 mid ∨ spans r2 mid
  | Rep lo _ r' =>
    ∃ pieces, mid = concat pieces ∧ Forall (spans r') pieces
              ∧ (lo ≤ length pieces)%nat
  | Grp _ r' => spans r' mid
  end.

(** Every text the pattern spans contains [sub], or starts with it. *)
Definition has (sub : jsstring) (r : regex) : Prop :=
  ∀ mid, spans r mid → includes mid sub = true.

Definition starts (sub : jsstring) (r : regex) : Prop :=
  ∀ mid, spans r mid → ∃ rest, mid = sub ++ rest.

(** The loop of a repetition in [rmatch], under a name: [n] iterations
    done, [fuel] left. *)
Section Iterate.

Variables (r' : regex) (lo : nat) (hi : option nat) (k : mstate → option mstate).

Fixpoint iterate (fuel n : nat) (st : mstate) {struct fuel} : option mstate :=
  match fuel with
  | O => None
  | S fuel' =>
    let more :=
      if below n hi then
        rmatch r' (clear (groups r') st)
          (λ st', if bool_decide (lo ≤ n)%nat && bool_decide (pos st' = pos st)
                  then None else iterate fuel' (S n) st')
      else None in
    match more with
    | Some res => Some res
    | None => if bool_decide (lo ≤ n)%nat then k st else None
    end
  end.

End Iterate.

(** The number of newlines a text starts with. *)
Fixpoint lead (s : jsstring) : nat :=
  match s with
  | c :: s' => if (NL =? c)%N then S (lead s') else O
  | [] => O
  end.

(** The steps of [enhanceMarkdown] that follow the rewriting of table
    rows, in the order of the source. *)
Definition finish (enhanced : jsstring) : jsstring :=
  let enhanced := replace dividerPattern (λ _, []) enhanced in
  let enhanced := replace bestSuitedForRegex bestSuitedFor enhanced in
  let enhanced := replace (atleast 2 pipe) (λ _, js " - ") enhanced in
  let enhanced :=
    replace (Alt (seq [Bol; pipe; star ws]) (seq [star ws; pipe; Eol]))
      (λ _, []) enhanced in
  let enhanced :=
    replace (seq [lit (js "###"); Grp 1 (plus notnl)])
      (λ m, js "### " ++ group m 1) enhanced in
  let enhanced :=
    replace (seq [lit (js "##"); Grp 1 (plus notnl)])
      (λ m, js "## " ++ group m 1) enhanced in
  let enhanced :=
    replace (seq [ NotBehind (N.eqb HASH); lit1 HASH;
                   Grp 1 (plus (Chr (λ x, negb (x =? NL)%N && negb (x =? HASH)%N))) ])
      (λ m, js "# " ++ group m 1) enhanced in
  let enhanced :=
    replace (seq [nl; lit1 (chr "-"); Grp 1 (plus notnl)])
      (λ m, [NL] ++ js "- " ++ group m 1) enhanced in
  let enhanced :=
    replace (seq [ Grp 1 notnl;
                   Grp 2 (seq [nl; Rep 1 (Some 3%nat) (lit1 HASH); lit1 (chr " ")]) ])
      (λ m, group m 1 ++ [NL; NL] ++ group m 2) enhanced in
  let enhanced :=
    replace (seq [atleast 2 nl; lit1 (chr "-")]) (λ _, [NL; NL] ++ js "-") enhanced in
  replace (atleast 3 nl) (λ _, [NL; NL]) enhanced.

End Language.

(** ** Vocabulary for statements about tables *)

Module Tables.

Import Markdown.

(** A text that is empty or starts with a code unit outside a class. *)
Definition stops (p : N → bool) (s : jsstring) : bool :=
  match s with c :: _ => negb (p c) | [] => true end.

(** A text without a given code unit. *)
Definition lacks (c : N) (s : jsstring) : bool :=
  forallb (λ x, negb (x =? c)%N) s.

(** A text without a pipe. *)
Definition unpiped (s : jsstring) : bool :=
  forallb (λ x, negb (x =? PIPE)%N) s.

(** A cell holds no pipe, hash or newline. *)
Definition plain (s : jsstring) : bool :=
  forallb (λ x, negb ((x =? PIPE) || (x =? HASH) || (x =? NL))%N) s.

(** A row of three cells, as it is written and as it is shown. A row with
    three hyphens in a cell is a divider and shows as an empty line. *)
Definition Row : Type := jsstring * jsstring * jsstring.

Definition row_text (r : Row) : jsstring :=
  let '(a, b, c) := r in
  [PIPE] ++ a ++ [PIPE] ++ b ++ [PIPE] ++ c ++ [PIPE].

Definition divider (r : Row) : bool :=
  let '(a, b, c) := r in
  includes a (js "---") || includes b (js "---") || includes c (js "---").

Definition row_line (r : Row) : jsstring :=
  let '(a, b, c) := r in
  if divider r then []
  else js "**" ++ trim a ++ js "**: " ++ trim b
         ++ (if truthy (trim c) then js " - _" ++ trim c ++ js "_" else []).

(** The cells of a row are plain and the first two are not blank. *)
Definition well_formed (r : Row) : bool :=
  let '(a, b, c) := r in
  plain a && plain b && plain c && truthy (trim a) && truthy (trim b).

(** No two dividers follow each other. *)
Fixpoint spaced (rows : list Row) : bool :=
  match rows with
  | r :: (r' :: _) as rest => negb (divider r && divider r') && spaced rest
  | _ => true
  end.

End Tables.

(** ** Vocabulary for statements about headings *)

Module Headings.

Import Markdown.

(** The patterns of the three heading rules of [enhanceMarkdown], under
    names. *)
Definition heading3 : regex := seq [lit (js "###"); Grp 1 (plus notnl)].

Definition heading2 : regex := seq [lit (js "##"); Grp 1 (plus notnl)].

Definition heading1 : regex :=
  seq [ NotBehind (N.eqb HASH); lit1 HASH;
        Grp 1 (plus (Chr (λ x, negb (x =? NL)%N && negb (x =? HASH)%N))) ].

(** The start of a first-level heading: a hash and a code unit that is
    neither a hash nor a newline. *)
Definition opens (s : jsstring) : bool :=
  match s with
  | c :: x :: _ => (HASH =? c)%N && negb (x =? NL)%N && negb (x =? HASH)%N
  | _ => false
  end.

End Headings.

(** ** Vocabulary for statements about sections *)

Module Sections.

Import Markdown.

(** A text on one line. *)
Definition one_line (s : jsstring) : bool :=
  forallb (λ x, negb (is_line_terminator x)) s.

(** The section heading and the first line under it. *)
Definition section_heading : jsstring := js "## Best Suited For" ++ [NL].

End Sections.

(** ** Vocabulary for statements about slugs and excerpts *)

Module Slugs.

Import ArticleForm.

(** What the slug keeps of the lowered title, and white space turned into
    hyphens, one for each run. *)
Definition kept (c : N) : bool := is_word c || is_space c || (c =? 45)%N.

Fixpoint hyphenate (in_run : bool) (s : jsstring) : jsstring :=
  match s with
  | [] => []
  | c :: s' =>
    if is_space c then
      if in_run then hyphenate true s' else 45%N :: hyphenate true s'
    else c :: hyphenate false s'
  end.

(** No tag is left: after a [<] there is no [>]. *)
Fixpoint tagless (s : jsstring) : bool :=
  match s with
  | [] => true
  | c :: s' =>
    if (c =? 60)%N then negb (existsb (N.eqb 62) s') else tagless s'
  end.

(** The length of the run of code units of a class a text starts with. *)
Fixpoint run (p : N → bool) (s : jsstring) : nat :=
  match s with
  | c :: s' => if p c then S (run p s') else O
  | [] => O
  end.

(** The pattern of a tag:  <  [^>]*  >  *)
Definition tag : regex := seq [lit1 60%N; star (not1 62%N); lit1 62%N].

End Slugs.

(** ** Vocabulary for statements about comparisons *)

Module Comparisons.

Import Search.

(** The words [enhanceSearchParams] splits a comparison at. *)
Inductive Separator : Type := Vs | Compare | And.

Definition word (s : Separator) : jsstring :=
  match s with
  | Vs => js "vs"
  | Compare => js "compare"
  | And => js "and"
  end.

(** A card name holds none of these words, not even inside a word. *)
Definition unseparated (name : jsstring) : bool :=
  negb (includes name (js "vs")) && negb (includes name (js "compare"))
  && negb (includes name (js "and")).

(** A comparison: a first name, then separators and names, with single
    spaces around the separators. *)
Fixpoint others (more : list (Separator * jsstring)) : jsstring :=
  match more with
  | [] => []
  | (s, name) :: more' => js " " ++ word s ++ js " " ++ name ++ others more'
  end.

Definition comparison (first : jsstring) (more : list (Separator * jsstring))
    : jsstring :=
  first ++ others more.

Definition asks (s : Separator) : bool :=
  match s with And => false | _ => true end.

(** The pieces of a comparison, as [split] cuts them. *)
Fixpoint pieces (current : jsstring) (more : list (Separator * jsstring))
    : list jsstring :=
  match more with
  | [] => [current]
  | (_, name) :: more' => (current ++ js " ") :: pieces (js " " ++ name) more'
  end.

End Comparisons.

(** ** Vocabulary for statements about fees *)

Module Amounts.

Import Numbers.

(** The digits of a text, in order, and the integer they spell. *)
Definition digits_of (s : jsstring) : jsstring := List.filter is_digit s.

Definition decimal (ds : jsstring) : Z :=
  fold_left (λ acc c, acc * 10 + (Z.of_N c - 48)) ds 0.

End Amounts.

(** ** Vocabulary for statements about the limiter's state *)

Module Tracking.

Import RateLimit.

(** Every bucket was created by a check at some instant not after [t],
    under the key of that instant's window, and expires one window length
    after that instant. *)
Definition created_by (t : Z) (tokens : Tokens) : Prop :=
  ∀ k b, tokens !! k = Some b →
    ∃ t0, t0 ≤ t ∧ k = toString (t0 `div` windowMs)
          ∧ resetTime b = t0 + windowMs.

(** Only the window of [t] and the one before it are tracked. *)
Definition recent (t : Z) (tokens : Tokens) : Prop :=
  ∀ k, is_Some (tokens !! k) →
    k = toString (t `div` windowMs) ∨ k = toString (t `div` windowMs - 1).

(** A clock that never runs backwards: the instants of a series of checks,
    none before [t]. *)
Fixpoint nondecreasing (t : Z) (times : list Z) : Prop :=
  match times with
  | [] => True
  | now :: times' => t ≤ now ∧ nondecreasing now times'
  end.

End Tracking.

(** ** Concrete surroundings for worked runs *)

Module Scenario.

Import Generator.

(** [toLowerCase] on text of the ASCII range. *)
Definition ascii_lower (s : jsstring) : jsstring :=
  (λ c, if (65 <=? c)%N && (c <=? 90)%N then (c + 32)%N else c) <$> s.

(** A frozen clock and a provider that gives the same outcome to every
    call; a response text is taken as the answer itself. *)
Definition always (outcome : FetchOutcome) : Env :=
  {| now := λ _, 0;
     respond := λ _ _, outcome;
     parse := λ text, Payload text None;
     toLowerCase := ascii_lower;
     toLocaleTimeString := toString |}.

(** A process that has served nothing yet. *)
Definition start : World :=
  {| tokens := ∅; ticks := 0; calls := 0; trace := [] |}.

Definition turn (r : Role) (text : string) : Message :=
  {| role := r; content := js text |}.

(** A provider whose first call fails in the network and whose later
    calls answer 200. *)
Definition flaky : Env :=
  {| now := λ _, 0;
     respond := λ k _, match k with
                       | O => Failed (js "fetch failed")
                       | S _ => Responded 200 (js "Use the SBI Cashback card.")
                       end;
     parse := λ text, Payload text None;
     toLowerCase := ascii_lower;
     toLocaleTimeString := toString |}.

End Scenario.

(** ** Properties of the message validator *)

Section ValidatorFacts.

Import Validator.

Lemma alternates_false (ms : list Turn) :
  alternates ms = false ↔
  ∃ i a b, ms !! i = Some a ∧ ms !! S i = Some b ∧ role a = role b.
Proof.
  induction ms as [|a ms IH].
  - split; [done | intros (i & x & y & H & _); by destruct i].
  - destruct ms as [|b rest].
    + split; [done | intros (i & x & y & _ & H & _); by destruct i].
    + cbn [alternates]. case_bool_decide as Hab.
      * split; [intros _ | done]. by exists 0%nat, a, b.
      * rewrite IH. split.
        -- intros (i & x & y & Hx & Hy & Hxy). by exists (S i), x, y.
        -- intros ([|i] & x & y & Hx & Hy & Hxy).
           ++ simpl in Hx, Hy. congruence.
           ++ by exists i, x, y.
Qed.

(** C2. [validateMessageStructure] accepts the empty conversation and any
    conversation made of system turns only; in general, with the system
    turns filtered out, it rejects exactly when two adjacent remaining
    turns have the same role or the last remaining turn is not a user
    turn, and accepts otherwise. *)
Theorem validateMessageStructure_decides (messages : list Turn) :
  let remaining := filter (λ msg, role msg ≠ js "system") messages in
  let repeated :=
    ∃ i a b, remaining !! i = Some a ∧ remaining !! S i = Some b ∧ role a = role b in
  let open_ended := ∃ m, last remaining = Some m ∧ role m ≠ js "user" in
  validateMessageStructure [] = true
  ∧ (Forall (λ msg, role msg = js "system") messages →
     validateMessageStructure messages = true)
  ∧ (validateMessageStructure messages = false ↔ repeated ∨ open_ended)
  ∧ (validateMessageStructure messages = true ↔ ¬ (repeated ∨ open_ended)).
Proof.
  intros remaining repeated open_ended.
  assert (Hmain : validateMessageStructure messages = false ↔ repeated ∨ open_ended).
  { unfold repeated, open_ended, validateMessageStructure.
    destruct messages as [|m0 ms].
    { split; [done |]. intros [(i & a & b & H & _) | (m & H & _)]; by destruct i || done. }
    fold remaining. rewrite <- alternates_false.
    destruct remaining as [|r rs] eqn:Hrem.
    { split; [done |]. intros [H | (m & H & _)]; done. }
    destruct (alternates (r :: rs)); simpl.
    - destruct (last (r :: rs)) as [m|] eqn:Hlast.
      + case_bool_decide as Hm.
        * split; [intros _ | done]. right. by exists m.
        * split; [done |]. intros [H | (m' & [= <-] & H)]; done.
      + split; [done |]. intros [H | (m' & H & _)]; done.
    - split; [intros _ | done]. by left. }
  split; [done |]. split; [| split; [done |]].
  - intros Hall. apply not_false_iff_true. intros Hv. apply Hmain in Hv.
    assert (remaining = []) as Hnil.
    { unfold remaining. clear -Hall. induction Hall as [|m ms Hm _ IH]; [done |].
      rewrite filter_cons_False; [done |]. by intros []. }
    unfold repeated, open_ended in Hv. rewrite Hnil in Hv. destruct Hv as [(i & a & b & H & _) | (m & H & _)]; done.
  - rewrite <- Hmain. by destruct (validateMessageStructure messages).
Qed.

End ValidatorFacts.

(** ** Properties of the rate limiter *)

Section RateLimitFacts.

Import RateLimit.

Implicit Types (tokens : Tokens) (b : Bucket).

Lemma checkRateLimit_existing now tokens b :
  tokens !! toString (now `div` windowMs) = Some b →
  checkRateLimit now tokens =
    if bool_decide (maxRequests ≤ count b)
    then (Rejected (resetTime b), tokens)
    else (Allowed, alter bump (toString (now `div` windowMs)) tokens).
Proof. intros H. unfold checkRateLimit. by rewrite H. Qed.

Lemma checkRateLimit_fresh now tokens :
  tokens !! toString (now `div` windowMs) = None →
  ∃ tokens',
    checkRateLimit now tokens = (Allowed, tokens')
    ∧ tokens' !! toString (now `div` windowMs)
      = Some {| count := 1; resetTime := now + windowMs |}.
Proof.
  intros H. unfold checkRateLimit. rewrite H. simpl.
  eexists. split; [reflexivity |].
  rewrite lookup_alter_eq.
  erewrite (map_lookup_filter_Some_2 _ _ _ {| count := 0; resetTime := now + windowMs |});
    [reflexivity | apply lookup_insert_eq |].
  unfold expired. simpl. apply bool_decide_eq_false. unfold windowMs. lia.
Qed.

Lemma checks_existing times : ∀ tokens b w,
  tokens !! toString w = Some b →
  Forall (λ now, now `div` windowMs = w) times →
  (∀ i, (i < length times)%nat →
        (checks times tokens).1 !! i = Some (later_outcome b i))
  ∧ (checks times tokens).2 !! toString w
    = Some {| count := count b `max` ((count b + Z.of_nat (length times)) `min` maxRequests);
              resetTime := resetTime b |}.
Proof.
  induction times as [|now times IH]; intros tokens b w Hb Hall.
  - split; [simpl; lia |]. simpl. rewrite Hb. f_equal. destruct b as [c r].
    simpl. f_equal. unfold maxRequests. lia.
  - apply Forall_cons in Hall as [Hnow Hall]. cbn [checks].
    rewrite (checkRateLimit_existing now tokens b) by by rewrite Hnow.
    rewrite Hnow. case_bool_decide as Hfull.
    + destruct (IH tokens b w Hb Hall) as [IHr IHf].
      destruct (checks times tokens) as [cs final]. simpl in *. split.
      * intros [|i] Hi; simpl.
        -- unfold later_outcome. rewrite bool_decide_eq_false_2; [done | lia].
        -- rewrite IHr by lia. unfold later_outcome.
           rewrite !bool_decide_eq_false_2; [done | lia | lia].
      * rewrite IHf. f_equal. f_equal. unfold maxRequests in *. lia.
    + assert (alter bump (toString w) tokens !! toString w = Some (bump b)) as Hb'.
      { by rewrite lookup_alter_eq, Hb. }
      destruct (IH _ _ w Hb' Hall) as [IHr IHf].
      destruct (checks times (alter bump (toString w) tokens)) as [cs final].
      simpl in *. split.
      * intros [|i] Hi; simpl.
        -- unfold later_outcome. rewrite bool_decide_eq_true_2; [done | lia].
        -- rewrite IHr by lia. unfold later_outcome. simpl.
           repeat case_bool_decide; (done || lia).
      * rewrite IHf. f_equal. f_equal. unfold maxRequests in *. lia.
Qed.

(** From a window that has no bucket yet: the first check creates the
    bucket, the following ones find it. *)
Lemma checks_fresh t0 later tokens :
  let w := t0 `div` windowMs in
  tokens !! toString w = None →
  Forall (λ now, now `div` windowMs = w) later →
  (∀ i, (i < S (length later))%nat →
        (checks (t0 :: later) tokens).1 !! i =
        Some (if bool_decide (i < 10)%nat then Allowed
              else Rejected (t0 + windowMs)))
  ∧ (checks (t0 :: later) tokens).2 !! toString w
    = Some {| count := Z.of_nat (S (length later)) `min` maxRequests;
              resetTime := t0 + windowMs |}.
Proof.
  intros w Hnone Hall. cbn [checks].
  destruct (checkRateLimit_fresh t0 tokens Hnone) as (tokens' & -> & Hb).
  destruct (checks_existing later tokens' _ w Hb Hall) as [Hr Hf].
  destruct (checks later tokens') as [cs final]. simpl in *. split.
  - intros [|i] Hi; [done |]. simpl. rewrite Hr by lia. f_equal.
    unfold later_outcome, maxRequests. simpl.
    repeat case_bool_decide; (done || lia).
  - rewrite Hf. f_equal. f_equal. unfold maxRequests. lia.
Qed.

Lemma same_window_before_reset t0 now :
  now `div` windowMs = t0 `div` windowMs → now < t0 + windowMs.
Proof.
  unfold windowMs. intros H.
  pose proof (Z.mod_pos_bound now (60 * 1000) ltac:(lia)).
  pose proof (Z.mod_pos_bound t0 (60 * 1000) ltac:(lia)).
  pose proof (Z.div_mod now (60 * 1000) ltac:(lia)).
  pose proof (Z.div_mod t0 (60 * 1000) ltac:(lia)).
  lia.
Qed.

(** C4. Within one window whose bucket does not exist yet, the first ten
    checks are allowed and each raises the bucket's count by one; every
    check from the eleventh on is rejected, with a reset instant that is
    not before the instant of the check. *)
Theorem first_ten_allowed_then_rejected (tokens : Tokens) (times : list Z) (w : Z) :
  tokens !! toString w = None →
  Forall (λ now, now `div` windowMs = w) times →
  (∀ i now, times !! i = Some now →
     if bool_decide (i < 10)%nat
     then (checks times tokens).1 !! i = Some Allowed
          ∧ count <$> (checks (take (S i) times) tokens).2 !! toString w
            = Some (Z.of_nat (S i))
     else ∃ reset, (checks times tokens).1 !! i = Some (Rejected reset)
                   ∧ now ≤ reset).
Proof.
  intros Hnone Hall i now Hi.
  destruct times as [|t0 later]; [done |].
  pose proof Hall as Hall'. apply Forall_cons in Hall' as [Ht0 Hlater]. subst w.
  destruct (checks_fresh t0 later tokens Hnone Hlater) as [Hr _].
  assert (i < S (length later))%nat as Hlen.
  { apply lookup_lt_Some in Hi. simpl in Hi. lia. }
  rewrite (Hr i Hlen). case_bool_decide as Hten.
  - split; [done |].
    assert (Forall (λ now, now `div` windowMs = t0 `div` windowMs) (take i later)) as Htake.
    { by apply Forall_take. }
    destruct (checks_fresh t0 (take i later) tokens Hnone Htake) as [_ Hf].
    rewrite firstn_cons. rewrite Hf. simpl. f_equal.
    rewrite length_take. unfold maxRequests. lia.
  - eexists. split; [done |].
    assert (now `div` windowMs = t0 `div` windowMs) as Hsame.
    { eapply Forall_lookup_1 in Hall; [exact Hall | exact Hi]. }
    apply same_window_before_reset in Hsame. lia.
Qed.

Lemma first_ten_allowed_then_rejected_witness :
  let times := [120000; 120500; 121000; 125000; 130000; 140000; 150000;
                160000; 170000; 175000; 179000; 179999] in
  (∅ : Tokens) !! toString 2 = None
  ∧ Forall (λ now, now `div` windowMs = 2) times
  ∧ ((checks times ∅).1 !! 9%nat = Some Allowed
     ∧ count <$> (checks (take 10 times) ∅).2 !! toString 2 = Some 10)
  ∧ ∃ reset, (checks times ∅).1 !! 11%nat = Some (Rejected reset) ∧ 179999 ≤ reset.
Proof.
  intros times.
  assert (H1 : (∅ : Tokens) !! toString 2 = None) by reflexivity.
  assert (H2 : Forall (λ now, now `div` windowMs = 2) times)
    by (repeat constructor).
  split; [exact H1 |]. split; [exact H2 |]. split.
  - exact (first_ten_allowed_then_rejected ∅ times 2 H1 H2 9%nat 175000 eq_refl).
  - exact (first_ten_allowed_then_rejected ∅ times 2 H1 H2 11%nat 179999 eq_refl).
Defined.

(** C5, as the code has it. A rejection reports the [resetTime] stored in
    the bucket of the current window, which is the instant of the check
    that created the bucket plus the window length. It is never before
    the end of the window, and it is the end of the window only when the
    bucket was created at the very start of the window. *)
Theorem rejection_reports_creation_plus_window
    (tokens : Tokens) (t0 : Z) (later : list Z) (now reset : Z) :
  let w := t0 `div` windowMs in
  let reached := (checks (t0 :: later) tokens).2 in
  tokens !! toString w = None →
  Forall (λ t, t `div` windowMs = w) later →
  now `div` windowMs = w →
  (checkRateLimit now reached).1 = Rejected reset →
  resetTime <$> reached !! toString w = Some reset
  ∧ reset = t0 + windowMs
  ∧ (w + 1) * windowMs ≤ reset < (w + 2) * windowMs
  ∧ (reset = (w + 1) * windowMs ↔ t0 = w * windowMs).
Proof.
  intros w reached Hnone Hlater Hnow Hrej.
  destruct (checks_fresh t0 later tokens Hnone Hlater) as [_ Hf].
  fold reached in Hf. fold w in Hf.
  rewrite (checkRateLimit_existing now reached _) in Hrej by (rewrite Hnow; exact Hf).
  simpl in Hrej. case_bool_decide; [| done]. simpl in Hrej.
  injection Hrej as <-. rewrite Hf. simpl. split; [done |]. split; [done |].
  unfold w, windowMs.
  pose proof (Z.mod_pos_bound t0 (60 * 1000) ltac:(lia)).
  pose proof (Z.div_mod t0 (60 * 1000) ltac:(lia)).
  lia.
Qed.

Lemma rejection_reports_creation_plus_window_witness :
  let later := replicate 9 31000 in
  (∅ : Tokens) !! toString (30000 `div` windowMs) = None
  ∧ Forall (λ t, t `div` windowMs = 30000 `div` windowMs) later
  ∧ 45000 `div` windowMs = 30000 `div` windowMs
  ∧ (checkRateLimit 45000 (checks (30000 :: later) ∅).2).1 = Rejected 90000
  ∧ 90000 = 30000 + windowMs
  ∧ (90000 = (30000 `div` windowMs + 1) * windowMs ↔ 30000 = 30000 `div` windowMs * windowMs).
Proof.
  intros later.
  assert (H1 : (∅ : Tokens) !! toString (30000 `div` windowMs) = None) by reflexivity.
  assert (H2 : Forall (λ t, t `div` windowMs = 30000 `div` windowMs) later)
    by (repeat constructor).
  assert (H3 : 45000 `div` windowMs = 30000 `div` windowMs) by reflexivity.
  assert (H4 : (checkRateLimit 45000 (checks (30000 :: later) ∅).2).1 = Rejected 90000)
    by (vm_compute; reflexivity).
  pose proof (rejection_reports_creation_plus_window ∅ 30000 later 45000 90000
                H1 H2 H3 H4) as (_ & H5 & _ & H6).
  repeat split; try assumption; apply H6.
Defined.

(** C5 as stated fails: a bucket created 30 s into the first window
    reports 90000 on rejection, while that window ends at 60000. *)
Lemma reset_is_not_window_end :
  (checkRateLimit 45000 (checks (replicate 10 30000) ∅).2).1 = Rejected 90000
  ∧ (45000 `div` windowMs + 1) * windowMs = 60000
  ∧ (90000 =? 60000) = false.
Proof. vm_compute. done. Qed.

End RateLimitFacts.

(** ** Properties of the search-query enhancer *)

Section SearchFacts.

Import Search.

Lemma additionalTerms_first_match (query : jsstring) :
  additionalTerms query = first_match priority_rules query.
Proof.
  unfold additionalTerms, priority_rules, first_match, has, existsb.
  rewrite !orb_false_r. reflexivity.
Qed.

(** C7. On "best cashback card" the query carries the cashback phrase and
    the site restriction; on "hdfc vs axis" it carries "compare hdfc vs
    axis"; and for every input the phrase is the one of the first rule that
    applies, in the order comparison, cashback, travel or lounge, premium
    or lifestyle, business, first or new, reward. *)
Theorem enhanceSearchParams_examples_and_priority :
  let cashback := searchQuery (enhanceSearchParams (js "best cashback card")) in
  let versus := searchQuery (enhanceSearchParams (js "hdfc vs axis")) in
  includes cashback (js "highest cashback rewards Indian credit cards latest offers") = true
  ∧ includes cashback
      (js "(site:cardinsider.com OR site:bankbazaar.com OR site:cardexpert.in)") = true
  ∧ includes versus (js "compare hdfc vs axis") = true
  ∧ ∀ query, searchQuery (enhanceSearchParams query) = spec_searchQuery query.
Proof.
  repeat split; try (vm_compute; reflexivity).
  intros query. unfold enhanceSearchParams, spec_searchQuery. simpl.
  by rewrite additionalTerms_first_match.
Qed.

End SearchFacts.

(** ** Properties of the markdown enhancer *)

Section MarkdownFacts.

Import Markdown.

(** C9. The three-column row becomes one bold "label: value - emphasis"
    line, with no pipe character left. *)
Theorem table_row_becomes_bold_line :
  enhanceMarkdown (js "| Annual Fee | ₹500 | ₹1000 |")
  = js "**Annual Fee**: ₹500 - _₹1000_"
  ∧ existsb (N.eqb PIPE) (enhanceMarkdown (js "| Annual Fee | ₹500 | ₹1000 |")) = false.
Proof. split; vm_compute; reflexivity. Qed.

(** C8 fails on the code. A heading that is already well spaced is clean
    and has no pipe character, yet every pass adds a space after its
    marker, and a third-level heading is re-read by the second-level rule:
    a second pass does not give the result of the first. *)
Theorem enhanceMarkdown_not_idempotent_on_headings :
  existsb (N.eqb PIPE) (js "# Title") = false
  ∧ enhanceMarkdown (js "# Title") = js "#  Title"
  ∧ enhanceMarkdown (enhanceMarkdown (js "# Title")) = js "#   Title"
  ∧ enhanceMarkdown (enhanceMarkdown (enhanceMarkdown (js "# Title")))
    = js "#    Title"
  ∧ enhanceMarkdown (js "### Basic Features") = js "## #   Basic Features"
  ∧ enhanceMarkdown (enhanceMarkdown (js "### Basic Features"))
    = js "##  #    Basic Features".
Proof. repeat split; vm_compute; reflexivity. Qed.

End MarkdownFacts.

(** ** Properties of the response generator *)

Section GeneratorFacts.

Import RateLimit Generator.

Lemma generateResponse_unfold env msgs retryCount w :
  generateResponse env msgs retryCount w =
  match attempt env msgs w with
  | (Returned a, w1) => (Returned a, w1)
  | (Thrown message, w1) =>
    if includes message rateLimitExceeded then (Thrown message, w1)
    else if decide (retryCount < MAX_RETRIES)%nat then
      generateResponse env msgs (S retryCount)
        (emit (Sleep (RETRY_DELAY * (Z.of_nat retryCount + 1))) w1)
    else (Thrown (errorMessage message), w1)
  end.
Proof.
  simp generateResponse.
  destruct (attempt env msgs w) as [[a|message] w1]; simpl; [done |].
  destruct (includes message rateLimitExceeded); simpl; [done |].
  destruct (decide (retryCount < MAX_RETRIES)%nat); simpl; done.
Qed.

Import Observations.

Lemma emit_emits e es w : emit e (emits es w) = emits (es ++ [e]) w.
Proof. unfold emit, emits. simpl. by rewrite <- app_assoc. Qed.

Lemma emits_emits es es' w : emits es' (emits es w) = emits (es ++ es') w.
Proof. unfold emits. simpl. by rewrite <- app_assoc. Qed.

Lemma attempt_invalid env msgs w :
  Validator.validateMessageStructure (as_turn <$> msgs) = false →
  attempt env msgs w = (Thrown invalidStructure, emits [Received msgs] w).
Proof. intros H. unfold attempt. by rewrite H. Qed.

Lemma invalid_structure_run env msgs w :
  Validator.validateMessageStructure (as_turn <$> msgs) = false →
  generateResponse env msgs 0 w =
  (Thrown unknownError,
   emits [ Received msgs; Sleep 1000; Received msgs; Sleep 2000;
           Received msgs; Sleep 3000; Received msgs ] w).
Proof.
  intros H.
  assert (includes invalidStructure rateLimitExceeded = false) as Hrl
    by (vm_compute; reflexivity).
  assert (errorMessage invalidStructure = unknownError) as Herr
    by (vm_compute; reflexivity).
  do 4 (rewrite generateResponse_unfold, (attempt_invalid _ _ _ H), Hrl;
        cbn [decide decide_rel MAX_RETRIES]; simpl;
        rewrite ?emit_emits, ?emits_emits; simpl).
  by rewrite Herr.
Qed.

(** C1 fails on the code. A conversation that ends on an assistant turn
    does not pass validation, and the call then sleeps 1000, 2000 and
    3000 ms and validates again each time before it fails, with the
    message for unknown errors; no request is made. The [throw] of the
    validation error stands inside the [try] whose [catch] retries
    everything but rate-limit errors. *)
Theorem invalid_conversation_is_retried (env : Env) (w : World) :
  let msgs := [Scenario.turn assistant "Hello"] in
  Validator.validateMessageStructure (as_turn <$> msgs) = false
  ∧ generateResponse env msgs 0 w =
    (Thrown unknownError,
     emits [ Received msgs; Sleep 1000; Received msgs; Sleep 2000;
             Received msgs; Sleep 3000; Received msgs ] w)
  ∧ includes unknownError (js "Invalid message structure") = false.
Proof.
  intros msgs.
  assert (Validator.validateMessageStructure (as_turn <$> msgs) = false) as H
    by (vm_compute; reflexivity).
  split; [exact H |]. split; [by apply invalid_structure_run |].
  vm_compute; reflexivity.
Qed.

(** *** Substring tests on error messages *)

Lemma startsWith_app (sub post : jsstring) : startsWith (sub ++ post) sub = true.
Proof. induction sub as [|c sub IH]; simpl; [done |]. by rewrite N.eqb_refl. Qed.

Lemma includes_prefix (sub post : jsstring) : includes (sub ++ post) sub = true.
Proof.
  pose proof (startsWith_app sub post) as H.
  destruct (sub ++ post); simpl; by rewrite H.
Qed.

Lemma includes_app_r (pre s sub : jsstring) :
  includes s sub = true → includes (pre ++ s) sub = true.
Proof.
  intros H. induction pre as [|c pre IH]; [done |].
  simpl. rewrite IH. apply orb_true_r.
Qed.

Lemma includes_after_prefix (pre s sub : jsstring) :
  match sub with
  | c :: _ => existsb (N.eqb c) pre
  | [] => true
  end = false →
  includes (pre ++ s) sub = includes s sub.
Proof.
  destruct sub as [|c sub]; [done |].
  induction pre as [|x pre IH]; [done |]. simpl.
  intros [Hx Hpre]%orb_false_elim. rewrite Hx. simpl. by apply IH.
Qed.

Lemma apiError_429_busy (text : jsstring) :
  errorMessage (apiError 429 text) = serviceBusy.
Proof.
  unfold errorMessage.
  replace (includes (apiError 429 text) (js "429")) with true; [done |].
  symmetry. unfold apiError.
  apply (includes_app_r (js "Perplexity API error (")).
  apply (includes_prefix (js "429")).
Qed.

Lemma apiError_429_rate (text : jsstring) :
  includes (apiError 429 text) rateLimitExceeded
  = includes text rateLimitExceeded.
Proof.
  unfold apiError. rewrite !app_assoc.
  apply includes_after_prefix. vm_compute. reflexivity.
Qed.

(** *** The limiter while it has room *)

Lemma checkRateLimit_room (t : Z) (tokens : Tokens) (c : Z) :
  0 ≤ c < maxRequests →
  map_Forall (λ _ b, count b ≤ c) tokens →
  ∃ tokens',
    checkRateLimit t tokens = (Allowed, tokens')
    ∧ map_Forall (λ _ b, count b ≤ c + 1) tokens'.
Proof.
  intros Hc Hall. unfold checkRateLimit.
  set (key := toString (t `div` windowMs)).
  destruct (tokens !! key) as [b|] eqn:Hb.
  - pose proof (Hall _ _ Hb) as Hle. simpl in Hle.
    rewrite bool_decide_eq_false_2 by lia.
    eexists. split; [reflexivity |].
    intros k x [(-> & x0 & Hx0 & ->) | (_ & Hx)]%lookup_alter_Some.
    + pose proof (Hall _ _ Hx0). simpl in *. lia.
    + pose proof (Hall _ _ Hx). simpl in *. lia.
  - cbn [count]. rewrite bool_decide_eq_false_2 by (unfold maxRequests; lia).
    eexists. split; [reflexivity |].
    assert (∀ k x,
      filter (λ kv, expired t kv.2 = false)
        (<[key := {| count := 0; resetTime := t + windowMs |}]> tokens) !! k = Some x →
      count x ≤ c) as Hin.
    { intros k x [Hx _]%map_lookup_filter_Some.
      apply lookup_insert_Some in Hx as [[_ <-] | [_ Hx]]; simpl; [lia |].
      exact (Hall _ _ Hx). }
    intros k x [(-> & x0 & Hx0 & ->) | (_ & Hx)]%lookup_alter_Some.
    + pose proof (Hin _ _ Hx0). simpl in *. lia.
    + pose proof (Hin _ _ Hx). simpl in *. lia.
Qed.

(** One attempt that the validator and the limiter let through and the
    provider answers with a failure status. *)
Lemma attempt_refused env msgs w (c : Z) status text :
  Validator.validateMessageStructure (as_turn <$> msgs) = true →
  0 ≤ c < maxRequests →
  map_Forall (λ _ b, count b ≤ c) (tokens w) →
  respond env (calls w) (buildRequest env msgs) = Responded status text →
  ok status = false →
  ∃ w1,
    attempt env msgs w = (Thrown (apiError status text), w1)
    ∧ map_Forall (λ _ b, count b ≤ c + 1) (tokens w1)
    ∧ trace w1 = trace w ++ [Received msgs; Fetch (buildRequest env msgs)]
    ∧ calls w1 = S (calls w).
Proof.
  intros Hv Hc Hall Hresp Hok. unfold attempt. rewrite Hv. simpl.
  unfold checkRateLimit_now. simpl.
  destruct (checkRateLimit_room (now env (ticks w)) (tokens w) c Hc Hall)
    as (tokens' & -> & Hall').
  unfold fetch. simpl. rewrite Hresp, Hok. simpl.
  eexists. split; [reflexivity |]. simpl.
  split; [done |]. split; [| done]. by rewrite <- app_assoc.
Qed.

(** One attempt that the limiter turns down. *)
Lemma attempt_limited env msgs w reset tokens' :
  Validator.validateMessageStructure (as_turn <$> msgs) = true →
  checkRateLimit (now env (ticks w)) (tokens w) = (Rejected reset, tokens') →
  attempt env msgs w =
  (Thrown (rateLimitExceeded ++ js ". Please try again after "
             ++ toLocaleTimeString env reset),
   {| tokens := tokens'; ticks := S (ticks w); calls := calls w;
      trace := trace w ++ [Received msgs] |}).
Proof.
  intros Hv Hrej. unfold attempt. rewrite Hv. simpl.
  unfold checkRateLimit_now. simpl. by rewrite Hrej.
Qed.

(** A refused attempt followed by what the [catch] block does with it. *)
Lemma refused_then_retry env msgs w (c : Z) retryCount :
  Validator.validateMessageStructure (as_turn <$> msgs) = true →
  0 ≤ c < maxRequests →
  map_Forall (λ _ b, count b ≤ c) (tokens w) →
  (∀ k, ∃ text, respond env k (buildRequest env msgs) = Responded 429 text
                ∧ includes text rateLimitExceeded = false) →
  ∃ w1,
    map_Forall (λ _ b, count b ≤ c + 1) (tokens w1)
    ∧ trace w1 = trace w ++ [Received msgs; Fetch (buildRequest env msgs)]
    ∧ calls w1 = S (calls w)
    ∧ generateResponse env msgs retryCount w =
      if decide (retryCount < MAX_RETRIES)%nat then
        generateResponse env msgs (S retryCount)
          (emit (Sleep (RETRY_DELAY * (Z.of_nat retryCount + 1))) w1)
      else (Thrown serviceBusy, w1).
Proof.
  intros Hv Hc Hall Hbusy.
  destruct (Hbusy (calls w)) as (text & Hresp & Htext).
  destruct (attempt_refused env msgs w c 429 text Hv Hc Hall Hresp eq_refl)
    as (w1 & Ha & Hall1 & Htr & Hcalls).
  exists w1. repeat (split; [done |]).
  rewrite generateResponse_unfold, Ha, apiError_429_rate, Htext.
  by rewrite apiError_429_busy.
Qed.

(** C3, as the code has it. A provider that answers 429 to every call,
    with a body that does not contain "Rate limit exceeded", is called
    four times while the limiter has room, with sleeps of 1000, 2000 and
    3000 ms before the retries, and the call fails with the service-busy
    message. An attempt that the limiter turns down ends the call at once,
    whatever the retry count. *)
Theorem busy_provider_exhausts_retries (env : Env) (msgs : list Message) (w : World) :
  Validator.validateMessageStructure (as_turn <$> msgs) = true →
  let request := buildRequest env msgs in
  ((∀ k, ∃ text, respond env k request = Responded 429 text
                 ∧ includes text rateLimitExceeded = false) →
   map_Forall (λ _ b, count b ≤ 6) (tokens w) →
   ∃ w',
     generateResponse env msgs 0 w = (Thrown serviceBusy, w')
     ∧ trace w' =
       trace w ++ [ Received msgs; Fetch request; Sleep 1000;
                    Received msgs; Fetch request; Sleep 2000;
                    Received msgs; Fetch request; Sleep 3000;
                    Received msgs; Fetch request ]
     ∧ calls w' = (calls w + 4)%nat)
  ∧ (∀ retryCount reset tokens',
       checkRateLimit (now env (ticks w)) (tokens w) = (Rejected reset, tokens') →
       generateResponse env msgs retryCount w =
       (Thrown (rateLimitExceeded ++ js ". Please try again after "
                  ++ toLocaleTimeString env reset),
        {| tokens := tokens'; ticks := S (ticks w); calls := calls w;
           trace := trace w ++ [Received msgs] |})).
Proof.
  intros Hv request. split.
  - intros Hbusy Hall.
    destruct (refused_then_retry env msgs w 6 0 Hv ltac:(done) Hall Hbusy)
      as (w1 & Hall1 & Htr1 & Hc1 & ->).
    destruct (refused_then_retry env msgs (emit (Sleep (RETRY_DELAY * (Z.of_nat 0 + 1))) w1)
                7 1 Hv ltac:(done) Hall1 Hbusy)
      as (w2 & Hall2 & Htr2 & Hc2 & E2).
    destruct (refused_then_retry env msgs (emit (Sleep (RETRY_DELAY * (Z.of_nat 1 + 1))) w2)
                8 2 Hv ltac:(done) Hall2 Hbusy)
      as (w3 & Hall3 & Htr3 & Hc3 & E3).
    destruct (refused_then_retry env msgs (emit (Sleep (RETRY_DELAY * (Z.of_nat 2 + 1))) w3)
                9 3 Hv ltac:(done) Hall3 Hbusy)
      as (w4 & Hall4 & Htr4 & Hc4 & E4).
    exists w4. cbn [decide decide_rel] in *. simpl in E2, E3, E4 |- *.
    rewrite E2, E3, E4. split; [done |].
    simpl in Htr2, Htr3, Htr4, Hc2, Hc3, Hc4. split; [| lia].
    rewrite Htr4, Htr3, Htr2, Htr1. fold request.
    by rewrite <- !app_assoc.
  - intros retryCount reset tokens' Hrej.
    rewrite generateResponse_unfold, (attempt_limited _ _ _ _ _ Hv Hrej).
    by rewrite includes_prefix.
Qed.

Lemma busy_provider_exhausts_retries_witness :
  let env := Scenario.always (Responded 429 (js "Too Many Requests")) in
  let msgs := [Scenario.turn user "best cashback card"] in
  let request := buildRequest env msgs in
  let full := {| tokens := (checks (replicate 10 0) (∅ : Tokens)).2; ticks := 0;
                 calls := 0; trace := [] |} in
  Validator.validateMessageStructure (as_turn <$> msgs) = true
  ∧ (∃ w', generateResponse env msgs 0 Scenario.start = (Thrown serviceBusy, w')
           ∧ trace w' = [ Received msgs; Fetch request; Sleep 1000;
                          Received msgs; Fetch request; Sleep 2000;
                          Received msgs; Fetch request; Sleep 3000;
                          Received msgs; Fetch request ]
           ∧ calls w' = 4%nat)
  ∧ (generateResponse env msgs 0 full).1
    = Thrown (js "Rate limit exceeded. Please try again after 60000").
Proof.
  intros env msgs request full.
  assert (Hv : Validator.validateMessageStructure (as_turn <$> msgs) = true)
    by (vm_compute; reflexivity).
  split; [exact Hv |]. split.
  - apply (proj1 (busy_provider_exhausts_retries env msgs Scenario.start Hv)).
    + intros k. exists (js "Too Many Requests"). split; vm_compute; reflexivity.
    + intros k b Hk. vm_compute in Hk. discriminate Hk.
  - assert (Hrej : checkRateLimit (now env (ticks full)) (tokens full)
                   = (Rejected 60000, tokens full))
      by (vm_compute; reflexivity).
    rewrite (proj2 (busy_provider_exhausts_retries env msgs full Hv) 0%nat 60000
               (tokens full) Hrej).
    vm_compute. reflexivity.
Defined.

(** C3 as stated fails: a provider whose 429 body reads "Rate limit
    exceeded" is called once; the call does not sleep or retry, and it
    fails with the provider's error, not with the service-busy message. *)
Lemma busy_provider_naming_the_rate_limit :
  let env := Scenario.always (Responded 429 (js "Rate limit exceeded")) in
  let msgs := [Scenario.turn user "best cashback card"] in
  let run := generateResponse env msgs 0 Scenario.start in
  Validator.validateMessageStructure (as_turn <$> msgs) = true
  ∧ run.1 = Thrown (js "Perplexity API error (429): Rate limit exceeded")
  ∧ trace run.2 = [Received msgs; Fetch (buildRequest env msgs)]
  ∧ calls run.2 = 1%nat
  ∧ bool_decide (js "Perplexity API error (429): Rate limit exceeded" = serviceBusy)
    = false.
Proof.
  intros env msgs run. split; [vm_compute; reflexivity |].
  assert (run = (Thrown (js "Perplexity API error (429): Rate limit exceeded"),
                 (attempt env msgs Scenario.start).2)) as ->.
  { unfold run. rewrite generateResponse_unfold.
    assert ((attempt env msgs Scenario.start).1
            = Thrown (js "Perplexity API error (429): Rate limit exceeded")) as H1
      by (vm_compute; reflexivity).
    destruct (attempt env msgs Scenario.start) as [c w1]. simpl in *. subst c.
    replace (includes (js "Perplexity API error (429): Rate limit exceeded")
               rateLimitExceeded) with true by (vm_compute; reflexivity).
    done. }
  simpl. repeat split; vm_compute; reflexivity.
Qed.

(** *** Which turn feeds the search query *)

Lemma userQuery_first env (msgs : list Message) :
  userQuery env (qualify <$> msgs) =
  match List.find is_user msgs with
  | Some m => toLowerCase env (qualifier ++ content m)
  | None => []
  end.
Proof.
  unfold userQuery. induction msgs as [|[r c] msgs IH]; [done |].
  destruct r; simpl in *; done.
Qed.

(** C6 fails on the code. In a conversation with two user turns the
    request's search query is built from the first one (its content after
    the qualifier, in lower case): the question about cashback decides the
    phrase, not the latest question, which is about lounge access. In
    general the query comes from the first turn that [find] meets. *)
Theorem search_query_follows_first_user_turn :
  let msgs := [ Scenario.turn user "Which card gives the best cashback?";
                Scenario.turn assistant "The SBI Cashback card.";
                Scenario.turn user "Does it have lounge access?" ] in
  let env := Scenario.always (Responded 200 (js "Yes.")) in
  let run := generateResponse env msgs 0 Scenario.start in
  Validator.validateMessageStructure (as_turn <$> msgs) = true
  ∧ run.1 = Returned {| answer := js "Yes."; sources := [] |}
  ∧ trace run.2 = [Received msgs; Fetch (buildRequest env msgs)]
  ∧ search_query (buildRequest env msgs)
    = js "latest Indian credit cards highest cashback rewards Indian credit cards latest offers (site:cardinsider.com OR site:bankbazaar.com OR site:cardexpert.in)"
  ∧ Search.searchQuery
      (Search.enhanceSearchParams (toLowerCase env (js "Does it have lounge access?")))
    = js "latest Indian credit cards best Indian airport lounge access credit cards international travel benefits (site:cardinsider.com OR site:bankbazaar.com OR site:cardexpert.in)"
  ∧ ∀ env' msgs',
      search_query (buildRequest env' msgs')
      = Search.searchQuery
          (Search.enhanceSearchParams
             match List.find is_user msgs' with
             | Some m => toLowerCase env' (qualifier ++ content m)
             | None => []
             end).
Proof.
  intros msgs env run.
  split; [vm_compute; reflexivity |].
  assert (attempt env msgs Scenario.start
          = (Returned {| answer := js "Yes."; sources := [] |},
             (attempt env msgs Scenario.start).2)) as Ha.
  { assert ((attempt env msgs Scenario.start).1
            = Returned {| answer := js "Yes."; sources := [] |}) as H1
      by (vm_compute; reflexivity).
    destruct (attempt env msgs Scenario.start); simpl in *; by subst. }
  assert (run = (Returned {| answer := js "Yes."; sources := [] |},
                 (attempt env msgs Scenario.start).2)) as ->.
  { unfold run. rewrite generateResponse_unfold. by rewrite Ha. }
  split; [done |]. split; [vm_compute; reflexivity |].
  split; [vm_compute; reflexivity |]. split; [vm_compute; reflexivity |].
  intros env' msgs'. unfold buildRequest. simpl. by rewrite userQuery_first.
Qed.

(** *** The input across retries *)

Lemma qualified_once_map (msgs : list Message) :
  qualified_once msgs (qualify <$> msgs).
Proof.
  induction msgs as [|[r c] msgs IH]; [constructor |].
  constructor; [| exact IH]. destruct r; (split; [reflexivity | cbn; reflexivity]).
Qed.

Lemma carries_buildRequest env (msgs : list Message) :
  carries msgs (messages (buildRequest env msgs)).
Proof.
  unfold buildRequest. cbn [messages]. pose proof (qualified_once_map msgs) as Hq.
  unfold withSystemPrompt, carries.
  destruct (qualify <$> msgs) as [|m rest].
  - exists [{| role := system; content := CREDIT_CARD_EXPERT_PROMPT |}], [].
    split; [reflexivity |]. split; [right; reflexivity | exact Hq].
  - destruct (role m).
    + exists [{| role := system; content := CREDIT_CARD_EXPERT_PROMPT |}], (m :: rest).
      split; [reflexivity |]. split; [right; reflexivity | exact Hq].
    + exists [{| role := system; content := CREDIT_CARD_EXPERT_PROMPT |}], (m :: rest).
      split; [reflexivity |]. split; [right; reflexivity | exact Hq].
    + exists [], (m :: rest).
      split; [reflexivity |]. split; [left; reflexivity | exact Hq].
Qed.

Lemma attempt_faithful env (msgs : list Message) (w : World) :
  ∃ events,
    trace (attempt env msgs w).2 = trace w ++ events
    ∧ Forall (faithful_to msgs) events.
Proof.
  pose proof (carries_buildRequest env msgs) as Hc.
  assert (Forall (faithful_to msgs) [Received msgs]) as H1.
  { apply Forall_cons. split; [reflexivity | apply Forall_nil_2]. }
  assert (Forall (faithful_to msgs) [Received msgs; Fetch (buildRequest env msgs)]) as H2.
  { apply Forall_cons. split; [reflexivity |].
    apply Forall_cons. split; [exact Hc | apply Forall_nil_2]. }
  unfold attempt.
  destruct (Validator.validateMessageStructure (as_turn <$> msgs)); cbn [negb].
  - unfold checkRateLimit_now, emit. cbn [tokens ticks calls trace].
    destruct (checkRateLimit _ _) as [[|reset] t]; cbn [snd trace].
    + exists [Received msgs; Fetch (buildRequest env msgs)].
      split; [| exact H2].
      unfold fetch. cbn [tokens ticks calls trace].
      destruct (respond env _ _) as [message|status text]; cbn [snd trace].
      * symmetry. apply (app_assoc _ [_] [_]).
      * destruct (ok status); cbn [negb snd trace];
          [| symmetry; apply (app_assoc _ [_] [_])].
        destruct (parse env text); cbn [snd trace];
          symmetry; apply (app_assoc _ [_] [_]).
    + exists [Received msgs]. split; [reflexivity | exact H1].
  - exists [Received msgs]. split; [reflexivity | exact H1].
Qed.

(** C10. Whatever happens and however often the call retries, every
    attempt is handed the conversation as it was passed in, and every
    request carries that conversation with the qualifier put exactly once
    in front of each user turn (after the expert prompt when the
    conversation brings no system turn of its own). *)
Theorem input_is_never_rewritten
    (env : Env) (msgs : list Message) (retryCount : nat) (w : World) :
  ∃ events,
    trace (generateResponse env msgs retryCount w).2 = trace w ++ events
    ∧ Forall (faithful_to msgs) events.
Proof.
  remember (MAX_RETRIES - retryCount)%nat as n eqn:Hn.
  revert retryCount w Hn. induction n as [|n IH]; intros retryCount w Hn;
    rewrite generateResponse_unfold;
    destruct (attempt_faithful env msgs w) as (events & Htr & Hev);
    destruct (attempt env msgs w) as [[a|message] w1]; simpl in Htr;
    try (exists events; done);
    destruct (includes message rateLimitExceeded);
    try (exists events; done);
    destruct (decide (retryCount < MAX_RETRIES)%nat) as [Hlt|Hge];
    try (exists events; done).
  - lia.
  - destruct (IH (S retryCount)
                (emit (Sleep (RETRY_DELAY * (Z.of_nat retryCount + 1))) w1)
                ltac:(lia)) as (more & Htr' & Hev').
    exists (events ++ Sleep (RETRY_DELAY * (Z.of_nat retryCount + 1)) :: more).
    split.
    + rewrite Htr'. simpl. rewrite Htr. by rewrite <- !app_assoc.
    + apply Forall_app. split; [done |]. by constructor.
Qed.

End GeneratorFacts.

(** ** More on the rate limiter: invariants of the tracked state *)

Section LimiterInvariants.

Import RateLimit Tracking.

Implicit Types (tokens : Tokens) (b : Bucket).

Lemma digits_inj (u v : Decimal.uint) : digits u = digits v → u = v.
Proof.
  revert v. induction u; intros []; simpl; intros H; try done;
    injection H as H; f_equal; by apply IHu.
Qed.

Lemma digits_head (u : Decimal.uint) (c : N) (s : jsstring) :
  digits u = c :: s → (48 ≤ c ≤ 57)%N.
Proof. destruct u; simpl; intros [= <- _]; lia. Qed.

Lemma toString_inj (x y : Z) : toString x = toString y → x = y.
Proof.
  assert (∀ p, digits (Pos.to_uint p) ≠ [48%N]) as Hnz.
  { intros p H. apply (DecimalPos.Unsigned.to_uint_nonzero p).
    by apply digits_inj. }
  assert (∀ p q, digits (Pos.to_uint p) ≠ 45%N :: digits (Pos.to_uint q)) as Hsign.
  { intros p q H. apply digits_head in H. lia. }
  destruct x as [|p|p], y as [|q|q]; simpl; intros H; try done.
  - by destruct (Hnz q).
  - by destruct (Hnz p).
  - f_equal. by apply DecimalPos.Unsigned.to_uint_inj, digits_inj.
  - by destruct (Hsign p q).
  - by destruct (Hsign q p).
  - injection H as H. f_equal.
    by apply DecimalPos.Unsigned.to_uint_inj, digits_inj.
Qed.

Lemma checks_app (a c : list Z) tokens :
  checks (a ++ c) tokens =
  ((checks a tokens).1 ++ (checks c (checks a tokens).2).1,
   (checks c (checks a tokens).2).2).
Proof.
  revert tokens. induction a as [|t a IH]; intros tokens; simpl.
  - by destruct (checks c tokens).
  - destruct (checkRateLimit t tokens) as [r tokens1]. rewrite IH.
    destruct (checks a tokens1) as [rs tokens2]. simpl.
    by destruct (checks c tokens2).
Qed.

(** What one check does to the tracked buckets, seen from outside. *)
Lemma checkRateLimit_lookup (t : Z) tokens k b :
  (checkRateLimit t tokens).2 !! k = Some b →
  (k = toString (t `div` windowMs)
   ∧ tokens !! k = None
   ∧ b = {| count := 1; resetTime := t + windowMs |})
  ∨ (∃ b0, tokens !! k = Some b0 ∧ resetTime b = resetTime b0
           ∧ (is_Some (tokens !! toString (t `div` windowMs)) ∨ t ≤ resetTime b0)
           ∧ (b = b0 ∨ (k = toString (t `div` windowMs)
                        ∧ b = bump b0 ∧ count b0 < maxRequests))).
Proof.
  unfold checkRateLimit.
  destruct (tokens !! toString (t `div` windowMs)) as [bk|] eqn:Hk.
  - assert (is_Some (Some bk)) as Hp by eauto.
    case_bool_decide as Hfull; cbn [snd].
    + intros H. right. exists b. eauto 10.
    + intros [(<- & x0 & Hx0 & ->) | (_ & Hx)]%lookup_alter_Some.
      * right. exists x0. split; [done |]. split; [done |].
        split; [eauto |]. right. split; [done |]. split; [done |].
        rewrite Hx0 in Hk. injection Hk as ->. lia.
      * right. exists b. eauto 10.
  - cbn [count]. rewrite bool_decide_eq_false_2 by (unfold maxRequests; lia).
    cbn [snd].
    assert (∀ j x,
      filter (λ kv, expired t kv.2 = false)
        (<[toString (t `div` windowMs) :=
             {| count := 0; resetTime := t + windowMs |}]> tokens) !! j = Some x →
      (j = toString (t `div` windowMs)
       ∧ x = {| count := 0; resetTime := t + windowMs |})
      ∨ (j ≠ toString (t `div` windowMs) ∧ tokens !! j = Some x
         ∧ t ≤ resetTime x)) as Hin.
    { intros j x [Hx Hlive]%map_lookup_filter_Some.
      apply lookup_insert_Some in Hx as [[<- <-] | [Hne Hx]]; [by left |].
      right. split; [done |]. split; [done |].
      unfold expired in Hlive. simpl in Hlive.
      apply bool_decide_eq_false in Hlive. lia. }
    intros [(<- & x0 & Hx0 & ->) | (Hne & Hx)]%lookup_alter_Some.
    + apply Hin in Hx0 as [[_ ->] | [? _]]; [| done]. by left.
    + apply Hin in Hx as [[-> _] | (_ & Hx & Hlive)]; [done |].
      right. exists b. eauto 10.
Qed.

Lemma checkRateLimit_counts (t : Z) tokens :
  map_Forall (λ _ b, 1 ≤ count b ≤ maxRequests) tokens →
  map_Forall (λ _ b, 1 ≤ count b ≤ maxRequests) (checkRateLimit t tokens).2.
Proof.
  intros Hall k b Hb. simpl.
  apply checkRateLimit_lookup in Hb
    as [(_ & _ & ->) | (b0 & Hb0 & _ & _ & [-> | (_ & -> & Hlt)])].
  - simpl. unfold maxRequests. lia.
  - exact (Hall _ _ Hb0).
  - pose proof (Hall _ _ Hb0) as H0. simpl in *. lia.
Qed.

Lemma checks_step (t : Z) (times : list Z) tokens :
  (checks (t :: times) tokens).2 = (checks times (checkRateLimit t tokens).2).2.
Proof.
  simpl. destruct (checkRateLimit t tokens) as [r tokens1]. simpl.
  by destruct (checks times tokens1).
Qed.

(** X1. Whatever the instants of the checks, every bucket the limiter
    tracks holds between one and ten requests: the counter never passes
    the limit. *)
Theorem count_stays_within_limit (times : list Z) :
  map_Forall (λ _ b, 1 ≤ count b ≤ maxRequests) (checks times ∅).2.
Proof.
  assert (∀ tokens, map_Forall (λ _ b, 1 ≤ count b ≤ maxRequests) tokens →
          map_Forall (λ _ b, 1 ≤ count b ≤ maxRequests) (checks times tokens).2)
    as Hgen.
  { induction times as [|t times IH]; intros tokens Hall; [done |].
    rewrite checks_step. by apply IH, checkRateLimit_counts. }
  apply Hgen, map_Forall_empty.
Qed.

(** X2. A rejected check changes nothing: the bucket of the window exists
    and is full, the reported instant is its stored [resetTime], and the
    tracked state after the check is the state before it. *)
Theorem rejection_leaves_state (t : Z) tokens (reset : Z) tokens' :
  checkRateLimit t tokens = (Rejected reset, tokens') →
  tokens' = tokens
  ∧ ∃ b, tokens !! toString (t `div` windowMs) = Some b
         ∧ maxRequests ≤ count b ∧ resetTime b = reset.
Proof.
  unfold checkRateLimit. set (key := toString (t `div` windowMs)).
  destruct (tokens !! key) as [bk|] eqn:Hk.
  - case_bool_decide as Hfull; [| done]. intros [= <- <-]. eauto.
  - cbn [count]. by rewrite bool_decide_eq_false_2 by (unfold maxRequests; lia).
Qed.

Lemma rejection_leaves_state_witness :
  let full := (checks (replicate 10 61000) (∅ : Tokens)).2 in
  checkRateLimit 62000 full = (Rejected 121000, full)
  ∧ ∃ b, full !! toString (62000 `div` windowMs) = Some b
         ∧ maxRequests ≤ count b ∧ resetTime b = 121000.
Proof.
  intros full.
  assert (H : checkRateLimit 62000 full = (Rejected 121000, full))
    by (vm_compute; reflexivity).
  split; [exact H |].
  exact (proj2 (rejection_leaves_state 62000 full 121000 full H)).
Defined.

Lemma checkRateLimit_tracking (t now : Z) tokens :
  t ≤ now →
  created_by t tokens → recent t tokens →
  created_by now (checkRateLimit now tokens).2
  ∧ recent now (checkRateLimit now tokens).2.
Proof.
  intros Hle Hcr Hrec.
  assert (∀ t0, t0 ≤ now → now ≤ t0 + windowMs →
          t0 `div` windowMs = now `div` windowMs
          ∨ t0 `div` windowMs = now `div` windowMs - 1) as Hwin.
  { intros t0 H1 H2. unfold windowMs in *.
    pose proof (Z.div_le_mono t0 now (60 * 1000) ltac:(lia) H1).
    pose proof (Z.div_le_mono (now - 60 * 1000) t0 (60 * 1000) ltac:(lia) ltac:(lia)) as H3.
    replace (now - 60 * 1000) with (now + (-1) * (60 * 1000)) in H3 by lia.
    rewrite Z.div_add in H3 by lia. lia. }
  split.
  - intros k b Hb.
    apply checkRateLimit_lookup in Hb
      as [(-> & _ & ->) | (b0 & Hb0 & Hreset & _ & _)].
    + exists now. simpl. eauto with lia.
    + destruct (Hcr _ _ Hb0) as (t0 & Ht0 & -> & Hr0).
      exists t0. rewrite Hreset. eauto with lia.
  - intros k [b Hb].
    apply checkRateLimit_lookup in Hb
      as [(-> & _ & _) | (b0 & Hb0 & _ & Hlive & _)]; [by left |].
    destruct Hlive as [Hpresent | Hlive].
    + (* the window of [now] is tracked already: it is the window of [t] *)
      destruct (Hrec _ Hpresent) as [Hsame | Hprev]; apply toString_inj in Hsame || apply toString_inj in Hprev.
      * rewrite Hsame. apply Hrec. eauto.
      * pose proof (Z.div_le_mono t now windowMs ltac:(done) Hle). lia.
    + destruct (Hcr _ _ Hb0) as (t0 & Ht0 & -> & Hr0).
      destruct (Hwin t0 ltac:(lia) ltac:(lia)) as [-> | ->]; eauto.
Qed.

Lemma checks_tracking (times : list Z) : ∀ t tokens,
  nondecreasing t times →
  created_by t tokens → recent t tokens →
  created_by (default t (last times)) (checks times tokens).2
  ∧ recent (default t (last times)) (checks times tokens).2.
Proof.
  induction times as [|now times IH]; intros t tokens Hmono Hcr Hrec; [done |].
  destruct Hmono as [Hle Hmono]. rewrite checks_step.
  destruct (checkRateLimit_tracking t now tokens Hle Hcr Hrec) as [Hcr' Hrec'].
  replace (default t (last (now :: times))) with (default now (last times))
    by (rewrite last_cons; by destruct (last times)).
  exact (IH now _ Hmono Hcr' Hrec').
Qed.

Lemma checks_length (times : list Z) tokens :
  length (checks times tokens).1 = length times.
Proof.
  revert tokens. induction times as [|t times IH]; intros tokens; [done |].
  simpl. destruct (checkRateLimit t tokens) as [r tokens1].
  specialize (IH tokens1). destruct (checks times tokens1). simpl in *. lia.
Qed.

(** Ten checks at one instant of a window that is not tracked yet. *)
Lemma ten_allowed (t : Z) tokens :
  tokens !! toString (t `div` windowMs) = None →
  (checks (replicate 10 t) tokens).1 = replicate 10 Allowed.
Proof.
  intros Hnone.
  destruct (checks_fresh t (replicate 9 t) tokens Hnone) as [Hr _].
  { by apply Forall_replicate. }
  apply list_eq_same_length with 10%nat;
    [done | by rewrite checks_length |].
  intros i x y Hi Hx Hy.
  change (replicate 10 t) with (t :: replicate 9 t) in Hx.
  rewrite Hr in Hx by (rewrite length_replicate; lia).
  rewrite bool_decide_eq_true_2 in Hx by lia.
  apply lookup_replicate in Hy as [-> _]. congruence.
Qed.

(** X3. With a clock that never runs backwards, the limiter started empty
    tracks at most two buckets at any time: creating a bucket drops every
    bucket that has expired, which leaves only the window before. *)
Theorem at_most_two_buckets (t : Z) (times : list Z) :
  nondecreasing t times →
  (size (checks times (∅ : Tokens)).2 ≤ 2)%nat.
Proof.
  intros Hmono.
  destruct (checks_tracking times t ∅ Hmono) as (_ & Hrec).
  { intros k b Hb. by rewrite lookup_empty in Hb. }
  { intros k [b Hb]. by rewrite lookup_empty in Hb. }
  set (t' := default t (last times)) in *.
  rewrite <- size_dom.
  transitivity (size ({[ toString (t' `div` windowMs) ]}
                      ∪ {[ toString (t' `div` windowMs - 1) ]} : gset (list N))).
  - apply subseteq_size. intros k Hk. apply elem_of_dom in Hk.
    destruct (Hrec k Hk) as [-> | ->]; set_solver.
  - rewrite size_union_alt, size_singleton.
    assert ((({[ toString (t' `div` windowMs - 1) ]} : gset (list N))
               ∖ {[ toString (t' `div` windowMs) ]})
            ⊆ {[ toString (t' `div` windowMs - 1) ]}) as Hsub
      by (intros x [Hx _]%elem_of_difference; exact Hx).
    apply subseteq_size in Hsub. rewrite size_singleton in Hsub. lia.
Qed.

Lemma at_most_two_buckets_witness :
  let times := [5; 59000; 61000; 61500; 125000; 190000; 250000] in
  nondecreasing 0 times
  ∧ (size (checks times (∅ : Tokens)).2 ≤ 2)%nat.
Proof.
  intros times.
  assert (H : nondecreasing 0 times) by (simpl; lia).
  split; [exact H |].
  exact (at_most_two_buckets 0 times H).
Defined.

(** X4. The window is fixed, not sliding: ten checks in the last
    millisecond of a window and ten in the first millisecond of the next
    are all allowed, so twenty requests can pass within one millisecond. *)
Theorem burst_across_window_boundary (w : Z) :
  let before := (w + 1) * windowMs - 1 in
  let after := (w + 1) * windowMs in
  after - before = 1
  ∧ (checks (replicate 10 before ++ replicate 10 after) (∅ : Tokens)).1
    = replicate 20 Allowed.
Proof.
  intros before after. split; [unfold before, after; lia |].
  assert (before `div` windowMs = w) as Hb.
  { symmetry. apply (Z.div_unique before windowMs w (windowMs - 1));
      unfold before, windowMs; lia. }
  assert (after `div` windowMs = w + 1) as Ha.
  { unfold after. apply Z.div_mul. done. }
  rewrite checks_app. cbn [fst].
  rewrite ten_allowed by done.
  destruct (checks_tracking (replicate 10 before) before ∅) as (_ & Hrec).
  { simpl. lia. }
  { intros k b Hk. by rewrite lookup_empty in Hk. }
  { intros k [b Hk]. by rewrite lookup_empty in Hk. }
  rewrite ten_allowed; [done |].
  destruct ((checks (replicate 10 before) ∅).2 !! toString (after `div` windowMs))
    as [b|] eqn:Hk; [| done].
  destruct (Hrec _ (mk_is_Some _ _ Hk)) as [H | H];
    apply toString_inj in H; simpl in H; lia.
Qed.

End LimiterInvariants.

(** ** More on the validator: what a valid conversation looks like *)

Section ValidatorShape.

Import Validator.

(** The checks that follow the filtering, as a function of the remaining
    turns. *)
Lemma validate_by_remaining (messages : list Turn) :
  validateMessageStructure messages =
  match filter (λ msg, role msg ≠ js "system") messages with
  | [] => true
  | r :: rs =>
    alternates (r :: rs)
    && match last (r :: rs) with
       | Some m => bool_decide (role m = js "user")
       | None => true
       end
  end.
Proof.
  unfold validateMessageStructure. destruct messages as [|m0 ms]; [done |].
  destruct (filter _ (m0 :: ms)) as [|r rs]; [done |].
  destruct (alternates (r :: rs)); [| done]. cbn [negb andb].
  destruct (last (r :: rs)) as [m|]; [| done].
  by repeat case_bool_decide.
Qed.

(** X5. System turns do not count: putting one anywhere in a conversation,
    or taking it out, does not change the verdict. *)
Theorem system_turns_are_ignored (before after : list Turn) (s : Turn) :
  role s = js "system" →
  validateMessageStructure (before ++ s :: after)
  = validateMessageStructure (before ++ after).
Proof.
  intros Hs. rewrite !validate_by_remaining, !filter_app.
  rewrite filter_cons_False by (by intros []). done.
Qed.

Lemma system_turns_are_ignored_witness :
  let ask := {| role := js "user"; content := js "best cashback card" |} in
  let reply := {| role := js "assistant"; content := js "SBI Cashback" |} in
  let note := {| role := js "system"; content := js "be brief" |} in
  role note = js "system"
  ∧ validateMessageStructure ([ask; reply] ++ note :: [ask])
    = validateMessageStructure ([ask; reply] ++ [ask]).
Proof.
  intros ask reply note.
  assert (H : role note = js "system") by reflexivity.
  split; [exact H |].
  exact (system_turns_are_ignored [ask; reply] [ask] note H).
Defined.

Lemma alternates_snoc (ms : list Turn) (x : Turn) :
  alternates (ms ++ [x]) =
  alternates ms
  && match last ms with
     | Some y => bool_decide (role y ≠ role x)
     | None => true
     end.
Proof.
  induction ms as [|a ms IH]; [done |].
  destruct ms as [|b rest].
  - simpl. by repeat case_bool_decide.
  - change ((a :: b :: rest) ++ [x]) with (a :: (b :: rest) ++ [x]).
    change ((b :: rest) ++ [x]) with (b :: rest ++ [x]) in *.
    cbn [alternates]. rewrite last_cons_cons.
    case_bool_decide; [done |]. exact IH.
Qed.

End ValidatorShape.

Section ValidatorTyped.

Import Generator Observations.

Lemma role_name_inj (r r' : Role) : role_name r = role_name r' → r = r'.
Proof. destruct r, r'; (done || (vm_compute; discriminate)). Qed.

Lemma spoken_as_turn (msgs : list Message) :
  filter (λ t, Validator.role t ≠ js "system") (as_turn <$> msgs)
  = as_turn <$> spoken msgs.
Proof.
  unfold spoken. induction msgs as [|[r c] msgs IH]; [done |].
  rewrite fmap_cons. destruct r.
  - rewrite !filter_cons_True, fmap_cons, IH; [done | done |].
    cbn. vm_compute. discriminate.
  - rewrite !filter_cons_True, fmap_cons, IH; [done | done |].
    cbn. vm_compute. discriminate.
  - rewrite !filter_cons_False; [done | | ]; cbn; by intros [].
Qed.

Lemma back_S (i : nat) (r : Role) :
  r ≠ system → back (S i) r = back i (other r).
Proof.
  intros Hr. unfold back. rewrite Nat.even_succ, <- Nat.negb_even.
  destruct (Nat.even i), r; done.
Qed.

(** Alternation with a given last role, read backwards. *)
Lemma alternates_backwards (ns : list Message) : ∀ r,
  r ≠ system →
  Forall (λ m, role m ≠ system) ns →
  (Validator.alternates (as_turn <$> ns) = true
   ∧ ∀ m, last ns = Some m → role m = r)
  ↔ ∀ i m, rev ns !! i = Some m → role m = back i r.
Proof.
  induction ns as [|x l IH] using rev_ind; intros r Hr Hall.
  - split; [intros _ i m H; by destruct i | done].
  - apply Forall_app in Hall as [Hl Hx]. rewrite Forall_singleton in Hx.
    rewrite fmap_app. change (as_turn <$> [x]) with [as_turn x].
    rewrite alternates_snoc, rev_unit, fmap_last.
    specialize (IH (other r) ltac:(by destruct r) Hl).
    split.
    + intros [[Halt Hprev]%andb_true_iff Hlast].
      pose proof (Hlast x (last_snoc _ _)) as Hxr.
      intros [|i] m Hm.
      * simpl in Hm. by injection Hm as <-.
      * rewrite back_S by done. simpl in Hm. apply (proj1 IH); [| done].
        split; [done |]. intros y Hy. rewrite Hy in Hprev. simpl in Hprev.
        apply bool_decide_eq_true in Hprev.
        eapply Forall_forall in Hl; [| by eapply last_Some_elem_of].
        destruct (role y) eqn:Ey, (role x) eqn:Ex, r; try done;
          exfalso; apply Hprev; simpl; by rewrite Ey, Ex.
    + intros Hpat.
      pose proof (Hpat 0%nat x eq_refl) as Hxr. simpl in Hxr.
      assert (Validator.alternates (as_turn <$> l) = true
              ∧ ∀ m, last l = Some m → role m = other r) as [Halt Hprev].
      { apply (proj2 IH). intros i m Hm. rewrite <- back_S by done.
        by apply Hpat. }
      split; [| intros m; rewrite last_snoc; by intros [= <-]].
      rewrite Halt. cbn [andb].
      destruct (last l) as [y|] eqn:Hy; [| done]. simpl.
      apply bool_decide_eq_true. intros Heq. apply role_name_inj in Heq.
      specialize (Hprev y eq_refl). rewrite Hxr, Hprev in Heq. by destruct r.
Qed.

(** X6. A conversation passes validation exactly when its non-system
    turns, read from the last one backwards, are user, assistant, user and
    so on: the last turn is the user's and the roles alternate. *)
Theorem valid_means_alternating_back_from_user (msgs : list Message) :
  Validator.validateMessageStructure (as_turn <$> msgs) = true
  ↔ ∀ i m, rev (spoken msgs) !! i = Some m → role m = back i user.
Proof.
  rewrite validate_by_remaining, spoken_as_turn.
  assert (Forall (λ m, role m ≠ system) (spoken msgs)) as Hall.
  { unfold spoken. apply Forall_forall. by intros m [? _]%list_elem_of_filter. }
  rewrite <- (alternates_backwards (spoken msgs) user ltac:(done) Hall).
  destruct (spoken msgs) as [|n ns] eqn:E.
  - split; [done |]. done.
  - rewrite <- E in *. rewrite E at 1. rewrite fmap_cons. rewrite <- fmap_cons, <- E.
    rewrite fmap_last. rewrite andb_true_iff.
    split.
    + intros [Halt Hlast]. split; [done |]. intros m Hm.
      rewrite Hm in Hlast. simpl in Hlast. apply bool_decide_eq_true in Hlast.
      by apply role_name_inj.
    + intros [Halt Hlast]. split; [done |].
      destruct (last (spoken msgs)) as [m|] eqn:Hm; [| done]. simpl.
      apply bool_decide_eq_true. by rewrite (Hlast m).
Qed.

End ValidatorTyped.

(** ** More on the response generator *)

Section GeneratorBehaviour.

(** The [try]/[catch] equation of [generateResponse], under a name of its
    own. *)
Lemma generateResponse_catch
    (env : Generator.Env) (msgs : list Generator.Message)
    (retryCount : nat) (w : Generator.World) :
  Generator.generateResponse env msgs retryCount w =
  match Generator.attempt env msgs w with
  | (Generator.Returned a, w1) => (Generator.Returned a, w1)
  | (Generator.Thrown message, w1) =>
    if includes message Generator.rateLimitExceeded
    then (Generator.Thrown message, w1)
    else if decide (retryCount < Generator.MAX_RETRIES)%nat then
      Generator.generateResponse env msgs (S retryCount)
        (Generator.emit
           (Generator.Sleep (Generator.RETRY_DELAY * (Z.of_nat retryCount + 1))) w1)
    else (Generator.Thrown (Generator.errorMessage message), w1)
  end.
Proof. exact (generateResponse_unfold env msgs retryCount w). Qed.

Import RateLimit Generator Observations.

Lemma attempt_allowed (env : Env) (msgs : list Message) (w : World) (tokens' : Tokens) :
  Validator.validateMessageStructure (as_turn <$> msgs) = true →
  checkRateLimit (now env (ticks w)) (tokens w) = (Allowed, tokens') →
  attempt env msgs w =
  (settle env (respond env (calls w) (buildRequest env msgs)),
   {| tokens := tokens'; ticks := S (ticks w); calls := S (calls w);
      trace := trace w ++ [Received msgs; Fetch (buildRequest env msgs)] |}).
Proof.
  intros Hv Hal. unfold attempt. rewrite Hv. cbn [negb].
  unfold checkRateLimit_now, emit. cbn [tokens ticks calls trace].
  rewrite Hal. unfold fetch, settle. cbn [tokens ticks calls trace].
  rewrite <- (app_assoc _ [_] [_]). cbn [app].
  destruct (respond env _ _) as [message|status text]; [done |].
  destruct (ok status); cbn [negb]; [| done].
  by destruct (parse env text).
Qed.

(** The shapes an attempt can take, with what it leaves behind. *)
Lemma attempt_cases (env : Env) (msgs : list Message) (w : World) :
  (Validator.validateMessageStructure (as_turn <$> msgs) = false
   ∧ attempt env msgs w = (Thrown invalidStructure, emits [Received msgs] w))
  ∨ (∃ reset tokens',
       attempt env msgs w =
       (Thrown (rateLimitExceeded ++ js ". Please try again after "
                  ++ toLocaleTimeString env reset),
        {| tokens := tokens'; ticks := S (ticks w); calls := calls w;
           trace := trace w ++ [Received msgs] |}))
  ∨ (∃ tokens',
       attempt env msgs w =
       (settle env (respond env (calls w) (buildRequest env msgs)),
        {| tokens := tokens'; ticks := S (ticks w); calls := S (calls w);
           trace := trace w ++ [Received msgs; Fetch (buildRequest env msgs)] |})).
Proof.
  destruct (Validator.validateMessageStructure (as_turn <$> msgs)) eqn:Hv.
  - right.
    destruct (checkRateLimit (now env (ticks w)) (tokens w)) as [[|reset] t] eqn:Hc.
    + right. exists t. by apply attempt_allowed.
    + left. exists reset, t. by apply attempt_limited.
  - left. split; [done |]. by apply attempt_invalid.
Qed.

Lemma sleeps_app (es es' : list Event) : sleeps (es ++ es') = sleeps es ++ sleeps es'.
Proof. induction es as [|[] es IH]; simpl; by rewrite ?IH. Qed.

Lemma fetches_app (es es' : list Event) :
  fetches (es ++ es') = fetches es ++ fetches es'.
Proof. induction es as [|[] es IH]; simpl; by rewrite ?IH. Qed.

Lemma schedule_cons (retryCount : nat) :
  (retryCount < MAX_RETRIES)%nat →
  schedule retryCount
  = RETRY_DELAY * (Z.of_nat retryCount + 1) :: schedule (S retryCount).
Proof.
  intros Hlt. unfold schedule.
  replace (MAX_RETRIES - retryCount)%nat with (S (MAX_RETRIES - S retryCount))
    by lia.
  done.
Qed.

(** The events of one attempt: no sleep, at most one request, and that
    request is the one built from the input. *)
Lemma attempt_events (env : Env) (msgs : list Message) (w : World) :
  ∃ events,
    trace (attempt env msgs w).2 = trace w ++ events
    ∧ sleeps events = []
    ∧ (fetches events = [] ∨ fetches events = [buildRequest env msgs]).
Proof.
  destruct (attempt_cases env msgs w)
    as [[_ ->] | [(reset & t & ->) | (t & ->)]]; cbn [snd trace emits].
  - exists [Received msgs]. eauto.
  - exists [Received msgs]. eauto.
  - exists [Received msgs; Fetch (buildRequest env msgs)]. eauto.
Qed.

Lemma run_events (env : Env) (msgs : list Message) (retryCount : nat) (w : World) :
  ∃ events,
    trace (generateResponse env msgs retryCount w).2 = trace w ++ events
    ∧ sleeps events `prefix_of` schedule retryCount
    ∧ (length (fetches events) ≤ S (length (sleeps events)))%nat
    ∧ Forall (λ r, r = buildRequest env msgs) (fetches events).
Proof.
  remember (MAX_RETRIES - retryCount)%nat as n eqn:Hn.
  revert retryCount w Hn. induction n as [|n IH]; intros retryCount w Hn;
    rewrite generateResponse_catch;
    destruct (attempt_events env msgs w) as (events & Htr & Hsl & Hfe);
    assert (sleeps events `prefix_of` schedule retryCount
            ∧ (length (fetches events) ≤ S (length (sleeps events)))%nat
            ∧ Forall (λ r, r = buildRequest env msgs) (fetches events)) as Hone
      by (rewrite Hsl; split; [apply prefix_nil |];
          destruct Hfe as [-> | ->]; simpl; split; (lia || by repeat constructor));
    destruct (attempt env msgs w) as [[a|message] w1]; cbn [snd] in Htr;
    try (exists events; done);
    destruct (includes message rateLimitExceeded);
    try (exists events; done);
    destruct (decide (retryCount < MAX_RETRIES)%nat) as [Hlt|Hge];
    try (exists events; done).
  - lia.
  - destruct (IH (S retryCount)
                (emit (Sleep (RETRY_DELAY * (Z.of_nat retryCount + 1))) w1)
                ltac:(lia)) as (more & Htr' & Hsl' & Hlen' & Hall').
    exists (events ++ Sleep (RETRY_DELAY * (Z.of_nat retryCount + 1)) :: more).
    rewrite sleeps_app, fetches_app.
    change (sleeps (Sleep (RETRY_DELAY * (Z.of_nat retryCount + 1)) :: more))
      with (RETRY_DELAY * (Z.of_nat retryCount + 1) :: sleeps more).
    change (fetches (Sleep (RETRY_DELAY * (Z.of_nat retryCount + 1)) :: more))
      with (fetches more).
    rewrite Hsl. cbn [app]. split; [| split; [| split]].
    + rewrite Htr'. cbn [emit trace]. rewrite Htr. by rewrite <- !app_assoc.
    + rewrite schedule_cons by done. by apply prefix_cons.
    + rewrite length_app. cbn [length].
      destruct Hfe as [-> | ->]; simpl; lia.
    + apply Forall_app. split; [| done]. apply Hone.
Qed.

(** X8. One call never asks the provider more than four times, and what it
    sleeps is an initial part of 1000, 2000, 3000 ms: every request is
    the one built from the input, and there is at most one request more
    than there are sleeps. *)
Theorem effort_is_bounded (env : Env) (msgs : list Message) (w : World) :
  ∃ events,
    trace (generateResponse env msgs 0 w).2 = trace w ++ events
    ∧ sleeps events `prefix_of` [1000; 2000; 3000]
    ∧ (length (fetches events) ≤ S (length (sleeps events)))%nat
    ∧ (length (fetches events) ≤ 4)%nat
    ∧ Forall (λ r, r = buildRequest env msgs) (fetches events).
Proof.
  destruct (run_events env msgs 0 w) as (events & Htr & Hsl & Hlen & Hall).
  exists events. repeat (split; [done |]). split; [| done].
  apply prefix_length in Hsl. simpl in Hsl. lia.
Qed.

(** A run on a conversation that fails validation, from any retry count. *)
Lemma invalid_run (env : Env) (msgs : list Message) (retryCount : nat) (w : World) :
  Validator.validateMessageStructure (as_turn <$> msgs) = false →
  ∃ events,
    generateResponse env msgs retryCount w = (Thrown unknownError, emits events w)
    ∧ fetches events = [].
Proof.
  intros Hv.
  assert (includes invalidStructure rateLimitExceeded = false) as Hrl
    by (vm_compute; reflexivity).
  assert (errorMessage invalidStructure = unknownError) as Herr
    by (vm_compute; reflexivity).
  remember (MAX_RETRIES - retryCount)%nat as n eqn:Hn.
  revert retryCount w Hn. induction n as [|n IH]; intros retryCount w Hn;
    rewrite generateResponse_catch, (attempt_invalid _ _ _ Hv), Hrl;
    destruct (decide (retryCount < MAX_RETRIES)%nat) as [Hlt|Hge];
    try lia.
  - exists [Received msgs]. by rewrite Herr.
  - destruct (IH (S retryCount)
                (emit (Sleep (RETRY_DELAY * (Z.of_nat retryCount + 1)))
                   (emits [Received msgs] w)) ltac:(lia))
      as (more & -> & Hmore).
    exists ([Received msgs; Sleep (RETRY_DELAY * (Z.of_nat retryCount + 1))] ++ more).
    split.
    + by rewrite emit_emits, emits_emits.
    + rewrite fetches_app. by rewrite Hmore.
Qed.

(** X14. A conversation that fails validation never reaches the limiter
    or the provider: whatever the retry count, the call fails, no request
    is counted against the rate limit, the clock is not read and no call
    goes out. *)
Theorem invalid_input_costs_nothing
    (env : Env) (msgs : list Message) (retryCount : nat) (w : World) :
  Validator.validateMessageStructure (as_turn <$> msgs) = false →
  let run := generateResponse env msgs retryCount w in
  (∃ message, run.1 = Thrown message)
  ∧ tokens run.2 = tokens w
  ∧ ticks run.2 = ticks w
  ∧ calls run.2 = calls w
  ∧ ∃ events, trace run.2 = trace w ++ events ∧ fetches events = [].
Proof.
  intros Hv run. unfold run.
  destruct (invalid_run env msgs retryCount w Hv) as (events & -> & Hf).
  cbn [fst snd emits tokens ticks calls trace]. eauto 10.
Qed.

Lemma invalid_input_costs_nothing_witness :
  let msgs := [Scenario.turn user "hello"; Scenario.turn user "anyone there?"] in
  let env := Scenario.always (Responded 200 (js "ok")) in
  let run := generateResponse env msgs 0 Scenario.start in
  Validator.validateMessageStructure (as_turn <$> msgs) = false
  ∧ (∃ message, run.1 = Thrown message)
  ∧ tokens run.2 = tokens Scenario.start
  ∧ ticks run.2 = ticks Scenario.start
  ∧ calls run.2 = calls Scenario.start
  ∧ ∃ events, trace run.2 = trace Scenario.start ++ events ∧ fetches events = [].
Proof.
  intros msgs env run.
  assert (H : Validator.validateMessageStructure (as_turn <$> msgs) = false)
    by (vm_compute; reflexivity).
  split; [exact H |].
  exact (invalid_input_costs_nothing env msgs 0 Scenario.start H).
Defined.

(** *** Attempts while the limiter has room *)

Lemma attempt_room (env : Env) (msgs : list Message) (w : World) (c : Z) :
  Validator.validateMessageStructure (as_turn <$> msgs) = true →
  0 ≤ c < maxRequests →
  map_Forall (λ _ b, count b ≤ c) (tokens w) →
  ∃ w1,
    attempt env msgs w
    = (settle env (respond env (calls w) (buildRequest env msgs)), w1)
    ∧ map_Forall (λ _ b, count b ≤ c + 1) (tokens w1)
    ∧ trace w1 = trace w ++ [Received msgs; Fetch (buildRequest env msgs)]
    ∧ calls w1 = S (calls w).
Proof.
  intros Hv Hc Hall.
  destruct (checkRateLimit_room (now env (ticks w)) (tokens w) c Hc Hall)
    as (tokens' & Hal & Hall').
  eexists. split; [by apply attempt_allowed |]. done.
Qed.

(** A failed attempt followed by what the [catch] block does with it. *)
Lemma failed_then_retry
    (env : Env) (msgs : list Message) (w : World) (c : Z) (retryCount : nat)
    (message : jsstring) :
  Validator.validateMessageStructure (as_turn <$> msgs) = true →
  0 ≤ c < maxRequests →
  map_Forall (λ _ b, count b ≤ c) (tokens w) →
  settle env (respond env (calls w) (buildRequest env msgs)) = Thrown message →
  includes message rateLimitExceeded = false →
  ∃ w1,
    map_Forall (λ _ b, count b ≤ c + 1) (tokens w1)
    ∧ trace w1 = trace w ++ [Received msgs; Fetch (buildRequest env msgs)]
    ∧ calls w1 = S (calls w)
    ∧ generateResponse env msgs retryCount w =
      if decide (retryCount < MAX_RETRIES)%nat then
        generateResponse env msgs (S retryCount)
          (emit (Sleep (RETRY_DELAY * (Z.of_nat retryCount + 1))) w1)
      else (Thrown (errorMessage message), w1).
Proof.
  intros Hv Hc Hall Hset Hmsg.
  destruct (attempt_room env msgs w c Hv Hc Hall) as (w1 & Ha & Hall1 & Htr & Hcalls).
  exists w1. repeat (split; [done |]).
  by rewrite generateResponse_catch, Ha, Hset, Hmsg.
Qed.

(** X9. When the first attempt goes through, the call returns at once what
    the provider sent: the content as it is, the citations as they are or
    none when the provider left them out, after one request and no
    sleep, whatever the retry count. *)
Theorem success_is_passed_through
    (env : Env) (msgs : list Message) (retryCount : nat) (w : World)
    (tokens' : Tokens) (status : Z) (text content : jsstring)
    (citations : option (list jsstring)) :
  Validator.validateMessageStructure (as_turn <$> msgs) = true →
  checkRateLimit (now env (ticks w)) (tokens w) = (Allowed, tokens') →
  respond env (calls w) (buildRequest env msgs) = Responded status text →
  ok status = true →
  parse env text = Payload content citations →
  generateResponse env msgs retryCount w =
  (Returned {| answer := content; sources := default [] citations |},
   {| tokens := tokens'; ticks := S (ticks w); calls := S (calls w);
      trace := trace w ++ [Received msgs; Fetch (buildRequest env msgs)] |}).
Proof.
  intros Hv Hal Hresp Hok Hparse.
  rewrite generateResponse_catch, (attempt_allowed env msgs w tokens' Hv Hal).
  unfold settle. by rewrite Hresp, Hok, Hparse.
Qed.

Lemma success_is_passed_through_witness :
  let env := Scenario.always (Responded 200 (js "Use the SBI Cashback card.")) in
  let msgs := [Scenario.turn user "best cashback card"] in
  (generateResponse env msgs 0 Scenario.start).1
  = Returned {| answer := js "Use the SBI Cashback card."; sources := [] |}
  ∧ trace (generateResponse env msgs 0 Scenario.start).2
    = [Received msgs; Fetch (buildRequest env msgs)].
Proof.
  intros env msgs.
  assert (Hv : Validator.validateMessageStructure (as_turn <$> msgs) = true)
    by (vm_compute; reflexivity).
  assert (Hal : checkRateLimit (now env (ticks Scenario.start)) (tokens Scenario.start)
                = (Allowed, (checkRateLimit 0 ∅).2))
    by (vm_compute; reflexivity).
  rewrite (success_is_passed_through env msgs 0 Scenario.start _ 200
             (js "Use the SBI Cashback card.") (js "Use the SBI Cashback card.") None
             Hv Hal eq_refl eq_refl eq_refl).
  split; reflexivity.
Defined.

(** X10. A failure that does not mention the rate limit is retried: when
    the first request fails in the network and the second one succeeds,
    the call sleeps 1000 ms in between and returns the second answer. *)
Theorem transient_failure_is_recovered
    (env : Env) (msgs : list Message) (w : World)
    (message : jsstring) (status : Z) (text content : jsstring)
    (citations : option (list jsstring)) :
  Validator.validateMessageStructure (as_turn <$> msgs) = true →
  map_Forall (λ _ b, count b ≤ 8) (tokens w) →
  respond env (calls w) (buildRequest env msgs) = Failed message →
  includes message rateLimitExceeded = false →
  respond env (S (calls w)) (buildRequest env msgs) = Responded status text →
  ok status = true →
  parse env text = Payload content citations →
  ∃ w',
    generateResponse env msgs 0 w =
    (Returned {| answer := content; sources := default [] citations |}, w')
    ∧ trace w' =
      trace w ++ [ Received msgs; Fetch (buildRequest env msgs); Sleep 1000;
                   Received msgs; Fetch (buildRequest env msgs) ]
    ∧ calls w' = S (S (calls w)).
Proof.
  intros Hv Hall Hfail Hmsg Hresp Hok Hparse.
  destruct (failed_then_retry env msgs w 8 0 message Hv ltac:(done) Hall)
    as (w1 & Hall1 & Htr1 & Hc1 & ->); [by rewrite Hfail | done |].
  rewrite decide_True by (unfold MAX_RETRIES; lia).
  destruct (attempt_room env msgs
              (emit (Sleep (RETRY_DELAY * (Z.of_nat 0 + 1))) w1) 9
              Hv ltac:(done) Hall1)
    as (w2 & Ha & _ & Htr2 & Hc2).
  exists w2. rewrite generateResponse_catch, Ha.
  cbn [emit calls trace] in *. rewrite Hc1, Hresp. unfold settle.
  rewrite Hok, Hparse. split; [done |]. split; [| lia].
  rewrite Htr2, Htr1. rewrite <- !app_assoc. reflexivity.
Qed.

Lemma transient_failure_is_recovered_witness :
  let msgs := [Scenario.turn user "best cashback card"] in
  ∃ w',
    generateResponse Scenario.flaky msgs 0 Scenario.start =
    (Returned {| answer := js "Use the SBI Cashback card."; sources := [] |}, w')
    ∧ trace w' =
      [ Received msgs; Fetch (buildRequest Scenario.flaky msgs); Sleep 1000;
        Received msgs; Fetch (buildRequest Scenario.flaky msgs) ]
    ∧ calls w' = 2%nat.
Proof.
  intros msgs.
  assert (Hv : Validator.validateMessageStructure (as_turn <$> msgs) = true)
    by (vm_compute; reflexivity).
  assert (Hall : map_Forall (λ _ b, count b ≤ 8) (tokens Scenario.start))
    by (intros k b Hk; vm_compute in Hk; discriminate Hk).
  assert (Hmsg : includes (js "fetch failed") rateLimitExceeded = false)
    by (vm_compute; reflexivity).
  exact (transient_failure_is_recovered Scenario.flaky msgs Scenario.start
           (js "fetch failed") 200 (js "Use the SBI Cashback card.")
           (js "Use the SBI Cashback card.") None
           Hv Hall eq_refl Hmsg eq_refl eq_refl eq_refl).
Defined.

(** *** Provider failures of any status *)

Lemma digits_chars (u : Decimal.uint) :
  Forall (λ c, (48 ≤ c ≤ 57)%N) (digits u).
Proof.
  induction u; cbn [digits]; [apply Forall_nil_2 | ..];
    (apply Forall_cons; split; [lia | assumption]).
Qed.

Lemma toString_lacks (z : Z) (c : N) :
  (57 < c)%N → existsb (N.eqb c) (toString z) = false.
Proof.
  intros Hc.
  assert (∀ u, existsb (N.eqb c) (digits u) = false) as Hd.
  { intros u. pose proof (digits_chars u) as H.
    induction H as [|x l Hx _ IH]; [done |]. simpl. rewrite IH.
    replace (c =? x)%N with false; [done |]. symmetry. apply N.eqb_neq. lia. }
  destruct z; cbn [toString existsb]; rewrite ?Hd; try done;
    rewrite orb_false_r; apply N.eqb_neq; lia.
Qed.

Lemma apiError_rate (status : Z) (text : jsstring) :
  includes (apiError status text) rateLimitExceeded
  = includes text rateLimitExceeded.
Proof.
  unfold apiError. rewrite !app_assoc.
  assert (rateLimitExceeded = 82%N :: js "ate limit exceeded") as ->
    by (vm_compute; reflexivity).
  apply includes_after_prefix.
  rewrite !existsb_app, (toString_lacks status 82) by lia.
  vm_compute. reflexivity.
Qed.

(** X11. Any failure status is retried like a 429 (a 401 included): a
    provider that answers every call with one non-success status, with
    bodies that do not contain "Rate limit exceeded", is called four
    times while the limiter has room, with sleeps of 1000, 2000 and
    3000 ms, and the call fails with the message chosen for the last
    error. *)
Theorem failing_status_is_retried
    (env : Env) (msgs : list Message) (w : World) (status : Z) :
  Validator.validateMessageStructure (as_turn <$> msgs) = true →
  ok status = false →
  (∀ k, ∃ text, respond env k (buildRequest env msgs) = Responded status text
                ∧ includes text rateLimitExceeded = false) →
  map_Forall (λ _ b, count b ≤ 6) (tokens w) →
  ∃ text w',
    respond env (calls w + 3) (buildRequest env msgs) = Responded status text
    ∧ generateResponse env msgs 0 w
      = (Thrown (errorMessage (apiError status text)), w')
    ∧ trace w' =
      trace w ++ [ Received msgs; Fetch (buildRequest env msgs); Sleep 1000;
                   Received msgs; Fetch (buildRequest env msgs); Sleep 2000;
                   Received msgs; Fetch (buildRequest env msgs); Sleep 3000;
                   Received msgs; Fetch (buildRequest env msgs) ].
Proof.
  intros Hv Hok Hbusy Hall.
  assert (∀ w0 text,
    respond env (calls w0) (buildRequest env msgs) = Responded status text →
    settle env (respond env (calls w0) (buildRequest env msgs))
    = Thrown (apiError status text)) as Hset.
  { intros w0 text Hr. unfold settle. by rewrite Hr, Hok. }
  destruct (Hbusy (calls w)) as (t1 & Hr1 & Ht1).
  destruct (failed_then_retry env msgs w 6 0 _ Hv ltac:(done) Hall (Hset _ _ Hr1))
    as (w1 & Hall1 & Htr1 & Hc1 & ->); [by rewrite apiError_rate |].
  set (s1 := emit (Sleep (RETRY_DELAY * (Z.of_nat 0 + 1))) w1).
  destruct (Hbusy (calls s1)) as (t2 & Hr2 & Ht2).
  destruct (failed_then_retry env msgs s1 7 1 _ Hv ltac:(done) Hall1 (Hset _ _ Hr2))
    as (w2 & Hall2 & Htr2 & Hc2 & E2); [by rewrite apiError_rate |].
  set (s2 := emit (Sleep (RETRY_DELAY * (Z.of_nat 1 + 1))) w2).
  destruct (Hbusy (calls s2)) as (t3 & Hr3 & Ht3).
  destruct (failed_then_retry env msgs s2 8 2 _ Hv ltac:(done) Hall2 (Hset _ _ Hr3))
    as (w3 & Hall3 & Htr3 & Hc3 & E3); [by rewrite apiError_rate |].
  set (s3 := emit (Sleep (RETRY_DELAY * (Z.of_nat 2 + 1))) w3).
  destruct (Hbusy (calls s3)) as (t4 & Hr4 & Ht4).
  destruct (failed_then_retry env msgs s3 9 3 _ Hv ltac:(done) Hall3 (Hset _ _ Hr4))
    as (w4 & Hall4 & Htr4 & Hc4 & E4); [by rewrite apiError_rate |].
  exists t4, w4.
  rewrite !decide_True in * by (unfold MAX_RETRIES; lia).
  rewrite decide_False in E4 by (unfold MAX_RETRIES; lia).
  subst s1 s2 s3. rewrite E2, E3, E4.
  cbn [emit calls trace] in *.
  split; [| split; [done |]].
  - rewrite <- Hr4. f_equal. lia.
  - rewrite Htr4, Htr3, Htr2, Htr1. rewrite <- !app_assoc. reflexivity.
Qed.

Lemma failing_status_is_retried_witness :
  let env := Scenario.always (Responded 401 (js "Unauthorized")) in
  let msgs := [Scenario.turn user "best cashback card"] in
  ∃ text w',
    respond env (calls Scenario.start + 3) (buildRequest env msgs)
    = Responded 401 text
    ∧ generateResponse env msgs 0 Scenario.start
      = (Thrown (errorMessage (apiError 401 text)), w')
    ∧ trace w' =
      trace Scenario.start
      ++ [ Received msgs; Fetch (buildRequest env msgs); Sleep 1000;
           Received msgs; Fetch (buildRequest env msgs); Sleep 2000;
           Received msgs; Fetch (buildRequest env msgs); Sleep 3000;
           Received msgs; Fetch (buildRequest env msgs) ].
Proof.
  intros env msgs.
  assert (Hv : Validator.validateMessageStructure (as_turn <$> msgs) = true)
    by (vm_compute; reflexivity).
  assert (Hall : map_Forall (λ _ b, count b ≤ 6) (tokens Scenario.start))
    by (intros k b Hk; vm_compute in Hk; discriminate Hk).
  apply (failing_status_is_retried env msgs Scenario.start 401 Hv eq_refl);
    [| exact Hall].
  intros k. exists (js "Unauthorized"). split; [reflexivity |].
  vm_compute. reflexivity.
Defined.

(** *** How a provider error is worded for the user *)

Lemma startsWith_sep (sub l s : jsstring) (c : N) :
  existsb (N.eqb c) sub = false →
  startsWith (l ++ c :: s) sub = startsWith (l ++ [c]) sub.
Proof.
  revert l. induction sub as [|p sub IH]; intros l Hc; [done |].
  cbn [existsb] in Hc. apply orb_false_elim in Hc as [Hp Hsub].
  destruct l as [|y l]; cbn [app startsWith].
  - rewrite N.eqb_sym in Hp. by rewrite Hp.
  - by rewrite IH.
Qed.

Lemma includes_sep (pre s sub : jsstring) (c : N) :
  existsb (N.eqb c) sub = false → sub ≠ [] →
  includes (pre ++ c :: s) sub = includes (pre ++ [c]) sub || includes s sub.
Proof.
  intros Hc Hsub. induction pre as [|x pre IH].
  - destruct sub as [|p sub]; [done |].
    cbn [existsb] in Hc. apply orb_false_elim in Hc as [Hp _].
    rewrite N.eqb_sym in Hp. cbn [app includes startsWith]. by rewrite Hp.
  - change ((x :: pre) ++ c :: s) with (x :: pre ++ c :: s).
    change ((x :: pre) ++ [c]) with (x :: pre ++ [c]).
    cbn [includes]. rewrite IH.
    change (x :: pre ++ c :: s) with ((x :: pre) ++ c :: s).
    rewrite (startsWith_sep sub (x :: pre) s c Hc).
    by rewrite orb_assoc.
Qed.

(** The words before the provider's text in the error of a failed
    response. *)
Lemma includes_apiError (status : Z) (text sub : jsstring) :
  existsb (N.eqb 32) sub = false → sub ≠ [] →
  includes (apiError status text) sub
  = includes (apiError status []) sub || includes text sub.
Proof.
  intros Hc Hsub. unfold apiError.
  assert (js "): " = js "):" ++ [32%N]) as -> by (vm_compute; reflexivity).
  rewrite app_nil_r, !app_assoc, <- !(app_assoc _ [32%N]). cbn [app].
  by apply includes_sep.
Qed.

Lemma server_statuses (status : Z) :
  500 ≤ status ≤ 599 →
  includes (apiError status []) (js "429") = false
  ∧ includes (apiError status []) (js "401") = false
  ∧ includes (apiError status []) (js "5") = true.
Proof.
  intros Hs.
  assert (forallb (λ st, negb (includes (apiError st []) (js "429"))
                         && negb (includes (apiError st []) (js "401"))
                         && includes (apiError st []) (js "5"))
            (seqZ 500 100) = true) as Hall by (vm_compute; reflexivity).
  rewrite forallb_forall in Hall.
  assert (In status (seqZ 500 100)) as Hin
    by (apply list_elem_of_In, elem_of_seqZ; lia).
  apply Hall, andb_true_iff in Hin as [[H1 H2]%andb_true_iff H3].
  apply negb_true_iff in H1, H2. done.
Qed.

(** X12. The message for the user is chosen by what the error text
    contains, the provider's text included: a body that mentions 429
    gives the service-busy message whatever the status; a 401 whose body
    does not mention 429 gives the authentication message; a 5xx whose
    body mentions neither 429 nor 401 gives the service-error message, and
    so does a 404 whose body merely contains a 5; a 400, 403 or 404 whose
    body contains none of these gives the unknown-error message. *)
Theorem provider_error_wording :
  (∀ status text, includes text (js "429") = true →
     errorMessage (apiError status text) = serviceBusy)
  ∧ (∀ text, includes text (js "429") = false →
       errorMessage (apiError 401 text) = authError)
  ∧ (∀ status text, 500 ≤ status ≤ 599 →
       includes text (js "429") = false → includes text (js "401") = false →
       errorMessage (apiError status text) = serviceError)
  ∧ (∀ text, includes text (js "429") = false → includes text (js "401") = false →
       includes text (js "5") = true →
       errorMessage (apiError 404 text) = serviceError)
  ∧ (∀ status text, status = 400 ∨ status = 403 ∨ status = 404 →
       includes text (js "429") = false → includes text (js "401") = false →
       includes text (js "5") = false →
       errorMessage (apiError status text) = unknownError).
Proof.
  assert (∀ status text sub, sub = js "429" ∨ sub = js "401" ∨ sub = js "5" →
          includes (apiError status text) sub
          = includes (apiError status []) sub || includes text sub) as Hsplit.
  { intros status text sub Hsub. apply includes_apiError;
      destruct Hsub as [-> | [-> | ->]]; (vm_compute; (reflexivity || discriminate)). }
  unfold errorMessage. repeat split.
  - intros status text H.
    rewrite (Hsplit status text (js "429")), H by eauto. by rewrite orb_true_r.
  - intros text H.
    rewrite (Hsplit 401 text (js "429")), (Hsplit 401 text (js "401")), H by eauto.
    replace (includes (apiError 401 []) (js "429")) with false
      by (vm_compute; reflexivity).
    replace (includes (apiError 401 []) (js "401")) with true
      by (vm_compute; reflexivity).
    done.
  - intros status text Hs H1 H2.
    destruct (server_statuses status Hs) as (E1 & E2 & E3).
    rewrite (Hsplit status text (js "429")), (Hsplit status text (js "401")),
      (Hsplit status text (js "5")), H1, H2, E1, E2, E3 by eauto.
    done.
  - intros text H1 H2 H3.
    rewrite (Hsplit 404 text (js "429")), (Hsplit 404 text (js "401")),
      (Hsplit 404 text (js "5")), H1, H2, H3 by eauto.
    replace (includes (apiError 404 []) (js "429")) with false
      by (vm_compute; reflexivity).
    replace (includes (apiError 404 []) (js "401")) with false
      by (vm_compute; reflexivity).
    by rewrite orb_true_r.
  - intros status text Hs H1 H2 H3.
    rewrite (Hsplit status text (js "429")), (Hsplit status text (js "401")),
      (Hsplit status text (js "5")), H1, H2, H3 by eauto.
    destruct Hs as [-> | [-> | ->]]; vm_compute; reflexivity.
Qed.

(** X13. Retries draw on the same limiter as first attempts: when the
    bucket of the window holds nine requests, a call whose first request
    fails is admitted once, sleeps 1000 ms, and is then turned down by
    the limiter; it fails with the rate-limit error after a single
    request. *)
Theorem retry_can_hit_the_limit
    (env : Env) (msgs : list Message) (w : World) (b : Bucket)
    (status : Z) (text : jsstring) :
  Validator.validateMessageStructure (as_turn <$> msgs) = true →
  tokens w !! toString (now env (ticks w) `div` windowMs) = Some b →
  count b = maxRequests - 1 →
  now env (S (ticks w)) `div` windowMs = now env (ticks w) `div` windowMs →
  respond env (calls w) (buildRequest env msgs) = Responded status text →
  ok status = false →
  includes text rateLimitExceeded = false →
  ∃ w',
    generateResponse env msgs 0 w =
    (Thrown (rateLimitExceeded ++ js ". Please try again after "
               ++ toLocaleTimeString env (resetTime b)), w')
    ∧ trace w' =
      trace w ++ [ Received msgs; Fetch (buildRequest env msgs); Sleep 1000;
                   Received msgs ]
    ∧ calls w' = S (calls w).
Proof.
  intros Hv Hb Hcount Hsame Hresp Hok Htext.
  assert (checkRateLimit (now env (ticks w)) (tokens w)
          = (Allowed, alter bump (toString (now env (ticks w) `div` windowMs))
                        (tokens w))) as Hal.
  { rewrite (checkRateLimit_existing _ _ b Hb).
    rewrite bool_decide_eq_false_2; [done |]. unfold maxRequests in *. lia. }
  rewrite generateResponse_catch, (attempt_allowed env msgs w _ Hv Hal).
  unfold settle. rewrite Hresp, Hok, apiError_rate, Htext.
  rewrite decide_True by (unfold MAX_RETRIES; lia).
  set (w1 := emit _ _).
  assert (checkRateLimit (now env (ticks w1)) (tokens w1)
          = (Rejected (resetTime b), tokens w1)) as Hrej.
  { unfold w1. cbn [emit ticks tokens].
    rewrite (checkRateLimit_existing _ _ (bump b)).
    - rewrite bool_decide_eq_true_2; [done |].
      unfold maxRequests in *. simpl. lia.
    - rewrite Hsame. by rewrite lookup_alter_eq, Hb. }
  rewrite generateResponse_catch, (attempt_limited env msgs w1 _ _ Hv Hrej).
  rewrite includes_prefix. eexists. split; [reflexivity |].
  unfold w1. cbn [emit trace calls]. split; [| done].
  rewrite <- !app_assoc. reflexivity.
Qed.

Lemma retry_can_hit_the_limit_witness :
  let env := Scenario.always (Responded 500 (js "Internal Server Error")) in
  let msgs := [Scenario.turn user "best cashback card"] in
  let nearly := {| tokens := (checks (replicate 9 0) (∅ : Tokens)).2; ticks := 0;
                   calls := 0; trace := [] |} in
  ∃ w',
    generateResponse env msgs 0 nearly =
    (Thrown (js "Rate limit exceeded. Please try again after 60000"), w')
    ∧ trace w' =
      [Received msgs; Fetch (buildRequest env msgs); Sleep 1000; Received msgs]
    ∧ calls w' = 1%nat.
Proof.
  intros env msgs nearly.
  assert (Hv : Validator.validateMessageStructure (as_turn <$> msgs) = true)
    by (vm_compute; reflexivity).
  assert (Hb : tokens nearly !! toString (now env (ticks nearly) `div` windowMs)
               = Some {| count := 9; resetTime := 60000 |})
    by (vm_compute; reflexivity).
  assert (Htext : includes (js "Internal Server Error") rateLimitExceeded = false)
    by (vm_compute; reflexivity).
  exact (retry_can_hit_the_limit env msgs nearly _ 500 (js "Internal Server Error")
           Hv Hb eq_refl eq_refl eq_refl eq_refl Htext).
Defined.

(** *** The conversation that goes out *)

(** The verdict of the validator depends on the roles only. *)
Lemma validate_by_roles (l l' : list Validator.Turn) :
  Forall2 (λ a b, Validator.role a = Validator.role b) l l' →
  Validator.validateMessageStructure l = Validator.validateMessageStructure l'.
Proof.
  intros Hrel. rewrite !validate_by_remaining.
  assert (Forall2 (λ a b, Validator.role a = Validator.role b)
            (filter (λ msg, Validator.role msg ≠ js "system") l)
            (filter (λ msg, Validator.role msg ≠ js "system") l')) as Hf.
  { induction Hrel as [|a b l l' Hab _ IH]; [constructor |].
    rewrite !filter_cons. rewrite <- Hab.
    destruct (decide (Validator.role a ≠ js "system")); [by constructor | done]. }
  clear Hrel. revert Hf.
  generalize (filter (λ msg, Validator.role msg ≠ js "system") l).
  generalize (filter (λ msg, Validator.role msg ≠ js "system") l').
  clear l l'. intros l' l Hf.
  assert (Validator.alternates l = Validator.alternates l') as Halt.
  { induction Hf as [|a b l l' Hab Hrest IH]; [done |].
    destruct Hrest as [|a2 b2 l l' Hab2 Hrest]; [done |].
    change (Validator.alternates (a :: a2 :: l))
      with (if bool_decide (Validator.role a = Validator.role a2)
            then false else Validator.alternates (a2 :: l)).
    change (Validator.alternates (b :: b2 :: l'))
      with (if bool_decide (Validator.role b = Validator.role b2)
            then false else Validator.alternates (b2 :: l')).
    rewrite Hab, Hab2, IH. done. }
  pose proof (Forall2_last _ _ _ Hf) as Hlast.
  destruct Hf as [|a b l l' Hab Hrest]; [done |].
  rewrite Halt. f_equal.
  destruct Hlast as [x y Hxy|]; [| done]. by rewrite Hxy.
Qed.

Lemma qualify_role (m : Message) : role (qualify m) = role m.
Proof. by destruct m as [[] c]. Qed.

(** X7. The conversation in a request always opens with a system turn: the
    caller's own when the input opens with one, the expert prompt put in
    front otherwise. Neither step changes the verdict of the validator:
    what goes out is valid exactly when the input is. *)
Theorem request_conversation_is_well_formed (env : Env) (msgs : list Message) :
  let sent := messages (buildRequest env msgs) in
  let prompt := {| role := system; content := CREDIT_CARD_EXPERT_PROMPT |} in
  (∃ m rest, sent = m :: rest ∧ role m = system)
  ∧ (∀ m rest, msgs = m :: rest → role m = system →
       sent = m :: (qualify <$> rest))
  ∧ (match msgs with m :: _ => role m ≠ system | [] => True end →
     sent = prompt :: (qualify <$> msgs))
  ∧ Validator.validateMessageStructure (as_turn <$> sent)
    = Validator.validateMessageStructure (as_turn <$> msgs).
Proof.
  intros sent prompt. unfold sent, buildRequest. cbn [messages].
  assert (Validator.validateMessageStructure (as_turn <$> (qualify <$> msgs))
          = Validator.validateMessageStructure (as_turn <$> msgs)) as Hq.
  { apply validate_by_roles. clear. induction msgs as [|m msgs IH]; [constructor |].
    constructor; [| exact IH]. cbn. by rewrite qualify_role. }
  assert (∀ l, Validator.validateMessageStructure (as_turn <$> (prompt :: l))
               = Validator.validateMessageStructure (as_turn <$> l)) as Hp.
  { intros l. rewrite !validate_by_remaining, fmap_cons.
    rewrite filter_cons_False; [done |]. by intros []. }
  unfold withSystemPrompt. destruct msgs as [|[r c] rest].
  - cbn [fmap list_fmap]. fold prompt. split; [by exists prompt, [] |].
    split; [done |]. split; [done |]. exact (Hp []).
  - rewrite fmap_cons in *. rewrite qualify_role. cbn [role].
    destruct r; fold prompt.
    + split; [by eexists prompt, _ |]. split; [by intros ? ? [= <- <-] |].
      split; [done |]. by rewrite Hp.
    + split; [by eexists prompt, _ |]. split; [by intros ? ? [= <- <-] |].
      split; [done |]. by rewrite Hp.
    + split; [by eexists _, _ |]. split; [by intros ? ? [= <- <-] _ |].
      split; [done |]. exact Hq.
Qed.

End GeneratorBehaviour.

(** ** The matcher: what a match passes over *)

Section MatcherFacts.

Import Markdown Language.

Lemma rmatch_Rep (lo : nat) (hi : option nat) (r' : regex) st k :
  rmatch (Rep lo hi r') st k
  = iterate r' lo hi k (S (lo + length (ahead st))) O st.
Proof. reflexivity. Qed.

Lemma clear_ahead gs st : ahead (clear gs st) = ahead st.
Proof. done. Qed.

Lemma clear_behind gs st : behind (clear gs st) = behind st.
Proof. done. Qed.

(** Whatever [rmatch] answers was answered by the continuation, at a
    position reached by passing over a text the pattern spans. *)
Lemma rmatch_spans (r : regex) : ∀ st k res,
  rmatch r st k = Some res →
  ∃ mid st',
    spans r mid
    ∧ ahead st = mid ++ ahead st'
    ∧ behind st' = rev mid ++ behind st
    ∧ k st' = Some res.
Proof.
  induction r as [|p|r1 IH1 r2 IH2|r1 IH1 r2 IH2|lo hi r' IH|i r' IH|p| |];
    intros st k res H;
    [cbn [rmatch] in H .. | rewrite rmatch_Rep in H
     | cbn [rmatch] in H | cbn [rmatch] in H | cbn [rmatch] in H | cbn [rmatch] in H].
  - exists [], st. done.
  - destruct (ahead st) as [|c rest] eqn:E; [done |].
    destruct (p c) eqn:Hp; [| done].
    exists [c], (MState (c :: behind st) rest (caps st)). cbn. eauto 10.
  - apply IH1 in H as (a & st1 & Ha & E1 & B1 & H).
    apply IH2 in H as (b & st2 & Hb & E2 & B2 & H).
    exists (a ++ b), st2. split; [cbn; eauto |].
    rewrite E1, E2, B2, B1, rev_app_distr, <- !app_assoc. done.
  - destruct (rmatch r1 st k) as [res1|] eqn:E.
    + injection H as <-. apply IH1 in E as (mid & st' & ? & ? & ? & ?).
      exists mid, st'. cbn. eauto.
    + apply IH2 in H as (mid & st' & ? & ? & ? & ?).
      exists mid, st'. cbn. eauto.
  - assert (∀ fuel st0 n, iterate r' lo hi k fuel n st0 = Some res →
              ∃ pieces st',
                Forall (spans r') pieces ∧ (lo ≤ n + length pieces)%nat
                ∧ ahead st0 = concat pieces ++ ahead st'
                ∧ behind st' = rev (concat pieces) ++ behind st0
                ∧ k st' = Some res) as Hit.
    { clear st H. intros fuel.
      induction fuel as [|fuel IHf]; intros st n H; [done |].
      cbn [iterate] in H.
      destruct (if below n hi then _ else None) as [res1|] eqn:E in H.
      - injection H as <-. destruct (below n hi); [| done].
        apply IH in E as (a & st1 & Ha & E1 & B1 & E).
        destruct (bool_decide (lo ≤ n)%nat && bool_decide (pos st1 = pos st));
          [done |].
        apply IHf in E as (pieces & st2 & Hall & Hlen & E2 & B2 & H).
        exists (a :: pieces), st2.
        split; [by apply Forall_cons |]. split; [cbn; lia |].
        rewrite clear_ahead in E1. rewrite clear_behind in B1. cbn [concat].
        rewrite E1, E2, B2, B1, rev_app_distr, <- !app_assoc. done.
      - case_bool_decide as Hlo; [| done].
        exists [], st. split; [apply Forall_nil_2 |]. split; [cbn; lia | done]. }
    apply Hit in H as (pieces & st' & Hall & Hlen & E & B & Hk).
    exists (concat pieces), st'. split; [| done].
    exists pieces. split; [done |]. split; [done | lia].
  - apply IH in H as (mid & st' & ? & ? & ? & H).
    eexists mid, _. split; [done |]. split; [| split; [| exact H]]; done.
  - exists [], st. destruct (behind st) as [|c ?]; [done |]. by destruct (p c).
  - exists [], st. destruct (behind st) as [|c ?]; [done |].
    by destruct (is_line_terminator c).
  - exists [], st. destruct (ahead st) as [|c ?]; [done |].
    by destruct (is_line_terminator c).
Qed.

Lemma match_here_spans (r : regex) (before after : jsstring) (st : mstate) :
  match_here r before after = Some st →
  ∃ mid, spans r mid ∧ after = mid ++ ahead st
         ∧ behind st = rev mid ++ before.
Proof.
  intros H. apply rmatch_spans in H as (mid & st' & ? & ? & ? & [= ->]).
  by exists mid.
Qed.

(** A pattern that matches at no position of a text leaves it as it is. *)
Lemma replace_from_unmatched (r : regex) (f : result → jsstring) (after : jsstring) :
  ∀ before,
    (∀ pre suf, after = pre ++ suf → match_here r (rev pre ++ before) suf = None) →
    replace_from r f before after O = after.
Proof.
  induction after as [|c after IH]; intros before Hno; cbn [replace_from].
  - pose proof (Hno [] [] eq_refl) as H0. cbn [rev app] in H0. by rewrite H0.
  - pose proof (Hno [] (c :: after) eq_refl) as H0. cbn [rev app] in H0.
    rewrite H0. f_equal. apply IH.
    intros pre suf ->. specialize (Hno (c :: pre) suf eq_refl).
    cbn [rev] in Hno. by rewrite <- app_assoc in Hno.
Qed.

Lemma startsWith_app_l (sub s post : jsstring) :
  startsWith s sub = true → startsWith (s ++ post) sub = true.
Proof.
  revert s. induction sub as [|p sub IH]; intros s; [done |].
  destruct s as [|c s]; [done |]. cbn [app startsWith].
  intros [-> H]%andb_true_iff. by rewrite IH.
Qed.

Lemma includes_app_l (s post sub : jsstring) :
  includes s sub = true → includes (s ++ post) sub = true.
Proof.
  induction s as [|c s IH].
  - destruct sub as [|p sub]; [| done]. intros _. by destruct post.
  - change ((c :: s) ++ post) with (c :: s ++ post). cbn [includes].
    intros [H | H]%orb_true_iff.
    + change (c :: s ++ post) with ((c :: s) ++ post).
      by rewrite startsWith_app_l.
    + rewrite IH by done. apply orb_true_r.
Qed.

Lemma includes_mid (pre mid post sub : jsstring) :
  includes mid sub = true → includes (pre ++ mid ++ post) sub = true.
Proof. intros H. by apply includes_app_r, includes_app_l. Qed.

(** A pattern whose every match contains [sub] leaves a text without
    [sub] as it is. *)
Lemma replace_without (sub : jsstring) (r : regex) (f : result → jsstring)
    (s : jsstring) :
  has sub r → includes s sub = false → replace r f s = s.
Proof.
  intros Hhas Hs. unfold replace. apply replace_from_unmatched.
  intros pre suf ->. rewrite app_nil_r.
  destruct (match_here r (rev pre) suf) as [st|] eqn:E; [| done].
  apply match_here_spans in E as (mid & Hsp & -> & _).
  apply Hhas in Hsp. by rewrite (includes_mid pre mid _ sub Hsp) in Hs.
Qed.

Lemma starts_has (sub : jsstring) (r : regex) : starts sub r → has sub r.
Proof. intros H mid Hsp. destruct (H mid Hsp) as [rest ->]. apply includes_prefix. Qed.

Lemma starts_lit1 (c : N) : starts [c] (lit1 c).
Proof.
  intros mid (x & -> & Hx). apply N.eqb_eq in Hx as ->. by exists [].
Qed.

Lemma starts_seq (sub : jsstring) (r1 r2 : regex) :
  starts sub r1 → starts sub (Seq r1 r2).
Proof.
  intros H mid (a & b & -> & Ha & _). destruct (H a Ha) as [rest ->].
  exists (rest ++ b). by rewrite app_assoc.
Qed.

Lemma starts_after (c : N) (sub : jsstring) (r2 : regex) :
  starts sub r2 → starts (c :: sub) (Seq (lit1 c) r2).
Proof.
  intros H mid (a & b & -> & Ha & Hb).
  destruct (starts_lit1 c a Ha) as [rest Hrest].
  destruct Ha as (x & -> & _). injection Hrest as -> <-.
  destruct (H b Hb) as [rest ->]. by exists rest.
Qed.

Lemma starts_rep (sub : jsstring) (lo : nat) (hi : option nat) (r : regex) :
  (1 ≤ lo)%nat → starts sub r → starts sub (Rep lo hi r).
Proof.
  intros Hlo H mid (pieces & -> & Hall & Hlen).
  destruct Hall as [|a pieces Ha _]; [simpl in Hlen; lia |].
  destruct (H a Ha) as [rest ->]. exists (rest ++ concat pieces).
  cbn [concat]. by rewrite app_assoc.
Qed.

Lemma has_seq_l (sub : jsstring) (r1 r2 : regex) : has sub r1 → has sub (Seq r1 r2).
Proof. intros H mid (a & b & -> & Ha & _). by apply includes_app_l, H. Qed.

Lemma has_seq_r (sub : jsstring) (r1 r2 : regex) : has sub r2 → has sub (Seq r1 r2).
Proof. intros H mid (a & b & -> & _ & Hb). by apply includes_app_r, H. Qed.

Lemma has_alt (sub : jsstring) (r1 r2 : regex) :
  has sub r1 → has sub r2 → has sub (Alt r1 r2).
Proof. intros H1 H2 mid [H | H]; eauto. Qed.

Lemma has_grp (sub : jsstring) (i : nat) (r : regex) : has sub r → has sub (Grp i r).
Proof. intros H mid Hsp. by apply H. Qed.

(** Newlines only, at least [n] of them. *)
Lemma spans_newlines (n : nat) (hi : option nat) (mid : jsstring) :
  spans (Rep n hi nl) mid →
  ∃ k, (n ≤ k)%nat ∧ mid = replicate k NL.
Proof.
  intros (pieces & -> & Hall & Hlen). exists (length pieces). split; [done |].
  clear Hlen. induction Hall as [|a pieces Ha _ IH]; [done |].
  destruct (starts_lit1 NL a Ha) as [rest Hrest].
  destruct Ha as (x & -> & _). injection Hrest as -> <-.
  cbn [concat length replicate app]. by rewrite IH.
Qed.

End MatcherFacts.

(** ** More on the enhancer *)

Section EnhancerFacts.

Import Markdown Language.

Lemma has_tablePattern : has [PIPE] tablePattern.
Proof. apply starts_has, starts_seq, starts_lit1. Qed.

Lemma has_dividerPattern : has [PIPE] dividerPattern.
Proof. apply starts_has, starts_seq, starts_lit1. Qed.

Lemma has_bestSuitedForRegex : has [HASH] bestSuitedForRegex.
Proof. apply starts_has, starts_seq, starts_lit1. Qed.

Lemma has_pipes : has [PIPE] (atleast 2 pipe).
Proof. apply starts_has, starts_rep; [lia | apply starts_lit1]. Qed.

Lemma has_edge_pipes :
  has [PIPE] (Alt (seq [Bol; pipe; star ws]) (seq [star ws; pipe; Eol])).
Proof.
  apply has_alt.
  - apply has_seq_r, starts_has, starts_seq, starts_lit1.
  - apply has_seq_r, starts_has, starts_seq, starts_lit1.
Qed.

Lemma has_heading3 : has [HASH] (seq [lit (js "###"); Grp 1 (plus notnl)]).
Proof. apply starts_has, starts_seq, starts_seq, starts_lit1. Qed.

Lemma has_heading2 : has [HASH] (seq [lit (js "##"); Grp 1 (plus notnl)]).
Proof. apply starts_has, starts_seq, starts_seq, starts_lit1. Qed.

Lemma has_heading1 :
  has [HASH]
    (seq [ NotBehind (N.eqb HASH); lit1 HASH;
           Grp 1 (plus (Chr (λ x, negb (x =? NL)%N && negb (x =? HASH)%N))) ]).
Proof. apply has_seq_r, starts_has, starts_seq, starts_lit1. Qed.

Lemma has_list_item :
  has [NL; chr "-"] (seq [nl; lit1 (chr "-"); Grp 1 (plus notnl)]).
Proof. apply starts_has, starts_after, starts_seq, starts_lit1. Qed.

Lemma has_heading_break :
  has [HASH]
    (seq [ Grp 1 notnl;
           Grp 2 (seq [nl; Rep 1 (Some 3%nat) (lit1 HASH); lit1 (chr " ")]) ]).
Proof.
  apply has_seq_r, has_grp, has_seq_r, has_seq_l, starts_has, starts_rep;
    [lia | apply starts_lit1].
Qed.

Lemma has_list_break : has [NL; chr "-"] (seq [atleast 2 nl; lit1 (chr "-")]).
Proof.
  intros mid (a & b & -> & Ha & Hb).
  apply spans_newlines in Ha as (k & Hk & ->).
  destruct (starts_lit1 _ b Hb) as [rest Hrest].
  destruct Hb as (x & -> & _). injection Hrest as -> <-.
  destruct k as [|k]; [lia |].
  rewrite replicate_S_end, <- app_assoc.
  apply includes_app_r. apply (includes_prefix [NL; chr "-"] []).
Qed.

Lemma has_blank_lines : has [NL; NL; NL] (atleast 3 nl).
Proof.
  intros mid (k & Hk & ->)%spans_newlines.
  do 3 (destruct k as [|k]; [lia |]).
  apply (includes_prefix [NL; NL; NL]).
Qed.

(** The steps after the table rows leave alone a text without pipe, hash,
    hyphen at the start of a line after the first, or three newlines in a
    row. *)
Lemma finish_plain (s : jsstring) :
  includes s [PIPE] = false →
  includes s [HASH] = false →
  includes s [NL; chr "-"] = false →
  includes s [NL; NL; NL] = false →
  finish s = s.
Proof.
  intros Hp Hh Hl Hn. unfold finish.
  rewrite (replace_without _ _ _ _ has_dividerPattern) by done.
  rewrite (replace_without _ _ _ _ has_bestSuitedForRegex) by done.
  rewrite (replace_without _ _ _ _ has_pipes) by done.
  rewrite (replace_without _ _ _ _ has_edge_pipes) by done.
  rewrite (replace_without _ _ _ _ has_heading3) by done.
  rewrite (replace_without _ _ _ _ has_heading2) by done.
  rewrite (replace_without _ _ _ _ has_heading1) by done.
  rewrite (replace_without _ _ _ _ has_list_item) by done.
  rewrite (replace_without _ _ _ _ has_heading_break) by done.
  rewrite (replace_without _ _ _ _ has_list_break) by done.
  by rewrite (replace_without _ _ _ _ has_blank_lines) by done.
Qed.

Lemma enhanceMarkdown_finish (content : jsstring) :
  enhanceMarkdown content = finish (replace tablePattern tableRow content).
Proof. reflexivity. Qed.

(** X15. Plain prose passes through untouched: a text with no pipe, no
    hash, no hyphen right after a newline and no three newlines in a row
    is returned as it is, so a second pass changes nothing either. *)
Theorem plain_text_is_unchanged (s : jsstring) :
  includes s (js "|") = false →
  includes s (js "#") = false →
  includes s ([NL] ++ js "-") = false →
  includes s [NL; NL; NL] = false →
  enhanceMarkdown s = s
  ∧ enhanceMarkdown (enhanceMarkdown s) = enhanceMarkdown s.
Proof.
  intros Hp Hh Hl Hn.
  assert (enhanceMarkdown s = s) as E.
  { rewrite enhanceMarkdown_finish.
    rewrite (replace_without _ _ _ _ has_tablePattern) by done.
    by apply finish_plain. }
  by rewrite !E.
Qed.

Lemma plain_text_is_unchanged_witness :
  let s := js "The SBI Cashback card pays 5% on online spends - with no joining fee."
           ++ [NL; NL] ++ js "Apply on the bank's site." in
  enhanceMarkdown s = s
  ∧ enhanceMarkdown (enhanceMarkdown s) = enhanceMarkdown s.
Proof.
  intros s.
  apply (plain_text_is_unchanged s); vm_compute; reflexivity.
Defined.

(** *** The last step: runs of newlines *)

Lemma lead_le (s : jsstring) : (lead s ≤ length s)%nat.
Proof.
  induction s as [|c s IH]; cbn [lead length]; [lia |].
  destruct (NL =? c)%N; lia.
Qed.

Lemma lead_drop (s : jsstring) : lead (drop (lead s) s) = O.
Proof.
  induction s as [|c s IH]; [done |]. cbn [lead].
  destruct (NL =? c)%N eqn:E; [exact IH |]. cbn [drop lead]. by rewrite E.
Qed.

Lemma startsWith_lead (k : nat) (out : jsstring) :
  startsWith out (replicate k NL) = bool_decide (k ≤ lead out)%nat.
Proof.
  revert out. induction k as [|k IH]; intros out.
  - cbn. symmetry. apply bool_decide_eq_true. lia.
  - destruct out as [|c out]; cbn [replicate startsWith lead].
    + symmetry. apply bool_decide_eq_false. lia.
    + destruct (NL =? c)%N; cbn [andb].
      * rewrite IH. apply bool_decide_ext. lia.
      * symmetry. apply bool_decide_eq_false. lia.
Qed.

Lemma clear_nothing (st : mstate) : caps st = [] → clear [] st = st.
Proof. destruct st as [b a c]. cbn. by intros ->. Qed.

(** The loop of "three or more newlines" takes every newline ahead. *)
Lemma iterate_newlines (fuel : nat) : ∀ n st,
  caps st = [] →
  (lead (ahead st) < fuel)%nat →
  iterate (Chr (N.eqb NL)) 3 None Some fuel n st =
  if bool_decide (3 ≤ n + lead (ahead st))%nat
  then Some (MState (rev (take (lead (ahead st)) (ahead st)) ++ behind st)
                    (drop (lead (ahead st)) (ahead st)) [])
  else None.
Proof.
  induction fuel as [|fuel IH]; intros n st Hcaps Hfuel; [lia |].
  cbn [iterate below groups].
  rewrite (clear_nothing st Hcaps). cbn [rmatch].
  destruct st as [behind0 ahead0 caps0]. cbn [ahead behind caps] in *. subst caps0.
  destruct ahead0 as [|c rest]; cbn [lead] in *.
  - cbn [take drop rev app]. rewrite Nat.add_0_r. by repeat case_bool_decide.
  - destruct (NL =? c)%N eqn:E.
    + rewrite (bool_decide_eq_false_2 (pos _ = pos _))
        by (unfold pos; cbn [behind length]; lia).
      rewrite andb_false_r.
      rewrite IH by (cbn [caps ahead]; (done || lia)).
      cbn [ahead behind].
      replace (n + S (lead rest))%nat with (S n + lead rest)%nat by lia.
      case_bool_decide as H3.
      * cbn [take drop rev]. by rewrite <- app_assoc.
      * rewrite bool_decide_eq_false_2 by lia. done.
    + cbn [take drop rev app]. rewrite Nat.add_0_r. by repeat case_bool_decide.
Qed.

Lemma match_here_newlines (before after : jsstring) :
  match_here (atleast 3 nl) before after =
  if bool_decide (3 ≤ lead after)%nat
  then Some (MState (rev (take (lead after) after) ++ before)
                    (drop (lead after) after) [])
  else None.
Proof.
  unfold match_here, atleast, nl, lit1. rewrite rmatch_Rep.
  rewrite iterate_newlines; [done | done |].
  cbn [ahead]. pose proof (lead_le after). lia.
Qed.

(** Skipping the rest of a match. *)
Lemma replace_from_skip (r : regex) (f : result → jsstring) (n : nat) :
  ∀ after before,
    (n ≤ length after)%nat →
    replace_from r f before after n
    = replace_from r f (rev (take n after) ++ before) (drop n after) O.
Proof.
  induction n as [|n IH]; intros after before Hn.
  - by destruct after.
  - destruct after as [|c after]; [simpl in Hn; lia |].
    cbn [replace_from take drop rev]. rewrite IH by (simpl in Hn; lia).
    by rewrite <- app_assoc.
Qed.

(** The output of the last step, read from any position: no three
    newlines in a row, and as many leading newlines as the input has, two
    at most. *)
Lemma squeeze_newlines (len : nat) : ∀ after before,
  (length after ≤ len)%nat →
  includes (replace_from (atleast 3 nl) (λ _, [NL; NL]) before after O)
           (replicate 3 NL) = false
  ∧ lead (replace_from (atleast 3 nl) (λ _, [NL; NL]) before after O)
    = (lead after `min` 2)%nat.
Proof.
  induction len as [|len IH]; intros after before Hlen.
  - destruct after; [| simpl in Hlen; lia]. cbn [replace_from].
    by rewrite match_here_newlines.
  - destruct after as [|c after].
    { cbn [replace_from]. by rewrite match_here_newlines. }
    cbn [replace_from]. rewrite match_here_newlines.
    case_bool_decide as H3.
    + (* a run of three or more: two newlines, then the text after it *)
      cbn [lead] in H3 |- *. destruct (NL =? c)%N eqn:E; [| lia].
      unfold pos. cbn [behind].
      rewrite length_app, length_rev, length_take.
      pose proof (lead_le after) as Hle.
      replace (S (lead after) `min` length (c :: after) + length before
               - length before)%nat with (S (lead after))
        by (cbn [length]; lia).
      rewrite replace_from_skip by done.
      destruct (IH (drop (lead after) after)
                  (rev (take (lead after) after) ++ c :: before))
        as [Hno Hlead].
      { rewrite length_drop. simpl in Hlen. lia. }
      rewrite lead_drop in Hlead.
      set (out := replace_from _ _ _ (drop (lead after) after) O) in *.
      cbn [app]. split.
      * cbn [includes]. rewrite Hno.
        change (startsWith (NL :: NL :: out) (replicate 3 NL))
          with ((NL =? NL)%N && ((NL =? NL)%N && startsWith out (replicate 1 NL))).
        change (startsWith (NL :: out) (replicate 3 NL))
          with ((NL =? NL)%N && startsWith out (replicate 2 NL)).
        rewrite !startsWith_lead, Hlead.
        rewrite !bool_decide_eq_false_2 by lia. done.
      * cbn [lead]. rewrite N.eqb_refl, Hlead. lia.
    + (* no run of three here: the character stays *)
      destruct (IH after (c :: before)) as [Hno Hlead]; [simpl in Hlen; lia |].
      set (out := replace_from _ _ (c :: before) after O) in *.
      cbn [lead] in H3 |- *. split.
      * cbn [includes]. rewrite Hno, orb_false_r.
        change (startsWith (c :: out) (replicate 3 NL))
          with ((NL =? c)%N && startsWith out (replicate 2 NL)).
        destruct (NL =? c)%N; [| done]. cbn [andb].
        rewrite startsWith_lead, Hlead. apply bool_decide_eq_false. lia.
      * destruct (NL =? c)%N; [| done]. rewrite Hlead. lia.
Qed.

(** X16. Whatever the input, the enhanced text never has three newlines
    in a row: every run of three or more has become a single blank line. *)
Theorem output_has_no_triple_newline (content : jsstring) :
  includes (enhanceMarkdown content) [NL; NL; NL] = false.
Proof.
  rewrite enhanceMarkdown_finish. unfold finish. cbv zeta.
  unfold replace at 1.
  match goal with
  | |- includes (replace_from _ _ [] ?s O) _ = false =>
    exact (proj1 (squeeze_newlines (length s) s [] (le_n _)))
  end.
Qed.

End EnhancerFacts.

(** ** The markdown enhancer on tables *)

Section TableFacts.

Import Markdown Language Tables.

Lemma clear_none (st : mstate) : clear [] st = st.
Proof.
  destruct st as [b a c]. unfold clear. cbn [behind ahead caps]. f_equal.
  induction c as [|x c IH]; [done |].
  rewrite filter_cons_True by apply not_elem_of_nil. by rewrite IH.
Qed.

Lemma iterate_greedy (p : N → bool) (lo : nat) (k : mstate → option mstate)
    (res : mstate) (rest : jsstring) (cs : list (nat * jsstring)) :
  stops p rest = true →
  ∀ (taken : jsstring) (fuel n : nat) (b : jsstring),
    forallb p taken = true →
    (length taken < fuel)%nat →
    (lo ≤ n + length taken)%nat →
    k (MState (rev taken ++ b) rest cs) = Some res →
    iterate (Chr p) lo None k fuel n (MState b (taken ++ rest) cs) = Some res.
Proof.
  intros Hstop. induction taken as [|c taken IH]; intros fuel n b Hall Hfuel Hlo Hk.
  - destruct fuel as [|fuel]; [cbn in Hfuel; lia |].
    cbn [iterate below groups]. rewrite clear_none. cbn [rmatch ahead app].
    cbn [length] in Hlo. rewrite (bool_decide_eq_true_2 (lo ≤ n)%nat) by lia.
    destruct rest as [|c rest]; [exact Hk |].
    cbn [stops] in Hstop. apply negb_true_iff in Hstop. rewrite Hstop. exact Hk.
  - destruct fuel as [|fuel]; [cbn in Hfuel; lia |].
    cbn [forallb] in Hall. apply andb_true_iff in Hall as [Hc Hall].
    cbn [iterate below groups]. rewrite clear_none.
    cbn [rmatch ahead behind caps app]. rewrite Hc.
    rewrite (bool_decide_eq_false_2 (pos _ = pos _))
      by (unfold pos; cbn [behind length]; lia).
    rewrite andb_false_r.
    cbn [length] in Hfuel, Hlo.
    rewrite (IH fuel (S n) (c :: b) Hall); [done | lia | lia |].
    cbn [rev] in Hk. by rewrite <- app_assoc in Hk.
Qed.

Lemma rep_greedy (p : N → bool) (lo : nat) (k : mstate → option mstate)
    (res : mstate) (taken rest b : jsstring) (cs : list (nat * jsstring)) :
  forallb p taken = true →
  stops p rest = true →
  (lo ≤ length taken)%nat →
  k (MState (rev taken ++ b) rest cs) = Some res →
  rmatch (Rep lo None (Chr p)) (MState b (taken ++ rest) cs) k = Some res.
Proof.
  intros Hall Hstop Hlo Hk. rewrite rmatch_Rep.
  apply iterate_greedy; try done; cbn [ahead]; rewrite ?length_app; lia.
Qed.

(** The leading white space of a text and what follows it. *)
Lemma trimStart_split (s : jsstring) :
  ∃ w, s = w ++ trimStart s ∧ forallb is_space w = true
       ∧ stops is_space (trimStart s) = true.
Proof.
  induction s as [|c s (w & Hs & Hw & Hstop)]; [by exists [] |].
  cbn [trimStart]. destruct (is_space c) eqn:E.
  - exists (c :: w). cbn [app forallb]. rewrite E, Hw. by rewrite <- Hs.
  - exists []. cbn [app forallb stops]. by rewrite E.
Qed.

Lemma unpiped_trimStart (s : jsstring) : unpiped s = true → unpiped (trimStart s) = true.
Proof.
  unfold unpiped. induction s as [|c s IH]; [done |]. cbn [forallb trimStart].
  intros [Hc Hs]%andb_true_iff. destruct (is_space c); [by apply IH |].
  cbn [forallb]. by rewrite Hc, Hs.
Qed.

Lemma stops_app (p : N → bool) (s t : jsstring) :
  stops p s = true → stops p t = true → stops p (s ++ t) = true.
Proof. by destruct s. Qed.

Lemma passed_advance (b taken rest rest' : jsstring) (cs cs' : list (nat * jsstring)) :
  passed (MState b rest cs) (MState (rev taken ++ b) rest' cs') = taken.
Proof.
  unfold passed, pos. cbn [behind]. rewrite length_app, length_rev.
  replace (length taken + length b - length b)%nat with (length taken) by lia.
  rewrite take_app_length'; [apply rev_involutive | by rewrite length_rev].
Qed.

(** One cell of a row and the pipe that closes it. *)
Lemma cell_matched (i lo : nat) (K : mstate → option mstate) (res : mstate)
    (s t b : jsstring) (cs : list (nat * jsstring)) :
  unpiped s = true →
  (lo ≤ length (trimStart s))%nat →
  K (MState (PIPE :: rev s ++ b) t ((i, trimStart s) :: cs)) = Some res →
  rmatch (star ws) (MState b (s ++ PIPE :: t) cs)
    (λ st1, rmatch (Grp i (Rep lo None (not1 PIPE))) st1
       (λ st2, rmatch (star ws) st2 (λ st3, rmatch pipe st3 K)))
  = Some res.
Proof.
  intros Hs Hlo HK.
  destruct (trimStart_split s) as (w & Hsplit & Hw & Hstop).
  pose proof (unpiped_trimStart s Hs) as Hc.
  set (c := trimStart s) in *.
  rewrite Hsplit at 1. rewrite <- app_assoc.
  apply rep_greedy; [done | | lia |].
  { apply stops_app; [done |]. reflexivity. }
  cbn [rmatch].
  apply rep_greedy; [done | cbn [stops]; by rewrite N.eqb_refl | done |].
  rewrite passed_advance. cbn [behind ahead caps].
  apply (rep_greedy is_space 0 _ res [] (PIPE :: t)); [done | reflexivity | cbn; lia |].
  cbn [rev app]. unfold pipe, lit1. cbn [rmatch ahead behind caps].
  rewrite N.eqb_refl.
  rewrite Hsplit, rev_app_distr, <- app_assoc in HK. exact HK.
Qed.

Lemma cell_then (i lo : nat) (R : regex) (k : mstate → option mstate)
    (res : mstate) (s t b : jsstring) (cs : list (nat * jsstring)) :
  unpiped s = true →
  (lo ≤ length (trimStart s))%nat →
  rmatch R (MState (PIPE :: rev s ++ b) t ((i, trimStart s) :: cs)) k = Some res →
  rmatch (Seq (star ws) (Seq (Grp i (Rep lo None (not1 PIPE)))
                            (Seq (star ws) (Seq pipe R))))
         (MState b (s ++ PIPE :: t) cs) k
  = Some res.
Proof. intros Hs Hlo HK. by apply (cell_matched i lo (λ st, rmatch R st k)). Qed.

Lemma cell_last (i lo : nat) (k : mstate → option mstate)
    (res : mstate) (s t b : jsstring) (cs : list (nat * jsstring)) :
  unpiped s = true →
  (lo ≤ length (trimStart s))%nat →
  k (MState (PIPE :: rev s ++ b) t ((i, trimStart s) :: cs)) = Some res →
  rmatch (Seq (star ws) (Seq (Grp i (Rep lo None (not1 PIPE)))
                            (Seq (star ws) pipe)))
         (MState b (s ++ PIPE :: t) cs) k
  = Some res.
Proof. intros Hs Hlo HK. by apply (cell_matched i lo k). Qed.

Lemma pipe_then (R : regex) (k : mstate → option mstate)
    (b t : jsstring) (cs : list (nat * jsstring)) :
  rmatch (Seq pipe R) (MState b (PIPE :: t) cs) k
  = rmatch R (MState (PIPE :: b) t cs) k.
Proof.
  cbn [rmatch]. unfold pipe, lit1. cbn [rmatch ahead behind caps].
  by rewrite N.eqb_refl.
Qed.

Lemma plain_unpiped (s : jsstring) : plain s = true → unpiped s = true.
Proof.
  unfold plain, unpiped. induction s as [|c s IH]; [done |]. cbn [forallb].
  intros [Hc Hs]%andb_true_iff. rewrite IH by done.
  by destruct (c =? PIPE)%N.
Qed.

Lemma trim_truthy (s : jsstring) :
  truthy (trim s) = true → (1 ≤ length (trimStart s))%nat.
Proof.
  unfold trim, trimEnd. destruct (trimStart s) as [|c t]; [done |].
  cbn [length]. lia.
Qed.

(** At the start of a row the pattern matches the row and nothing more,
    and captures the three cells without their leading white space. *)
Lemma tablePattern_row (a b c before rest : jsstring) :
  well_formed (a, b, c) = true →
  match_here tablePattern before (row_text (a, b, c) ++ rest)
  = Some (MState (rev (row_text (a, b, c)) ++ before) rest
                 [(3%nat, trimStart c); (2%nat, trimStart b); (1%nat, trimStart a)]).
Proof.
  unfold well_formed.
  intros [[[[Ha Hb]%andb_true_iff Hc]%andb_true_iff Hta]%andb_true_iff Htb]%andb_true_iff.
  unfold match_here, tablePattern, row_text. cbn [seq app].
  repeat (rewrite <- app_assoc; cbn [app]).
  rewrite pipe_then.
  apply cell_then; [by apply plain_unpiped | by apply trim_truthy |].
  apply cell_then; [by apply plain_unpiped | by apply trim_truthy |].
  apply cell_last; [by apply plain_unpiped | lia |].
  do 2 f_equal.
  repeat (progress cbn [rev app] || rewrite rev_app_distr || rewrite <- app_assoc).
  reflexivity.
Qed.

Lemma no_row_here (before rest : jsstring) :
  stops (N.eqb PIPE) rest = true →
  match_here tablePattern before rest = None.
Proof.
  intros Hstop. unfold match_here, tablePattern. cbn [seq rmatch].
  unfold pipe at 1, lit1. cbn [rmatch ahead].
  destruct rest as [|c rest]; [done |]. cbn [stops] in Hstop.
  apply negb_true_iff in Hstop. by rewrite Hstop.
Qed.

Lemma trimStart_idem (s : jsstring) : trimStart (trimStart s) = trimStart s.
Proof.
  induction s as [|c s IH]; [done |]. cbn [trimStart].
  destruct (is_space c) eqn:E; [done |]. cbn [trimStart]. by rewrite E.
Qed.

Lemma trim_trimStart (s : jsstring) : trim (trimStart s) = trim s.
Proof. unfold trim. by rewrite trimStart_idem. Qed.

Lemma includes_trimStart (s : jsstring) :
  includes (trimStart s) (js "---") = includes s (js "---").
Proof.
  change (js "---") with [45; 45; 45]%N.
  induction s as [|c s IH]; [done |]. cbn [trimStart].
  destruct (is_space c) eqn:E; [| done].
  rewrite IH. cbn [includes startsWith].
  destruct (45 =? c)%N eqn:E45; [| done].
  apply N.eqb_eq in E45. subst c. discriminate E.
Qed.

(** What the replacement function makes of a matched row. *)
Lemma tableRow_row (a b c before behind0 rest : jsstring) :
  tableRow (result_of before
              (MState behind0 rest
                 [(3%nat, trimStart c); (2%nat, trimStart b); (1%nat, trimStart a)]))
  = row_line (a, b, c).
Proof.
  unfold tableRow, result_of, row_line, divider, capture.
  cbn [group caps lookup_cap].
  repeat match goal with
  | |- context [bool_decide (?x = ?y :> nat)] =>
    let v := eval vm_compute in (bool_decide (x = y)) in
    change (bool_decide (x = y)) with v
  end.
  cbn [default id]. unfold id.
  by rewrite !includes_trimStart, !trim_trimStart.
Qed.

(** Rewriting one row, and going on after it. *)
Lemma replace_row (a b c before rest : jsstring) :
  well_formed (a, b, c) = true →
  replace_from tablePattern tableRow before (row_text (a, b, c) ++ rest) O
  = row_line (a, b, c)
    ++ replace_from tablePattern tableRow
         (rev (row_text (a, b, c)) ++ before) rest O.
Proof.
  intros Hwf. pose proof (tablePattern_row a b c before rest Hwf) as Hm.
  set (row := row_text (a, b, c)) in *.
  assert (∃ body, row = PIPE :: body) as [body Hrow] by (by eexists).
  rewrite Hrow in *. cbn [app replace_from]. cbn [app] in Hm. rewrite Hm.
  rewrite tableRow_row. f_equal.
  unfold pos. cbn [behind rev length].
  rewrite !length_app, length_rev. cbn [length].
  replace (length body + 1 + length before - length before)%nat
    with (S (length body)) by lia.
  rewrite replace_from_skip by (rewrite length_app; lia).
  rewrite take_app_length, drop_app_length.
  by rewrite <- app_assoc.
Qed.

Lemma table_step (rows : list Row) : ∀ before,
  forallb well_formed rows = true →
  replace_from tablePattern tableRow before (join [NL] (row_text <$> rows)) O
  = join [NL] (row_line <$> rows).
Proof.
  induction rows as [|[[a b] c] rows IH]; intros before Hall.
  - cbn [fmap list_fmap join replace_from]. by rewrite no_row_here.
  - cbn [forallb] in Hall. apply andb_true_iff in Hall as [Hwf Hall].
    destruct rows as [|r rows].
    + cbn [fmap list_fmap join].
      rewrite <- (app_nil_r (row_text (a, b, c))).
      rewrite replace_row by done. cbn [replace_from].
      rewrite no_row_here by done. by rewrite app_nil_r.
    + change (join [NL] (row_text <$> (a, b, c) :: r :: rows))
        with (row_text (a, b, c) ++ [NL] ++ join [NL] (row_text <$> r :: rows)).
      change (join [NL] (row_line <$> (a, b, c) :: r :: rows))
        with (row_line (a, b, c) ++ [NL] ++ join [NL] (row_line <$> r :: rows)).
      rewrite replace_row by done. f_equal.
      cbn [app replace_from]. rewrite no_row_here by done.
      f_equal. by apply IH.
Qed.

Lemma lacks_app (c : N) (s t : jsstring) :
  lacks c (s ++ t) = lacks c s && lacks c t.
Proof. apply forallb_app. Qed.

Lemma lacks_skip (c : N) (p s rest : jsstring) :
  lacks c s = true → includes (s ++ rest) (c :: p) = includes rest (c :: p).
Proof.
  induction s as [|x s IH]; [done |]. cbn [lacks forallb].
  intros [Hx Hs]%andb_true_iff. cbn [app includes startsWith].
  rewrite N.eqb_sym. apply negb_true_iff in Hx. rewrite Hx. by apply IH.
Qed.

Lemma lacks_includes (c : N) (p s : jsstring) :
  lacks c s = true → includes s (c :: p) = false.
Proof.
  intros H. rewrite <- (app_nil_r s). by rewrite lacks_skip.
Qed.

Lemma In_trimStart (x : N) (s : jsstring) : In x (trimStart s) → In x s.
Proof.
  induction s as [|c s IH]; [done |]. cbn [trimStart].
  destruct (is_space c); [| done]. intros H. right. by apply IH.
Qed.

Lemma lacks_trim (c : N) (s : jsstring) :
  lacks c s = true → lacks c (trim s) = true.
Proof.
  unfold lacks. rewrite !forallb_forall. intros H x Hx. apply H.
  unfold trim, trimEnd in Hx.
  apply in_rev, In_trimStart, in_rev in Hx. by apply In_trimStart.
Qed.

Lemma plain_lacks (s : jsstring) :
  plain s = true →
  lacks PIPE s = true ∧ lacks HASH s = true ∧ lacks NL s = true.
Proof.
  unfold plain, lacks. induction s as [|x s IH]; [done |]. cbn [forallb].
  intros [Hx Hs]%andb_true_iff. destruct (IH Hs) as (-> & -> & ->).
  apply negb_true_iff in Hx. apply orb_false_iff in Hx as [Hx ->].
  apply orb_false_iff in Hx as [-> ->]. done.
Qed.

Lemma line_lacks (r : Row) (c : N) :
  well_formed r = true →
  c = PIPE ∨ c = HASH ∨ c = NL →
  lacks c (row_line r) = true.
Proof.
  destruct r as [[a b] d]. unfold well_formed, row_line.
  intros [[[[Ha Hb]%andb_true_iff Hd]%andb_true_iff _]%andb_true_iff _]%andb_true_iff Hc.
  destruct (divider (a, b, d)); [done |].
  apply plain_lacks in Ha as (Ha1 & Ha2 & Ha3).
  apply plain_lacks in Hb as (Hb1 & Hb2 & Hb3).
  apply plain_lacks in Hd as (Hd1 & Hd2 & Hd3).
  assert (lacks c a = true ∧ lacks c b = true ∧ lacks c d = true) as (Hca & Hcb & Hcd)
    by (by destruct Hc as [-> | [-> | ->]]).
  assert (lacks c (js "**") = true ∧ lacks c (js "**: ") = true
          ∧ lacks c (js " - _") = true ∧ lacks c (js "_") = true) as (H1 & H2 & H3 & H4)
    by (by destruct Hc as [-> | [-> | ->]]).
  rewrite !lacks_app, H1, H2, !lacks_trim by done. cbn [andb].
  destruct (truthy (trim d)); [| done].
  by rewrite !lacks_app, H3, H4, lacks_trim.
Qed.

Lemma line_head (r : Row) :
  row_line r = [] ∧ divider r = true
  ∨ (∃ t, row_line r = 42%N :: t) ∧ divider r = false.
Proof.
  destruct r as [[a b] d]. unfold row_line.
  destruct (divider (a, b, d)); [by left |]. right. split; [| done].
  change (js "**") with [42; 42]%N. by eexists.
Qed.

Lemma lines_lack (rows : list Row) (c : N) :
  forallb well_formed rows = true →
  c = PIPE ∨ c = HASH →
  lacks c (join [NL] (row_line <$> rows)) = true.
Proof.
  intros Hall Hc. induction rows as [|r rows IH]; [done |].
  cbn [forallb] in Hall. apply andb_true_iff in Hall as [Hwf Hall].
  assert (lacks c (row_line r) = true) as Hr by (apply line_lacks; tauto).
  destruct rows as [|r' rows]; [done |].
  change (join [NL] (row_line <$> r :: r' :: rows))
    with (row_line r ++ [NL] ++ join [NL] (row_line <$> r' :: rows)).
  rewrite !lacks_app, Hr, IH by done.
  by destruct Hc as [-> | ->].
Qed.

Lemma lines_newlines (rows : list Row) :
  forallb well_formed rows = true →
  spaced rows = true →
  let out := join [NL] (row_line <$> rows) in
  includes out [NL; 45%N] = false
  ∧ includes out [NL; NL; NL] = false
  ∧ startsWith out [45%N] = false
  ∧ (lead out ≤ 1)%nat
  ∧ match rows with
    | r :: _ => divider r = false → lead out = O
    | [] => True
    end.
Proof.
  induction rows as [|r rows IH]; intros Hall Hsp.
  { cbv zeta. cbn. repeat split; (done || lia). }
  cbn [forallb] in Hall. apply andb_true_iff in Hall as [Hwf Hall].
  assert (lacks NL (row_line r) = true) as Hr by (apply line_lacks; tauto).
  destruct rows as [|r' rows].
  - cbn [fmap list_fmap join]. cbv zeta.
    rewrite !lacks_includes by done.
    destruct (line_head r) as [[-> Hd] | [[t ->] Hd]].
    + change (lead []) with O. repeat split; (done || lia).
    + change (lead (42%N :: t)) with O.
      change (startsWith (42%N :: t) [45%N]) with false.
      repeat split; (done || lia).
  - cbn [spaced] in Hsp. apply andb_true_iff in Hsp as [Hdd Hsp].
    destruct (IH Hall Hsp) as (Ha & Hb & Hc & Hd & He). clear IH.
    cbv zeta.
    change (join [NL] (row_line <$> r :: r' :: rows))
      with (row_line r ++ [NL] ++ join [NL] (row_line <$> r' :: rows)).
    set (out' := join [NL] (row_line <$> r' :: rows)) in *.
    rewrite !(lacks_skip NL _ (row_line r)) by done. cbn [app].
    assert (includes (NL :: out') [NL; 45%N] = false) as H1.
    { cbn [includes]. rewrite Ha, orb_false_r.
      change (startsWith (NL :: out') [NL; 45%N])
        with ((NL =? NL)%N && startsWith out' [45%N]).
      by rewrite Hc. }
    assert (includes (NL :: out') [NL; NL; NL] = false) as H2.
    { cbn [includes]. rewrite Hb, orb_false_r.
      change (startsWith (NL :: out') [NL; NL; NL])
        with ((NL =? NL)%N && startsWith out' (replicate 2 NL)).
      rewrite startsWith_lead. rewrite bool_decide_eq_false_2 by lia. done. }
    rewrite H1, H2.
    destruct (line_head r) as [[-> Hdr] | [[t ->] Hdr]].
    + rewrite Hdr in Hdd. cbn [andb] in Hdd. apply negb_true_iff in Hdd.
      specialize (He Hdd). cbn [app].
      change (lead (NL :: out')) with (S (lead out')). rewrite He.
      change (startsWith (NL :: out') [45%N]) with false.
      repeat split; try done; try lia. by rewrite Hdr.
    + cbn [app].
      change (lead (42%N :: t ++ NL :: out')) with O.
      change (startsWith (42%N :: t ++ NL :: out') [45%N]) with false.
      repeat split; (done || lia).
Qed.

(** X22. A table of three-column rows, one per line, becomes one line per
    row: the first cell in bold, the second after a colon, the third (when
    it is not blank) in italics after a hyphen, each cell without the
    white space around it; a divider row becomes an empty line. Cells hold
    no pipe, hash or newline, the first two are not blank, and no two
    dividers follow each other. *)
Theorem table_becomes_lines (rows : list Row) :
  forallb well_formed rows = true →
  spaced rows = true →
  enhanceMarkdown (join [NL] (row_text <$> rows))
  = join [NL] (row_line <$> rows).
Proof.
  intros Hall Hsp. rewrite enhanceMarkdown_finish. unfold replace.
  rewrite table_step by done.
  destruct (lines_newlines rows Hall Hsp) as (Ha & Hb & _).
  apply finish_plain; [| | exact Ha | exact Hb].
  - apply lacks_includes, lines_lack; tauto.
  - apply lacks_includes, lines_lack; tauto.
Qed.

Lemma table_becomes_lines_witness :
  enhanceMarkdown
    (js "| Card | Annual fee | Best for |" ++ [NL]
     ++ js "|------|-----|-----|" ++ [NL]
     ++ js "| SBI Cashback | ₹999 | 5% back online |" ++ [NL]
     ++ js "| Axis Ace | ₹499 | |")
  = js "**Card**: Annual fee - _Best for_" ++ [NL; NL]
    ++ js "**SBI Cashback**: ₹999 - _5% back online_" ++ [NL]
    ++ js "**Axis Ace**: ₹499".
Proof.
  exact (table_becomes_lines
           [ (js " Card ", js " Annual fee ", js " Best for ");
             (js "------", js "-----", js "-----");
             (js " SBI Cashback ", js " ₹999 ", js " 5% back online ");
             (js " Axis Ace ", js " ₹499 ", js " ") ]
           eq_refl eq_refl).
Defined.

End TableFacts.

(** ** The markdown enhancer on headings *)

Section HeadingFacts.

Import Markdown Language Tables Headings.

Lemma lit1_then (c : N) (R : regex) (k : mstate → option mstate)
    (b t : jsstring) (cs : list (nat * jsstring)) :
  rmatch (Seq (lit1 c) R) (MState b (c :: t) cs) k
  = rmatch R (MState (c :: b) t cs) k.
Proof.
  cbn [rmatch]. unfold lit1. cbn [rmatch ahead behind caps].
  by rewrite N.eqb_refl.
Qed.

Lemma grp_greedy (i lo : nat) (p : N → bool) (k : mstate → option mstate)
    (res : mstate) (taken rest b : jsstring) (cs : list (nat * jsstring)) :
  forallb p taken = true →
  stops p rest = true →
  (lo ≤ length taken)%nat →
  k (MState (rev taken ++ b) rest ((i, taken) :: cs)) = Some res →
  rmatch (Grp i (Rep lo None (Chr p))) (MState b (taken ++ rest) cs) k = Some res.
Proof.
  intros Hall Hstop Hlo Hk. cbn [rmatch].
  apply (rep_greedy p lo
           (λ st', k (MState (behind st') (ahead st')
                        ((i, passed (MState b (taken ++ rest) cs) st') :: caps st'))));
    [done | done | done |].
  cbn [behind ahead caps]. by rewrite passed_advance.
Qed.

(** A pattern whose matches contain a non-empty text does not match at
    the end of the input. *)
Lemma no_match_at_end (sub : jsstring) (r : regex) (before : jsstring) :
  has sub r → sub ≠ [] → match_here r before [] = None.
Proof.
  intros Hhas Hsub. destruct (match_here r before []) as [st|] eqn:E; [| done].
  apply match_here_spans in E as (mid & Hsp & Hmid & _).
  symmetry in Hmid. apply app_eq_nil in Hmid as [-> _].
  apply Hhas in Hsp. by destruct sub.
Qed.

(** A match that takes all the text ahead. *)
Lemma replace_from_whole (r : regex) (f : result → jsstring)
    (before s : jsstring) (st : mstate) :
  s ≠ [] →
  match_here r before s = Some st →
  behind st = rev s ++ before →
  match_here r (rev s ++ before) [] = None →
  replace_from r f before s O = f (result_of before st).
Proof.
  intros Hs Hm Hb Hend. destruct s as [|c s]; [done |].
  cbn [replace_from]. rewrite Hm. unfold pos. rewrite Hb.
  rewrite length_app, length_rev. cbn [length].
  replace (S (length s) + length before - length before)%nat
    with (S (length s)) by lia.
  rewrite replace_from_skip by done.
  rewrite firstn_all, drop_all. cbn [replace_from].
  cbn [rev] in Hend. rewrite <- app_assoc in Hend. cbn [app] in Hend.
  rewrite Hend. by rewrite app_nil_r.
Qed.

(** Text before the first match is kept. *)
Lemma replace_from_kept (r : regex) (f : result → jsstring) (s : jsstring) :
  ∀ (pre before : jsstring),
    (∀ i, (i < length pre)%nat →
          match_here r (rev (take i pre) ++ before) (drop i pre ++ s) = None) →
    replace_from r f before (pre ++ s) O
    = pre ++ replace_from r f (rev pre ++ before) s O.
Proof.
  induction pre as [|c pre IH]; intros before Hno; [done |].
  pose proof (Hno O ltac:(cbn; lia)) as H0. cbn [take drop rev app] in H0.
  cbn [app replace_from]. rewrite H0. f_equal.
  rewrite IH.
  - cbn [rev]. by rewrite <- app_assoc.
  - intros i Hi. specialize (Hno (S i) ltac:(cbn; lia)).
    cbn [take drop rev] in Hno. by rewrite <- app_assoc in Hno.
Qed.

Lemma seq_assoc (a b c : regex) (st : mstate) (k : mstate → option mstate) :
  rmatch (Seq (Seq a b) c) st k = rmatch (Seq a (Seq b c)) st k.
Proof. reflexivity. Qed.

Lemma heading_match (marks : jsstring) (before t : jsstring) :
  lacks NL t = true →
  t ≠ [] →
  marks = [HASH; HASH] ∨ marks = [HASH; HASH; HASH] →
  match_here (Seq (lit marks) (Grp 1 (plus notnl))) before (marks ++ t)
  = Some (MState (rev (marks ++ t) ++ before) [] [(1%nat, t)]).
Proof.
  intros Ht Hne Hmarks. unfold match_here.
  assert (rmatch (Grp 1 (plus notnl)) (MState (rev marks ++ before) t []) Some
          = Some (MState (rev (marks ++ t) ++ before) [] [(1%nat, t)])) as HG.
  { rewrite <- (app_nil_r t) at 1.
    apply grp_greedy; [exact Ht | done | destruct t; [done | cbn; lia] |].
    by rewrite rev_app_distr, <- app_assoc. }
  destruct Hmarks as [-> | ->]; cbn [lit app].
  - rewrite seq_assoc, !lit1_then. exact HG.
  - rewrite seq_assoc, lit1_then, seq_assoc, !lit1_then. exact HG.
Qed.

Lemma notbehind_then (p : N → bool) (R : regex) (k : mstate → option mstate)
    (b a : jsstring) (cs : list (nat * jsstring)) :
  stops p b = true →
  rmatch (Seq (NotBehind p) R) (MState b a cs) k = rmatch R (MState b a cs) k.
Proof.
  intros Hb. cbn [rmatch behind]. destruct b as [|c b]; [done |].
  cbn [stops] in Hb. apply negb_true_iff in Hb. by rewrite Hb.
Qed.

Lemma heading1_match (before t : jsstring) :
  stops (N.eqb HASH) before = true →
  lacks NL t = true →
  lacks HASH t = true →
  t ≠ [] →
  match_here heading1 before (HASH :: t)
  = Some (MState (rev (HASH :: t) ++ before) [] [(1%nat, t)]).
Proof.
  intros Hb Hnl Hh Hne. unfold match_here, heading1. cbn [seq].
  rewrite notbehind_then by done. rewrite lit1_then.
  rewrite <- (app_nil_r t) at 1.
  apply grp_greedy; [| done | destruct t; [done | cbn; lia] |].
  - unfold lacks in *. rewrite forallb_forall in *. intros x Hx.
    by rewrite (Hnl x Hx), (Hh x Hx).
  - cbn [rev]. by rewrite <- app_assoc.
Qed.

Lemma heading1_none (before after : jsstring) :
  stops (N.eqb HASH) before && opens after = false →
  match_here heading1 before after = None.
Proof.
  intros Hno. destruct (match_here heading1 before after) as [st|] eqn:E; [| done].
  exfalso.
  assert (stops (N.eqb HASH) before = true) as Hb.
  { unfold match_here, heading1 in E. cbn [seq rmatch behind] in E.
    destruct before as [|c before]; [done |]. cbn [stops].
    by destruct (HASH =? c)%N. }
  rewrite Hb in Hno. cbn [andb] in Hno.
  apply match_here_spans in E as (mid & Hsp & -> & _).
  destruct Hsp as (a & b & -> & -> & (h & g & -> & (c & -> & Hc) & Hg)).
  destruct Hg as (pieces & -> & Hall & Hlen).
  destruct Hall as [|piece pieces (x & -> & Hx) _]; [cbn in Hlen; lia |].
  cbn [app concat opens] in Hno. rewrite Hc in Hno.
  apply andb_true_iff in Hx as [Hx1 Hx2]. by rewrite Hx1, Hx2 in Hno.
Qed.

Lemma startsWith_run (c : N) (t : jsstring) :
  lacks c t = true →
  ∀ k j, (k < j)%nat → startsWith (replicate k c ++ t) (replicate j c) = false.
Proof.
  intros Ht. induction k as [|k IH]; intros j Hj; (destruct j as [|j]; [lia |]).
  - destruct t as [|x t]; [done |]. cbn [replicate app startsWith].
    cbn [lacks forallb] in Ht. apply andb_true_iff in Ht as [Hx _].
    apply negb_true_iff in Hx. by rewrite N.eqb_sym, Hx.
  - cbn [replicate app startsWith]. rewrite IH by lia. apply andb_false_r.
Qed.

Lemma includes_run (c : N) (t : jsstring) :
  lacks c t = true →
  ∀ k j, (k < j)%nat → includes (replicate k c ++ t) (replicate j c) = false.
Proof.
  intros Ht. induction k as [|k IH]; intros j Hj.
  - destruct j as [|j]; [lia |]. by apply lacks_includes.
  - change (replicate (S k) c ++ t) with (c :: replicate k c ++ t).
    cbn [includes]. rewrite IH by lia.
    change (c :: replicate k c ++ t) with (replicate (S k) c ++ t).
    by rewrite startsWith_run.
Qed.

Lemma has_bestSuitedForRegex_newline : has [NL] bestSuitedForRegex.
Proof.
  unfold bestSuitedForRegex. cbn [seq].
  do 7 apply has_seq_r. apply has_seq_l, starts_has, starts_rep; [lia |].
  apply starts_lit1.
Qed.

Lemma has_heading_break_newline :
  has [NL]
    (seq [ Grp 1 notnl;
           Grp 2 (seq [nl; Rep 1 (Some 3%nat) (lit1 HASH); lit1 (chr " ")]) ]).
Proof.
  cbn [seq]. apply has_seq_r, has_grp, starts_has, starts_seq, starts_lit1.
Qed.

Lemma has_heading3_marks : has [HASH; HASH; HASH] heading3.
Proof.
  apply starts_has. unfold heading3. change (js "###") with [HASH; HASH; HASH].
  cbn [seq lit]. apply starts_seq, starts_after, starts_after, starts_lit1.
Qed.

Lemma has_heading2_marks : has [HASH; HASH] heading2.
Proof.
  apply starts_has. unfold heading2. change (js "##") with [HASH; HASH].
  cbn [seq lit]. apply starts_seq, starts_after, starts_lit1.
Qed.

Lemma has_heading1_hash : has [HASH] heading1.
Proof. apply has_heading1. Qed.

(** The second- and third-level rules on a line of that level. *)
Lemma heading_fires (marks t : jsstring) :
  lacks NL t = true →
  t ≠ [] →
  marks = [HASH; HASH] ∨ marks = [HASH; HASH; HASH] →
  replace (Seq (lit marks) (Grp 1 (plus notnl)))
          (λ m, (marks ++ js " ") ++ group m 1) (marks ++ t)
  = (marks ++ js " ") ++ t.
Proof.
  intros Ht Hne Hmarks. unfold replace.
  assert (marks ++ t ≠ []) as Hs by (by destruct Hmarks as [-> | ->]).
  rewrite (replace_from_whole _ _ [] (marks ++ t) _ Hs
             (heading_match marks [] t Ht Hne Hmarks) eq_refl).
  - reflexivity.
  - apply (no_match_at_end [HASH]); [| done].
    apply starts_has.
    destruct Hmarks as [-> | ->]; cbn [lit];
      repeat apply starts_seq; apply starts_lit1.
Qed.

(** The first-level rule on a text whose only heading mark that can open
    a heading comes after [pre]. *)
Lemma heading1_fires (pre t : jsstring) :
  (∀ i, (i < length pre)%nat →
        stops (N.eqb HASH) (rev (take i pre))
        && opens (drop i pre ++ HASH :: t) = false) →
  stops (N.eqb HASH) (rev pre) = true →
  lacks NL t = true →
  lacks HASH t = true →
  t ≠ [] →
  replace heading1 (λ m, js "# " ++ group m 1) (pre ++ HASH :: t)
  = pre ++ js "# " ++ t.
Proof.
  intros Hpre Hb Hnl Hh Hne. unfold replace.
  rewrite replace_from_kept.
  - f_equal.
    assert (stops (N.eqb HASH) (rev pre ++ []) = true) as Hb'
      by (by rewrite app_nil_r).
    rewrite (replace_from_whole _ _ (rev pre ++ []) (HASH :: t) _ ltac:(done)
               (heading1_match (rev pre ++ []) t Hb' Hnl Hh Hne) eq_refl).
    + reflexivity.
    + by apply (no_match_at_end [HASH]); [apply has_heading1_hash |].
  - intros i Hi. apply heading1_none. rewrite app_nil_r. by apply Hpre.
Qed.

(** The first-level rule where no heading can open. *)
Lemma heading1_idle (s : jsstring) :
  (∀ pre suf, s = pre ++ suf →
              stops (N.eqb HASH) (rev pre) && opens suf = false) →
  replace heading1 (λ m, js "# " ++ group m 1) s = s.
Proof.
  intros Hno. unfold replace. apply replace_from_unmatched.
  intros pre suf ->. apply heading1_none. rewrite app_nil_r. by apply Hno.
Qed.

Lemma opens_lacks (s : jsstring) : lacks HASH s = true → opens s = false.
Proof.
  destruct s as [|c [|x s]]; [done | done |]. cbn [lacks forallb opens].
  intros [Hc _]%andb_true_iff. apply negb_true_iff in Hc.
  by rewrite N.eqb_sym, Hc.
Qed.

Lemma lacks_suffix (c : N) (pre suf : jsstring) :
  lacks c (pre ++ suf) = true → lacks c suf = true.
Proof. rewrite lacks_app. by intros [_ H]%andb_true_iff. Qed.

Ltac idle H :=
  rewrite (replace_without _ _ _ _ H)
    by (first [ by apply lacks_includes | by apply (includes_run HASH) ]).

Ltac before_headings :=
  rewrite enhanceMarkdown_finish; unfold finish;
  idle has_tablePattern; idle has_dividerPattern;
  idle has_bestSuitedForRegex_newline; idle has_pipes; idle has_edge_pipes.

Ltac after_headings :=
  idle has_list_item; idle has_heading_break_newline;
  idle has_list_break; idle has_blank_lines.

Lemma plain_app (s t : jsstring) : plain (s ++ t) = plain s && plain t.
Proof. apply forallb_app. Qed.

Lemma lacks_cons (c x : N) (s : jsstring) :
  lacks c (x :: s) = negb (x =? c)%N && lacks c s.
Proof. reflexivity. Qed.

Lemma first_level (t : jsstring) :
  plain t = true → t ≠ [] →
  enhanceMarkdown (js "#" ++ t) = js "# " ++ t.
Proof.
  intros Ht Hne. apply plain_lacks in Ht as (Hp & Hh & Hn).
  change (js "#" ++ t) with (HASH :: t).
  assert (lacks PIPE (HASH :: t) = true) as Hp1 by (by rewrite lacks_cons, Hp).
  assert (lacks NL (HASH :: t) = true) as Hn1 by (by rewrite lacks_cons, Hn).
  assert (lacks NL (js "# " ++ t) = true) as Hn2 by (rewrite lacks_app; by rewrite Hn).
  before_headings.
  rewrite (replace_without _ _ _ _ has_heading3_marks)
    by (apply (includes_run HASH t Hh 1 3); lia).
  rewrite (replace_without _ _ _ _ has_heading2_marks)
    by (apply (includes_run HASH t Hh 1 2); lia).
  assert (replace heading1 (λ m, js "# " ++ group m 1) (HASH :: t) = js "# " ++ t)
    as E1 by (apply (heading1_fires [] t); try done; intros i Hi; cbn in Hi; lia).
  unfold heading1 in E1. rewrite E1.
  after_headings. done.
Qed.

Lemma opens_other (c : N) (s : jsstring) :
  (HASH =? c)%N = false → opens (c :: s) = false.
Proof. intros H. destruct s; [done |]. cbn [opens]. by rewrite H. Qed.

Lemma second_level (t : jsstring) :
  plain t = true → t ≠ [] →
  enhanceMarkdown (js "##" ++ t) = js "## " ++ t.
Proof.
  intros Ht Hne. apply plain_lacks in Ht as (Hp & Hh & Hn).
  change (js "##" ++ t) with (HASH :: HASH :: t).
  assert (lacks PIPE (HASH :: HASH :: t) = true) as Hp1 by (by rewrite !lacks_cons, Hp).
  assert (lacks NL (HASH :: HASH :: t) = true) as Hn1 by (by rewrite !lacks_cons, Hn).
  assert (lacks NL (js "## " ++ t) = true) as Hn2 by (rewrite lacks_app; by rewrite Hn).
  before_headings.
  rewrite (replace_without _ _ _ _ has_heading3_marks)
    by (apply (includes_run HASH t Hh 2 3); lia).
  assert (replace heading2 (λ m, js "## " ++ group m 1) (HASH :: HASH :: t)
          = js "## " ++ t) as E2
    by (apply (heading_fires [HASH; HASH] t); tauto).
  unfold heading2 in E2. rewrite E2.
  assert (replace heading1 (λ m, js "# " ++ group m 1) (js "## " ++ t)
          = js "## " ++ t) as E1.
  { apply heading1_idle. intros pre suf Hsplit.
    change (js "## " ++ t) with (HASH :: HASH :: 32%N :: t) in Hsplit.
    destruct pre as [|p0 pre]; cbn [app] in Hsplit.
    { by subst suf. }
    injection Hsplit as <- Hsplit. destruct pre as [|p1 pre]; cbn [app] in Hsplit.
    { by subst suf. }
    injection Hsplit as <- Hsplit. destruct pre as [|p2 pre]; cbn [app] in Hsplit.
    { subst suf. by rewrite opens_other, andb_false_r. }
    injection Hsplit as <- Hsplit.
    rewrite opens_lacks; [apply andb_false_r |].
    rewrite Hsplit in Hh. by apply lacks_suffix in Hh. }
  unfold heading1 in E1. rewrite E1.
  after_headings. done.
Qed.

Lemma third_level (t : jsstring) :
  plain t = true → t ≠ [] →
  enhanceMarkdown (js "###" ++ t) = js "## #  " ++ t.
Proof.
  intros Ht Hne. apply plain_lacks in Ht as (Hp & Hh & Hn).
  change (js "###" ++ t) with (HASH :: HASH :: HASH :: t).
  assert (lacks PIPE (HASH :: HASH :: HASH :: t) = true) as Hp1
    by (by rewrite !lacks_cons, Hp).
  assert (lacks NL (HASH :: HASH :: HASH :: t) = true) as Hn1
    by (by rewrite !lacks_cons, Hn).
  assert (lacks NL (js "## #  " ++ t) = true) as Hn2
    by (rewrite lacks_app; by rewrite Hn).
  before_headings.
  assert (replace heading3 (λ m, js "### " ++ group m 1) (HASH :: HASH :: HASH :: t)
          = HASH :: HASH :: HASH :: 32%N :: t) as E3
    by (apply (heading_fires [HASH; HASH; HASH] t); tauto).
  unfold heading3 in E3. rewrite E3.
  assert (replace heading2 (λ m, js "## " ++ group m 1)
            (HASH :: HASH :: HASH :: 32%N :: t)
          = HASH :: HASH :: 32%N :: HASH :: 32%N :: t) as E2.
  { apply (heading_fires [HASH; HASH] (HASH :: 32%N :: t)); [| done | tauto].
    by rewrite !lacks_cons, Hn. }
  unfold heading2 in E2. rewrite E2.
  assert (replace heading1 (λ m, js "# " ++ group m 1)
            (HASH :: HASH :: 32%N :: HASH :: 32%N :: t)
          = js "## #  " ++ t) as E1.
  { apply (heading1_fires [HASH; HASH; 32%N] (32%N :: t)).
    - intros i Hi. cbn [length] in Hi.
      destruct i as [|[|[|i]]]; [done | done | | lia].
      cbn [drop app]. by rewrite opens_other, andb_false_r.
    - done.
    - by rewrite lacks_cons, Hn.
    - by rewrite lacks_cons, Hh.
    - done. }
  unfold heading1 in E1. rewrite E1.
  after_headings. done.
Qed.

(** X23. A heading line is respaced whether it needs it or not: on a line
    made of one, two or three hashes and a title (with no pipe, hash or
    newline), the pass puts a space after the marker even when one is
    there, and a third-level heading comes out as a second-level heading
    whose title starts with a hash. *)
Theorem headings_are_respaced (t : jsstring) :
  plain t = true →
  t ≠ [] →
  enhanceMarkdown (js "#" ++ t) = js "# " ++ t
  ∧ enhanceMarkdown (js "##" ++ t) = js "## " ++ t
  ∧ enhanceMarkdown (js "###" ++ t) = js "## #  " ++ t.
Proof.
  intros Ht Hne. repeat split.
  - by apply first_level.
  - by apply second_level.
  - by apply third_level.
Qed.

Lemma headings_are_respaced_witness :
  enhanceMarkdown (js "# Rewards") = js "#  Rewards"
  ∧ enhanceMarkdown (js "## Rewards") = js "##  Rewards"
  ∧ enhanceMarkdown (js "### Rewards") = js "## #   Rewards".
Proof.
  apply (headings_are_respaced (js " Rewards")); [reflexivity | discriminate].
Defined.

Lemma plain_spaces (n : nat) (t : jsstring) :
  plain t = true → plain (replicate n 32%N ++ t) = true.
Proof. intros Ht. induction n as [|n IH]; [done |]. cbn [replicate app plain forallb]. exact IH. Qed.

(** X24. No first- or second-level heading line is ever stable: each pass
    adds one more space after the marker, so [n] passes add [n]. *)
Theorem every_pass_adds_a_space (t : jsstring) (n : nat) :
  plain t = true →
  t ≠ [] →
  Nat.iter n enhanceMarkdown (js "#" ++ t) = js "#" ++ replicate n 32%N ++ t
  ∧ Nat.iter n enhanceMarkdown (js "##" ++ t) = js "##" ++ replicate n 32%N ++ t.
Proof.
  intros Ht Hne. induction n as [|n [IH1 IH2]]; [done |].
  rewrite !Nat.iter_succ, IH1, IH2.
  assert (replicate n 32%N ++ t ≠ []) as Hne' by (by destruct n, t).
  rewrite first_level, second_level by (done || by apply plain_spaces).
  done.
Qed.

Lemma every_pass_adds_a_space_witness :
  Nat.iter 3 enhanceMarkdown (js "# Fees") = js "#    Fees"
  ∧ Nat.iter 3 enhanceMarkdown (js "## Fees") = js "##    Fees".
Proof.
  apply (every_pass_adds_a_space (js " Fees") 3); [reflexivity | discriminate].
Defined.

End HeadingFacts.

(** ** The markdown enhancer on "Best Suited For" sections *)

Section SectionFacts.

Import Markdown Language Tables Headings Sections.

Lemma star_then (lo : nat) (p : N → bool) (R : regex)
    (k : mstate → option mstate) (res : mstate)
    (taken rest b : jsstring) (cs : list (nat * jsstring)) :
  forallb p taken = true →
  stops p rest = true →
  (lo ≤ length taken)%nat →
  rmatch R (MState (rev taken ++ b) rest cs) k = Some res →
  rmatch (Seq (Rep lo None (Chr p)) R) (MState b (taken ++ rest) cs) k = Some res.
Proof.
  intros Hall Hstop Hlo HR.
  by apply (rep_greedy p lo (λ st, rmatch R st k)).
Qed.

(** An optional code unit that is there, and one that is not. *)
Lemma opt_take (p : N → bool) (R : regex) (k : mstate → option mstate)
    (res : mstate) (x : N) (t b : jsstring) (cs : list (nat * jsstring)) :
  p x = true →
  rmatch R (MState (x :: b) t cs) k = Some res →
  rmatch (Seq (opt (Chr p)) R) (MState b (x :: t) cs) k = Some res.
Proof.
  intros Hx HR. cbn [rmatch]. unfold opt. rewrite rmatch_Rep.
  cbn [Nat.add ahead length iterate below groups].
  rewrite clear_none. cbn [rmatch ahead behind caps]. rewrite Hx.
  rewrite (bool_decide_eq_false_2 (pos _ = pos _))
    by (unfold pos; cbn [behind length]; lia).
  rewrite andb_false_r.
  rewrite (bool_decide_eq_false_2 (1 < 1)%nat) by lia.
  rewrite (bool_decide_eq_true_2 (0 ≤ 1)%nat) by lia.
  by rewrite HR.
Qed.

Lemma opt_skip (r' R : regex) (k : mstate → option mstate) (st : mstate) :
  (∀ K, rmatch r' (clear (groups r') st) K = None) →
  rmatch (Seq (opt r') R) st k = rmatch R st k.
Proof.
  intros Hno. cbn [rmatch]. unfold opt. rewrite rmatch_Rep.
  cbn [Nat.add iterate below]. rewrite Hno.
  by rewrite (bool_decide_eq_true_2 (0 ≤ 0)%nat) by lia.
Qed.

Lemma chr_none (p : N → bool) (st : mstate) (K : mstate → option mstate) :
  stops p (ahead st) = true → rmatch (Chr p) st K = None.
Proof.
  cbn [rmatch]. destruct (ahead st) as [|c t]; [done |]. cbn [stops].
  intros H. apply negb_true_iff in H. by rewrite H.
Qed.

Lemma lit_then (s : jsstring) : ∀ (R : regex) (k : mstate → option mstate)
    (b t : jsstring) (cs : list (nat * jsstring)),
  s ≠ [] →
  rmatch (Seq (lit s) R) (MState b (s ++ t) cs) k
  = rmatch R (MState (rev s ++ b) t cs) k.
Proof.
  induction s as [|c s IH]; intros R k b t cs Hne; [done |].
  destruct s as [|c' s].
  - cbn [lit app rev]. apply lit1_then.
  - change (lit (c :: c' :: s)) with (Seq (lit1 c) (lit (c' :: s))).
    rewrite seq_assoc. change ((c :: c' :: s) ++ t) with (c :: (c' :: s) ++ t).
    rewrite lit1_then, IH by done.
    cbn [rev]. by rewrite <- !app_assoc.
Qed.

Lemma lacks_stops (x : N) (s : jsstring) :
  lacks x s = true → stops (N.eqb x) s = true.
Proof.
  destruct s as [|c s]; [done |]. rewrite lacks_cons.
  intros [Hc _]%andb_true_iff. cbn [stops]. by rewrite N.eqb_sym.
Qed.

Lemma one_line_lacks (s : jsstring) : one_line s = true → lacks NL s = true.
Proof.
  unfold one_line, lacks. rewrite !forallb_forall. intros H x Hx.
  specialize (H x Hx). apply negb_true_iff in H. apply negb_true_iff.
  unfold is_line_terminator in H. apply orb_false_iff in H as [H _].
  apply orb_false_iff in H as [H _]. by apply orb_false_iff in H as [H _].
Qed.

Lemma bestSuitedForRegex_section (before c : jsstring) :
  c ≠ [] →
  lacks PIPE c = true →
  one_line c = true →
  match_here bestSuitedForRegex before (section_heading ++ c)
  = Some (MState (rev (section_heading ++ c) ++ before) [] [(2%nat, c)]).
Proof.
  intros Hne Hp Hl. pose proof (one_line_lacks c Hl) as Hn.
  unfold match_here, bestSuitedForRegex, section_heading.
  change (js "## Best Suited For") with ([HASH; HASH; 32%N] ++ js "Best Suited For").
  assert (∃ x t, js "Best Suited For" = x :: t ∧ is_space x = false
                 ∧ (HASH =? x)%N = false)
    as (x & t & Htitle & Hx1 & Hx2) by (by eexists _, _).
  cbn [seq]. revert Htitle. generalize (js "Best Suited For"). intros title Htitle. repeat (rewrite <- app_assoc; cbn [app]).
  rewrite lit1_then.
  apply opt_take; [apply N.eqb_refl |].
  apply (star_then 0 is_space _ _ _ [32%N]); [done | | cbn; lia |].
  { rewrite Htitle. cbn [app stops]. by rewrite Hx1. }
  rewrite opt_skip.
  2: { intros K. apply chr_none. cbn [ahead clear]. rewrite Htitle.
       cbn [app stops]. by rewrite Hx2. }
  apply (star_then 0 is_space _ _ _ []); [done | | cbn; lia |].
  { rewrite Htitle. cbn [app stops]. by rewrite Hx1. }
  rewrite lit_then by (by rewrite Htitle).
  apply (star_then 0 _ _ _ _ []); [done | done | cbn; lia |].
  apply (star_then 1 _ _ _ _ [NL]); [done | by apply lacks_stops | cbn; lia |].
  rewrite opt_skip.
  2: { intros K. cbn [rmatch]. apply chr_none. cbn [ahead clear].
       by apply lacks_stops. }
  rewrite <- (app_nil_r c) at 1.
  apply grp_greedy; [exact Hl | done | destruct c; [done | cbn; lia] |].
  do 2 f_equal.
  repeat (progress cbn [rev app] || rewrite rev_app_distr || rewrite <- app_assoc).
  reflexivity.
Qed.

Lemma has_none (sub : jsstring) (r : regex) (before suf : jsstring) :
  has sub r → includes suf sub = false → match_here r before suf = None.
Proof.
  intros Hhas Hsuf. destruct (match_here r before suf) as [st|] eqn:E; [| done].
  apply match_here_spans in E as (mid & Hsp & -> & _).
  apply Hhas in Hsp. by rewrite (includes_app_l _ _ _ Hsp) in Hsuf.
Qed.

Lemma split_from_unmatched (r : regex) : ∀ after before piece,
  (∀ pre suf, after = pre ++ suf → match_here r (rev pre ++ before) suf = None) →
  split_from r before after piece O = [rev piece ++ after].
Proof.
  induction after as [|c after IH]; intros before piece Hno.
  - cbn [split_from]. by rewrite app_nil_r.
  - cbn [split_from]. pose proof (Hno [] (c :: after) eq_refl) as H0.
    cbn [rev app] in H0. rewrite H0.
    rewrite IH.
    + cbn [rev]. by rewrite <- app_assoc.
    + intros pre suf ->. specialize (Hno (c :: pre) suf eq_refl).
      cbn [rev] in Hno. by rewrite <- app_assoc in Hno.
Qed.

Lemma has_item_separator : has [PIPE] (Alt (lit (js "||")) pipe).
Proof.
  change (js "||") with [PIPE; PIPE]. apply has_alt; apply starts_has.
  - cbn [lit]. apply starts_seq, starts_lit1.
  - apply starts_lit1.
Qed.

Lemma split_unpiped (c : jsstring) :
  c ≠ [] → lacks PIPE c = true → split (Alt (lit (js "||")) pipe) c = [c].
Proof.
  intros Hne Hp. unfold split. destruct c as [|x c]; [done |].
  rewrite split_from_unmatched; [done |].
  intros pre suf Hsplit. apply (has_none [PIPE]); [apply has_item_separator |].
  apply lacks_includes. rewrite Hsplit in Hp. by apply lacks_suffix in Hp.
Qed.

(** The section rule keeps nothing of a first line without pipes. *)
Lemma bestSuitedFor_line (before behind0 c : jsstring) :
  c ≠ [] →
  lacks PIPE c = true →
  bestSuitedFor (result_of before (MState behind0 [] [(2%nat, c)]))
  = js "### Best Suited For" ++ [NL; NL; NL].
Proof.
  intros Hne Hp. unfold bestSuitedFor, result_of, capture.
  cbn [group caps lookup_cap].
  change (bool_decide (2%nat = 2%nat)) with true. cbn [default]. unfold id.
  rewrite split_unpiped by done. cbn [List.filter].
  destruct (truthy (trim c)) eqn:E.
  - cbn [length]. rewrite (bool_decide_eq_true_2 (0 < 1)%nat) by lia.
    cbn [listRows length]. rewrite (bool_decide_eq_true_2 (0 < 1)%nat) by lia.
    unfold item. cbn [lookup list_lookup Nat.add default truthy andb app].
    rewrite andb_false_r. reflexivity.
  - cbn [length]. rewrite (bool_decide_eq_false_2 (0 < 0)%nat) by lia.
    rewrite (replace_without _ _ _ _ (starts_has _ _ (starts_lit1 PIPE)))
      by (by apply lacks_includes).
    destruct (trim c); [reflexivity | discriminate E].
Qed.

Lemma finish_section (c : jsstring) :
  c ≠ [] →
  lacks PIPE c = true →
  one_line c = true →
  finish (section_heading ++ c) = js "## #   Best Suited For" ++ [NL; NL].
Proof.
  intros Hne Hp Hl.
  assert (lacks PIPE (section_heading ++ c) = true) as Hp'
    by (by rewrite lacks_app, Hp).
  unfold finish.
  rewrite (replace_without _ _ _ _ has_dividerPattern) by (by apply lacks_includes).
  assert (replace bestSuitedForRegex bestSuitedFor (section_heading ++ c)
          = js "### Best Suited For" ++ [NL; NL; NL]) as E.
  { unfold replace.
    rewrite (replace_from_whole _ _ [] (section_heading ++ c) _
               ltac:(by unfold section_heading)
               (bestSuitedForRegex_section [] c Hne Hp Hl) eq_refl).
    - by apply bestSuitedFor_line.
    - by apply (no_match_at_end [HASH]); [apply has_bestSuitedForRegex |]. }
  rewrite E. vm_compute. reflexivity.
Qed.

(** X25. The first line of a "Best Suited For" section is lost unless it
    has pipes: whatever stands on the line after the heading (no pipe, no
    line break), the result is the heading alone, itself re-read by the
    heading rules. *)
Theorem section_line_is_dropped (c : jsstring) :
  c ≠ [] →
  lacks PIPE c = true →
  one_line c = true →
  enhanceMarkdown (js "## Best Suited For" ++ [NL] ++ c)
  = js "## #   Best Suited For" ++ [NL; NL].
Proof.
  intros Hne Hp Hl.
  rewrite app_assoc. change (js "## Best Suited For" ++ [NL]) with section_heading.
  rewrite enhanceMarkdown_finish.
  rewrite (replace_without _ _ _ _ has_tablePattern).
  - by apply finish_section.
  - apply lacks_includes. by rewrite lacks_app, Hp.
Qed.

Lemma section_line_is_dropped_witness :
  enhanceMarkdown (js "## Best Suited For" ++ [NL]
                   ++ js "Frequent flyers who want lounge access")
  = js "## #   Best Suited For" ++ [NL; NL].
Proof.
  apply (section_line_is_dropped (js "Frequent flyers who want lounge access"));
    [discriminate | reflexivity | reflexivity].
Defined.

Lemma stops_inside (x : N) (pre s : jsstring) (i : nat) :
  lacks x pre = true → (i < length pre)%nat →
  stops (N.eqb x) (drop i pre ++ s) = true.
Proof.
  revert i. induction pre as [|c pre IH]; intros i Hp Hi; [cbn in Hi; lia |].
  rewrite lacks_cons in Hp. apply andb_true_iff in Hp as [Hc Hp].
  destruct i as [|i].
  - cbn [drop app stops]. by rewrite N.eqb_sym.
  - cbn [drop]. apply IH; [done | cbn in Hi; lia].
Qed.

Lemma one_line_app (s t : jsstring) : one_line (s ++ t) = one_line s && one_line t.
Proof. apply forallb_app. Qed.

Lemma one_line_trim (s : jsstring) : one_line s = true → one_line (trim s) = true.
Proof.
  unfold one_line. rewrite !forallb_forall. intros H x Hx. apply H.
  unfold trim, trimEnd in Hx.
  apply in_rev, In_trimStart, in_rev in Hx. by apply In_trimStart.
Qed.

(** X26. So is a table row in that place: a three-column row right under
    the heading is first turned into a line without pipes, and that line is
    then dropped with the rest. *)
Theorem section_row_is_dropped (a b c : jsstring) :
  well_formed (a, b, c) = true →
  divider (a, b, c) = false →
  one_line (a ++ b ++ c) = true →
  enhanceMarkdown (js "## Best Suited For" ++ [NL] ++ row_text (a, b, c))
  = js "## #   Best Suited For" ++ [NL; NL].
Proof.
  intros Hwf Hdiv Hl.
  rewrite app_assoc. change (js "## Best Suited For" ++ [NL]) with section_heading.
  rewrite enhanceMarkdown_finish.
  assert (replace tablePattern tableRow (section_heading ++ row_text (a, b, c))
          = section_heading ++ row_line (a, b, c)) as E.
  { unfold replace. rewrite replace_from_kept.
    - f_equal. rewrite <- (app_nil_r (row_text (a, b, c))).
      rewrite replace_row by done. cbn [replace_from].
      rewrite no_row_here by done. by rewrite app_nil_r.
    - intros i Hi. apply no_row_here. by apply stops_inside. }
  rewrite E. apply finish_section.
  - destruct (line_head (a, b, c)) as [[_ H] | [[t ->] _]]; [congruence | done].
  - apply line_lacks; tauto.
  - rewrite !one_line_app in Hl.
    apply andb_true_iff in Hl as [Ha [Hb Hc]%andb_true_iff].
    unfold row_line. rewrite Hdiv.
    rewrite !one_line_app, !one_line_trim by done.
    destruct (truthy (trim c)); [| reflexivity].
    by rewrite !one_line_app, one_line_trim.
Qed.

Lemma section_row_is_dropped_witness :
  enhanceMarkdown (js "## Best Suited For" ++ [NL]
                   ++ js "| Frequent flyers | Lounge access | Free |")
  = js "## #   Best Suited For" ++ [NL; NL].
Proof.
  apply (section_row_is_dropped (js " Frequent flyers ") (js " Lounge access ")
           (js " Free ")); reflexivity.
Defined.

End SectionFacts.

(** ** The card catalogue: fees and filters *)

Section CatalogueFacts.

Import Numbers Cards Amounts.

(** Replacing every code unit of a class by nothing keeps the others. *)
Lemma replace_class_away (p : N → bool) : ∀ after before,
  replace_from (Chr p) (λ _, []) before after O
  = List.filter (λ c, negb (p c)) after.
Proof.
  induction after as [|c after IH]; intros before; [reflexivity |].
  cbn [replace_from]. unfold match_here. cbn [rmatch ahead behind caps].
  cbn [List.filter]. destruct (p c) eqn:E; cbn [negb].
  - unfold pos. cbn [behind length].
    replace (S (length before) - length before)%nat with 1%nat by lia.
    cbn [app]. apply IH.
  - f_equal. apply IH.
Qed.

Lemma digit_is_no_space (c : N) : is_digit c = true → is_space c = false.
Proof.
  unfold is_digit, is_space, is_line_terminator.
  rewrite andb_true_iff, !N.leb_le. intros [Hlo Hhi].
  rewrite !orb_false_iff, andb_false_iff, N.leb_gt, !N.eqb_neq. lia.
Qed.

Lemma digit_value_10 (c : N) :
  is_digit c = true → digit_value 10 c = Some (Z.of_N c - 48).
Proof.
  intros H. unfold digit_value. rewrite H.
  unfold is_digit in H. apply andb_true_iff in H as [Hlo Hhi].
  apply N.leb_le in Hlo, Hhi.
  destruct (Z.of_N c - 48 <? 10) eqn:E; [done |]. apply Z.ltb_ge in E. lia.
Qed.

Lemma radix_prefix_digits (d : jsstring) :
  forallb is_digit d = true →
  radix_prefix 10 d = (λ c, Z.of_N c - 48) <$> d.
Proof.
  induction d as [|c d IH]; [done |]. cbn [forallb radix_prefix].
  intros [Hc Hd]%andb_true_iff. rewrite digit_value_10 by done.
  cbn [fmap list_fmap]. f_equal. by apply IH.
Qed.

Lemma mathInt_decimal (d : jsstring) :
  mathInt 10 ((λ c, Z.of_N c - 48) <$> d) = decimal d.
Proof.
  unfold mathInt, decimal. generalize 0.
  induction d as [|c d IH]; intros acc; [done |].
  cbn [fmap list_fmap fold_left]. apply IH.
Qed.

(** Reading a run of decimal digits takes all of them, in radix 10. *)
Lemma read_digits_decimal (sign : Z) (c : N) (d : jsstring) :
  forallb is_digit (c :: d) = true →
  read_digits sign (c :: d) = Int (sign * decimal (c :: d)).
Proof.
  intros Hall. pose proof Hall as Hcd. cbn [forallb] in Hcd.
  apply andb_true_iff in Hcd as [Hc Hd].
  assert (match radix_prefix 10 (c :: d) with
          | [] => NaN
          | ds => Int (sign * mathInt 10 ds)
          end = Int (sign * decimal (c :: d))) as Hgoal.
  { rewrite radix_prefix_digits by done.
    rewrite <- mathInt_decimal.
    by destruct ((λ c0 : N, Z.of_N c0 - 48) <$> c :: d) eqn:E. }
  unfold read_digits.
  destruct d as [|x d].
  { destruct c as [|p]; [exact Hgoal |].
    do 6 (try destruct p as [p|p|]); exact Hgoal. }
  cbn [forallb] in Hd. apply andb_true_iff in Hd as [Hx _].
  unfold is_digit in Hx. apply andb_true_iff in Hx as [Hxlo Hxhi].
  apply N.leb_le in Hxlo, Hxhi.
  assert (((x =? 120) || (x =? 88))%N = false) as ->.
  { apply orb_false_iff. split; apply N.eqb_neq; lia. }
  destruct c as [|p]; [exact Hgoal |].
  do 6 (try destruct p as [p|p|]); exact Hgoal.
Qed.

Lemma parseInt_digits (c : N) (d : jsstring) :
  forallb is_digit (c :: d) = true →
  parseInt (c :: d) = Int (decimal (c :: d)).
Proof.
  intros Hall. pose proof Hall as Hcd. cbn [forallb] in Hcd.
  apply andb_true_iff in Hcd as [Hc Hd].
  unfold parseInt. cbn [trimStart]. rewrite (digit_is_no_space c Hc).
  rewrite <- (Z.mul_1_l (decimal (c :: d))).
  rewrite <- (read_digits_decimal 1 c d Hall).
  unfold is_digit in Hc. apply andb_true_iff in Hc as [Hlo Hhi].
  apply N.leb_le in Hlo, Hhi.
  destruct c as [|p]; [reflexivity |].
  do 6 (try destruct p as [p|p|]); try reflexivity; lia.
Qed.


Lemma digits_of_digits (s : jsstring) : forallb is_digit (digits_of s) = true.
Proof.
  unfold digits_of. apply forallb_forall. intros c Hc.
  by apply List.filter_In in Hc as [_ Hc].
Qed.

Lemma parseFeeValue_digits (fee : jsstring) :
  parseFeeValue fee = Int (decimal (digits_of fee)).
Proof.
  unfold parseFeeValue. cbv zeta. unfold replace.
  rewrite replace_class_away.
  rewrite (List.filter_ext _ is_digit) by (intros c; apply negb_involutive).
  fold (digits_of fee). pose proof (digits_of_digits fee) as Hall.
  destruct (digits_of fee) as [|c d]; [by vm_compute |].
  cbn [truthy]. by apply parseInt_digits.
Qed.


(** *** Amounts and identifiers printed by [toString] *)

Lemma digits_all (u : Decimal.uint) : forallb is_digit (digits u) = true.
Proof.
  induction u; [done | ..]; cbn [digits forallb]; rewrite IHu; reflexivity.
Qed.

Lemma decimal_acc (u : Decimal.uint) : ∀ acc : positive,
  fold_left (λ a c, a * 10 + (Z.of_N c - 48)) (digits u) (Z.pos acc)
  = Z.pos (Pos.of_uint_acc u acc).
Proof.
  induction u; intros acc; cbn [digits fold_left Pos.of_uint_acc];
    [done | rewrite <- IHu; f_equal; lia ..].
Qed.

Lemma decimal_digits (u : Decimal.uint) :
  decimal (digits u) = Z.of_N (Pos.of_uint u).
Proof.
  unfold decimal.
  induction u; cbn [digits fold_left Pos.of_uint]; [done | exact IHu | ..];
    apply (decimal_acc u).
Qed.

Lemma toString_amount (n : Z) :
  0 ≤ n →
  forallb is_digit (toString n) = true ∧ decimal (toString n) = n.
Proof.
  destruct n as [|p|p]; [done | | lia]. intros _. cbn [toString].
  split; [apply digits_all |].
  by rewrite decimal_digits, DecimalPos.Unsigned.of_to.
Qed.

Lemma digits_of_all (d : jsstring) :
  forallb is_digit d = true → digits_of d = d.
Proof.
  unfold digits_of. induction d as [|c d IH]; [done |].
  cbn [forallb List.filter]. intros [-> Hd]%andb_true_iff. by rewrite IH.
Qed.

Lemma digits_of_app (a b : jsstring) :
  digits_of (a ++ b) = digits_of a ++ digits_of b.
Proof. apply List.filter_app. Qed.

(** X18. An amount survives the round trip: whatever surrounds it, as long
    as it holds no digit (a currency sign, a unit, words), the fee read
    from the text is the amount printed in it. Amounts are the integers
    that a number holds exactly and [toString] prints in full. *)
Theorem amount_is_read_back (before after : jsstring) (n : Z) :
  digits_of before = [] →
  digits_of after = [] →
  0 ≤ n < 2 ^ 53 →
  parseFeeValue (before ++ toString n ++ after) = Int n.
Proof.
  intros Hb Ha [Hn _]. rewrite parseFeeValue_digits, !digits_of_app, Hb, Ha.
  destruct (toString_amount n Hn) as [Hall Hval].
  by rewrite app_nil_l, app_nil_r, digits_of_all, Hval.
Qed.

Lemma amount_is_read_back_witness :
  parseFeeValue (js "₹" ++ toString 499 ++ js " + GST") = Int 499.
Proof.
  apply (amount_is_read_back (js "₹") (js " + GST") 499);
    [vm_compute; reflexivity | vm_compute; reflexivity | lia].
Defined.

(** *** The fee bands *)

Ltac settle_options :=
  repeat match goal with
  | |- context [bool_decide (js ?a = js ?b)] =>
    let v := eval vm_compute in (bool_decide (js a = js b)) in
    change (bool_decide (js a = js b)) with v
  | |- context [bool_decide (js ?a ≠ js ?b)] =>
    let v := eval vm_compute in (bool_decide (js a ≠ js b)) in
    change (bool_decide (js a ≠ js b)) with v
  end;
  cbn [andb orb negb].

(** X19. The four fee bands split the catalogue: with no bank chosen, each
    card is listed under exactly one of the options no-fee, under-100,
    100-300 and 300-plus. *)
Theorem every_card_is_in_one_fee_band (card : Card) :
  length (List.filter (λ selectedFee, keeps (js "all") selectedFee card)
                      feeOptions) = 1%nat.
Proof.
  pose proof (parseFeeValue_digits (annualFee card)) as Hv.
  assert (annualFee card = js "$0" → decimal (digits_of (annualFee card)) = 0)
    as Hzero by (by intros ->).
  set (v := decimal (digits_of (annualFee card))) in *.
  unfold feeOptions. cbn [List.filter]. unfold keeps. rewrite Hv.
  settle_options. unfold ge, lt.
  destruct (decide (annualFee card = js "$0")) as [E | E].
  - rewrite (bool_decide_eq_true_2 _ E).
    rewrite (bool_decide_eq_false_2 (annualFee card ≠ js "$0")) by tauto.
    rewrite (Hzero E). reflexivity.
  - rewrite (bool_decide_eq_false_2 _ E).
    rewrite (bool_decide_eq_true_2 (annualFee card ≠ js "$0")) by done.
    cbn [orb].
    destruct (Z.leb_spec 100 v), (Z.ltb_spec v 100), (Z.leb_spec 300 v),
      (Z.ltb_spec v 300); cbn [orb length]; (reflexivity || lia).
Qed.

(** X20. "No annual fee" goes by the text, not by the amount: a card whose
    fee reads as 0 but is not written exactly [$0] (such as [Free], [Nil]
    or [$0.00]) is left out of no-fee and listed under under-100. *)
Theorem free_card_written_otherwise (card : Card) :
  annualFee card ≠ js "$0" →
  decimal (digits_of (annualFee card)) = 0 →
  keeps (js "all") (js "no-fee") card = false
  ∧ keeps (js "all") (js "under-100") card = true.
Proof.
  intros E Hzero. unfold keeps. rewrite parseFeeValue_digits, Hzero.
  settle_options.
  rewrite (bool_decide_eq_false_2 _ E).
  by rewrite (bool_decide_eq_true_2 (annualFee card ≠ js "$0")).
Qed.

Lemma free_card_written_otherwise_witness :
  let card := {| id := 7; bankId := 2; categoryId := 1;
                 annualFee := js "₹0.00" |} in
  keeps (js "all") (js "no-fee") card = false
  ∧ keeps (js "all") (js "under-100") card = true.
Proof.
  intros card. apply (free_card_written_otherwise card).
  - vm_compute. discriminate.
  - vm_compute. reflexivity.
Defined.

(** *** The selectors *)






End CatalogueFacts.

(** ** The article form *)

Section ArticleFacts.

Import Markdown Language Tables Numbers ArticleForm Slugs.

Lemma run_le (p : N → bool) (s : jsstring) : (run p s ≤ length s)%nat.
Proof. induction s as [|c s IH]; cbn [run length]; [lia |]. destruct (p c); lia. Qed.

Lemma run_take (p : N → bool) (s : jsstring) : forallb p (take (run p s) s) = true.
Proof.
  induction s as [|c s IH]; [done |]. cbn [run].
  destruct (p c) eqn:E; [| done]. cbn [take forallb]. by rewrite E.
Qed.

Lemma run_drop (p : N → bool) (s : jsstring) : stops p (drop (run p s) s) = true.
Proof.
  induction s as [|c s IH]; [done |]. cbn [run].
  destruct (p c) eqn:E; [exact IH |]. cbn [drop stops]. by rewrite E.
Qed.

(** One or more code units of a class, at a fixed position: the whole run,
    if there is one. *)
Lemma match_here_run (p : N → bool) (lo : nat) (before after : jsstring) :
  match_here (Rep lo None (Chr p)) before after
  = if bool_decide (lo ≤ run p after)%nat
    then Some (MState (rev (take (run p after) after) ++ before)
                      (drop (run p after) after) [])
    else None.
Proof.
  unfold match_here. case_bool_decide as Hlo.
  - rewrite <- (take_drop (run p after) after) at 1.
    apply rep_greedy; [apply run_take | apply run_drop | | done].
    rewrite length_take. pose proof (run_le p after). lia.
  - destruct (rmatch _ _ _) as [st|] eqn:E; [| done]. exfalso.
    apply rmatch_spans in E as (mid & st' & Hsp & Hmid & _).
    cbn [ahead] in Hmid. destruct Hsp as (pieces & -> & Hall & Hlen).
    assert (∀ s, (length pieces ≤ run p (concat pieces ++ s))%nat) as Hrun.
    { clear -Hall. induction Hall as [|piece pieces (c & -> & Hc) _ IH]; intros s.
      - cbn. lia.
      - cbn [concat app length run]. rewrite Hc. specialize (IH s). lia. }
    specialize (Hrun (ahead st')). rewrite <- Hmid in Hrun. lia.
Qed.

(** *** The slug *)

Lemma hyphenate_run (s : jsstring) :
  hyphenate true s = hyphenate false (drop (run is_space s) s).
Proof.
  induction s as [|c s IH]; [done |]. cbn [hyphenate run].
  destruct (is_space c) eqn:E; [exact IH |]. cbn [drop hyphenate]. by rewrite E.
Qed.

Lemma replace_spaces (len : nat) : ∀ after before,
  (length after ≤ len)%nat →
  replace_from (plus ws) (λ _, js "-") before after O = hyphenate false after.
Proof.
  induction len as [|len IH]; intros after before Hlen.
  - destruct after; [| cbn in Hlen; lia]. cbn [replace_from].
    unfold plus, ws. by rewrite match_here_run.
  - destruct after as [|c rest].
    { cbn [replace_from]. unfold plus, ws. by rewrite match_here_run. }
    cbn [replace_from]. unfold plus at 1, ws at 1. rewrite match_here_run.
    cbn [run hyphenate]. destruct (is_space c) eqn:E.
    + rewrite bool_decide_eq_true_2 by lia.
      unfold pos. cbn [behind take rev]. rewrite !length_app, length_rev, length_take.
      pose proof (run_le is_space rest) as Hle. cbn [length].
      replace (run is_space rest `min` length rest + 1 + length before
               - length before)%nat with (S (run is_space rest)) by lia.
      rewrite replace_from_skip by done.
      rewrite IH by (rewrite length_drop; cbn in Hlen; lia).
      by rewrite hyphenate_run.
    + rewrite bool_decide_eq_false_2 by lia. f_equal.
      apply IH. cbn in Hlen. lia.
Qed.

Lemma slug_hyphenate (toLowerCase : jsstring → jsstring) (title : jsstring) :
  slug toLowerCase title = hyphenate false (List.filter kept (toLowerCase title)).
Proof.
  unfold slug, replace. rewrite replace_class_away.
  rewrite (List.filter_ext _ kept) by (intros c; apply negb_involutive).
  by apply (replace_spaces _ _ _ (le_n _)).
Qed.

Lemma hyphenate_chars (s : jsstring) : ∀ in_run,
  forallb kept s = true →
  forallb (λ c, is_word c || (c =? 45)%N) (hyphenate in_run s) = true.
Proof.
  induction s as [|c s IH]; intros in_run; [done |]. cbn [forallb hyphenate].
  intros [Hc Hs]%andb_true_iff. destruct (is_space c) eqn:E.
  - destruct in_run; cbn [forallb]; by rewrite ?IH.
  - cbn [forallb]. rewrite IH by done. unfold kept in Hc. rewrite E in Hc.
    rewrite orb_false_r in Hc. by rewrite Hc.
Qed.

Lemma hyphenate_underscore (s : jsstring) : ∀ in_run,
  existsb (N.eqb 95) (hyphenate in_run s) = existsb (N.eqb 95) s.
Proof.
  induction s as [|c s IH]; intros in_run; [done |]. cbn [existsb hyphenate].
  destruct (is_space c) eqn:E.
  - assert ((95 =? c)%N = false) as ->.
    { destruct (95 =? c)%N eqn:E'; [| done]. apply N.eqb_eq in E'. by subst c. }
    destruct in_run; cbn [existsb orb]; by rewrite IH.
  - cbn [existsb]. by rewrite IH.
Qed.

Lemma filter_underscore (s : jsstring) :
  existsb (N.eqb 95) (List.filter kept s) = existsb (N.eqb 95) s.
Proof.
  induction s as [|c s IH]; [done |]. cbn [List.filter existsb].
  destruct (kept c) eqn:E; cbn [existsb]; rewrite IH; [done |].
  destruct (95 =? c)%N eqn:E'; [| done]. apply N.eqb_eq in E'. by subst c.
Qed.

(** X27. The slug made from an imported title is the lowered title with
    everything but letters, digits, underscores, hyphens and white space
    taken out, and each run of white space turned into one hyphen: it holds
    only letters, digits, underscores and hyphens, and an underscore of the
    title stays in it. *)
Theorem slug_is_made_of_word_characters
    (toLowerCase : jsstring → jsstring) (title : jsstring) :
  slug toLowerCase title = hyphenate false (List.filter kept (toLowerCase title))
  ∧ forallb (λ c, is_word c || (c =? 45)%N) (slug toLowerCase title) = true
  ∧ existsb (N.eqb 95) (slug toLowerCase title)
    = existsb (N.eqb 95) (toLowerCase title).
Proof.
  rewrite slug_hyphenate. repeat split.
  - apply hyphenate_chars, forallb_forall. intros c Hc.
    by apply List.filter_In in Hc as [_ Hc].
  - by rewrite hyphenate_underscore, filter_underscore.
Qed.

(** *** The excerpt *)

(** A replacement by nothing only removes. *)
Lemma replace_from_removes (r : regex) (x : N) : ∀ after before skip,
  In x (replace_from r (λ _, []) before after skip) → In x after.
Proof.
  induction after as [|c after IH]; intros before skip.
  - destruct skip; cbn [replace_from]; [| done].
    by destruct (match_here r before []).
  - destruct skip as [|skip]; cbn [replace_from].
    + destruct (match_here r before (c :: after)) as [st|].
      * cbn [app]. destruct (pos st - length before)%nat.
        -- intros [-> | H]; [by left | right; by apply IH in H].
        -- intros H. right. by apply IH in H.
      * intros [-> | H]; [by left | right; by apply IH in H].
    + intros H. right. by apply IH in H.
Qed.

Lemma tag_closes (before after : jsstring) (st : mstate) :
  match_here tag before after = Some st →
  ∃ s, after = 60%N :: s ∧ existsb (N.eqb 62) s = true.
Proof.
  intros (mid & Hsp & -> & _)%match_here_spans.
  destruct Hsp as (a & b & -> & (c & -> & Hc) & (m & e & -> & _ & (d & -> & Hd))).
  apply N.eqb_eq in Hc as <-. apply N.eqb_eq in Hd as <-.
  eexists. split; [reflexivity |].
  rewrite !existsb_app. cbn [existsb].
  rewrite N.eqb_refl. cbn [orb]. by rewrite orb_true_r.
Qed.

Lemma run_closes (s : jsstring) :
  existsb (N.eqb 62) s = true →
  ∃ t, drop (run (λ x, negb (x =? 62)%N) s) s = 62%N :: t.
Proof.
  induction s as [|c s IH]; [done |]. cbn [existsb run].
  destruct (c =? 62)%N eqn:E; cbn [negb].
  - apply N.eqb_eq in E as ->. by eexists.
  - rewrite N.eqb_sym, E. cbn [orb drop]. exact IH.
Qed.

Lemma tag_match (before s : jsstring) :
  existsb (N.eqb 62) s = true →
  let n := run (λ x, negb (x =? 62)%N) s in
  match_here tag before (60%N :: s)
  = Some (MState (rev (take (S (S n)) (60%N :: s)) ++ before)
                 (drop (S (S n)) (60%N :: s)) []).
Proof.
  intros Hs n. destruct (run_closes s Hs) as [t Ht]. fold n in Ht.
  pose proof (run_le (λ x, negb (x =? 62)%N) s) as Hle. fold n in Hle.
  assert (drop (S (S n)) (60%N :: s) = t) as ->.
  { cbn [drop]. replace (S n) with (n + 1)%nat by lia.
    by rewrite <- drop_drop, Ht. }
  assert (take (S (S n)) (60%N :: s) = 60%N :: take n s ++ [62%N]) as ->.
  { cbn [take]. f_equal. rewrite (take_S_r s n 62%N); [done |].
    rewrite <- (take_drop n s), Ht.
    rewrite lookup_app_r by (rewrite length_take; lia).
    rewrite length_take. by replace (n - n `min` length s)%nat with O by lia. }
  unfold match_here, tag. cbn [seq]. rewrite lit1_then.
  rewrite <- (take_drop n s) at 1.
  apply star_then; [apply run_take | apply run_drop | lia |].
  rewrite Ht. unfold lit1. cbn [rmatch ahead behind caps]. rewrite N.eqb_refl.
  do 2 f_equal. cbn [rev]. rewrite rev_app_distr. cbn [rev app].
  by rewrite <- !app_assoc.
Qed.

Lemma tag_none (before after : jsstring) :
  match after with
  | c :: s => (c =? 60)%N && existsb (N.eqb 62) s
  | [] => false
  end = false →
  match_here tag before after = None.
Proof.
  intros Hno. destruct (match_here tag before after) as [st|] eqn:E; [| done].
  apply tag_closes in E as (s & -> & Hs). by rewrite Hs in Hno.
Qed.

Lemma tagless_cons (c : N) (s : jsstring) :
  (c =? 60)%N = false → tagless (c :: s) = tagless s.
Proof. intros H. cbn [tagless]. by rewrite H. Qed.

(** What is left after the tags are taken out has no tag. *)
Lemma strip_tagless (len : nat) : ∀ after before,
  (length after ≤ len)%nat →
  tagless (replace_from tag (λ _, []) before after O) = true.
Proof.
  induction len as [|len IH]; intros after before Hlen.
  - destruct after; [| cbn in Hlen; lia]. cbn [replace_from].
    by rewrite tag_none.
  - destruct after as [|c s].
    { cbn [replace_from]. by rewrite tag_none. }
    cbn [length] in Hlen.
    destruct ((c =? 60)%N && existsb (N.eqb 62) s) eqn:E.
    + apply andb_true_iff in E as [Hc Hs]. apply N.eqb_eq in Hc as ->.
      cbn [replace_from]. rewrite (tag_match before s Hs). cbv zeta.
      set (n := run (λ x, negb (x =? 62)%N) s).
      pose proof (run_le (λ x, negb (x =? 62)%N) s) as Hle. fold n in Hle.
      destruct (run_closes s Hs) as [t Ht]. fold n in Ht.
      assert (n < length s)%nat as Hlt.
      { destruct (decide (n < length s)%nat) as [|Hge]; [done |].
        rewrite drop_ge in Ht by lia. done. }
      unfold pos. cbn [behind]. rewrite length_app, length_rev, length_take.
      cbn [length].
      replace (S (S n) `min` S (length s) + length before - length before)%nat
        with (S (S n)) by lia.
      cbn [app]. rewrite replace_from_skip by lia.
      apply IH. rewrite length_drop. lia.
    + cbn [replace_from]. rewrite tag_none by exact E.
      apply andb_false_iff in E as [Hc | Hs].
      * rewrite tagless_cons by done. apply IH. lia.
      * destruct (c =? 60)%N eqn:Hc; [| rewrite tagless_cons by done; apply IH; lia].
        cbn [tagless]. rewrite Hc. apply negb_true_iff.
        destruct (existsb _ (replace_from _ _ _ _ _)) eqn:Hout; [| done].
        apply existsb_exists in Hout as (x & Hx & Hx62).
        apply replace_from_removes in Hx.
        assert (existsb (N.eqb 62) s = true) as Hin
          by (apply existsb_exists; by exists x).
        congruence.
Qed.

Lemma tagless_take (s : jsstring) : ∀ n, tagless s = true → tagless (take n s) = true.
Proof.
  induction s as [|c s IH]; intros n; [by destruct n |].
  destruct n as [|n]; [done |]. cbn [take tagless].
  destruct (c =? 60)%N; [| apply IH].
  intros H. apply negb_true_iff in H. apply negb_true_iff.
  destruct (existsb (N.eqb 62) (take n s)) eqn:E; [| done].
  apply existsb_exists in E as (x & Hx & Hx62).
  assert (In x s) as Hin.
  { rewrite <- (take_drop n s). apply in_or_app. by left. }
  assert (existsb (N.eqb 62) s = true) by (apply existsb_exists; by exists x).
  congruence.
Qed.

(** X28. The excerpt made from an imported paragraph holds no tag and at
    most 190 code units: after a [<] that is left in it, no [>] follows. *)
Theorem excerpt_has_no_tag (paragraph : jsstring) :
  tagless (excerpt paragraph) = true
  ∧ (length (excerpt paragraph) ≤ 190)%nat.
Proof.
  unfold excerpt. split.
  - apply tagless_take. unfold replace. fold tag.
    by apply (strip_tagless _ _ _ (le_n _)).
  - rewrite length_take. lia.
Qed.

End ArticleFacts.

(** ** The search-query enhancer on comparisons *)

Section ComparisonFacts.

Import Search Language Comparisons.

Lemma spans_lit (s mid : jsstring) : s ≠ [] → spans (lit s) mid → mid = s.
Proof.
  revert mid. induction s as [|c s IH]; intros mid Hne; [done |].
  destruct s as [|c' s].
  - intros (x & -> & Hx). apply N.eqb_eq in Hx. by subst.
  - change (lit (c :: c' :: s)) with (Seq (lit1 c) (lit (c' :: s))).
    intros (a & b & -> & (x & -> & Hx) & Hb). apply N.eqb_eq in Hx. subst x.
    by rewrite (IH b ltac:(done) Hb).
Qed.

Lemma separators_start (before after : jsstring) (st : mstate) :
  match_here separators before after = Some st →
  ∃ s, after = word s ++ ahead st.
Proof.
  intros (mid & Hsp & -> & _)%match_here_spans.
  destruct Hsp as [H | [H | H]]; apply spans_lit in H; try done; subst mid.
  - by exists Vs.
  - by exists Compare.
  - by exists And.
Qed.

Lemma separators_none (before after : jsstring) :
  (∀ s, startsWith after (word s) = false) →
  match_here separators before after = None.
Proof.
  intros Hno. destruct (match_here separators before after) as [st|] eqn:E; [| done].
  apply separators_start in E as (s & ->).
  specialize (Hno s). by rewrite startsWith_app in Hno.
Qed.

Lemma separators_match (s : Separator) (before rest : jsstring) :
  match_here separators before (word s ++ rest)
  = Some (MState (rev (word s) ++ before) rest []).
Proof. by destruct s. Qed.

Lemma startsWith_includes (s sub : jsstring) :
  startsWith s sub = true → includes s sub = true.
Proof. intros H. destruct s; cbn [includes]; by rewrite H. Qed.

Lemma startsWith_guard (sub l : jsstring) (c : N) :
  existsb (N.eqb c) sub = false →
  startsWith (l ++ [c]) sub = startsWith l sub.
Proof.
  revert l. induction sub as [|p sub IH]; intros l Hc; [done |].
  cbn [existsb] in Hc. apply orb_false_elim in Hc as [Hp Hsub].
  destruct l as [|y l]; cbn [app startsWith].
  - rewrite N.eqb_sym in Hp. by rewrite Hp.
  - by rewrite IH.
Qed.

Lemma unseparated_word (name : jsstring) (s : Separator) :
  unseparated name = true → includes name (word s) = false.
Proof.
  unfold unseparated.
  intros [[H1 H2]%andb_true_iff H3]%andb_true_iff.
  apply negb_true_iff in H1, H2, H3. by destruct s.
Qed.

(** Inside a name, and at the space after it, no separator starts. *)
Lemma no_separator_inside (name pre suf rest : jsstring) (s : Separator) :
  unseparated name = true →
  name = pre ++ suf →
  startsWith (suf ++ 32%N :: rest) (word s) = false
  ∧ startsWith (suf ++ []) (word s) = false.
Proof.
  intros Hname ->.
  assert (startsWith suf (word s) = false) as Hsuf.
  { destruct (startsWith suf (word s)) eqn:E; [| done].
    apply startsWith_includes, (includes_app_r pre) in E.
    by rewrite unseparated_word in E. }
  split; [| by rewrite app_nil_r].
  rewrite startsWith_sep by (by destruct s).
  by rewrite startsWith_guard by (by destruct s).
Qed.

Lemma split_from_kept (r : regex) (s : jsstring) : ∀ pre before piece,
  (∀ i, (i < length pre)%nat →
        match_here r (rev (take i pre) ++ before) (drop i pre ++ s) = None) →
  split_from r before (pre ++ s) piece O
  = split_from r (rev pre ++ before) s (rev pre ++ piece) O.
Proof.
  induction pre as [|c pre IH]; intros before piece Hno; [done |].
  pose proof (Hno O ltac:(cbn; lia)) as H0. cbn [take drop rev app] in H0.
  cbn [app split_from]. rewrite H0. rewrite IH.
  - cbn [rev]. by rewrite <- !app_assoc.
  - intros i Hi. specialize (Hno (S i) ltac:(cbn; lia)).
    cbn [take drop rev] in Hno. by rewrite <- app_assoc in Hno.
Qed.

Lemma split_from_skip (r : regex) (piece : jsstring) : ∀ n after before,
  (n ≤ length after)%nat →
  split_from r before after piece n
  = split_from r (rev (take n after) ++ before) (drop n after) piece O.
Proof.
  induction n as [|n IH]; intros after before Hn.
  - by destruct after.
  - destruct after as [|c after]; [cbn in Hn; lia |].
    cbn [split_from take drop rev]. rewrite IH by (cbn in Hn; lia).
    by rewrite <- app_assoc.
Qed.

Lemma no_match_in_name (name rest before : jsstring) (i : nat) :
  unseparated name = true →
  (i < length (name ++ [32%N]))%nat →
  match_here separators (rev (take i (name ++ [32%N])) ++ before)
             (drop i (name ++ [32%N]) ++ rest) = None.
Proof.
  intros Hname Hi. apply separators_none. intros s.
  rewrite length_app in Hi. cbn [length] in Hi.
  destruct (decide (i < length name)%nat) as [Hlt | Hge].
  - rewrite drop_app_le by lia. rewrite <- app_assoc. cbn [app].
    apply (no_separator_inside name (take i name) (drop i name) rest s Hname).
    by rewrite take_drop.
  - rewrite drop_app_ge by lia.
    replace (i - length name)%nat with O by lia. cbn [drop app]. by destruct s.
Qed.

Lemma split_at_separator (s : Separator) (before rest piece : jsstring) :
  split_from separators before (word s ++ rest) piece O
  = rev piece :: split_from separators (rev (word s) ++ before) rest [] O.
Proof.
  pose proof (separators_match s before rest) as Hm.
  assert (∃ c w, word s = c :: w) as (c & w & Hw)
    by (destruct s; by eexists _, _).
  rewrite Hw in *. cbn [app] in Hm. cbn [app split_from]. rewrite Hm.
  unfold pos. cbn [behind rev]. rewrite !length_app, length_rev. cbn [length].
  replace (length w + 1 + length before - length before)%nat
    with (S (length w)) by lia.
  assert (∀ X Y : list jsstring,
            match piece with [] => X | _ :: _ => Y end = X → X = Y → True)
    as _ by done.
  rewrite split_from_skip by (rewrite length_app; lia).
  rewrite take_app_length, drop_app_length.
  by rewrite <- app_assoc.
Qed.

Lemma unseparated_space (name : jsstring) :
  unseparated name = true → unseparated (32%N :: name) = true.
Proof.
  unfold unseparated.
  intros [[H1 H2]%andb_true_iff H3]%andb_true_iff.
  apply negb_true_iff in H1, H2, H3.
  cbn [includes]. rewrite H1, H2, H3. reflexivity.
Qed.

Lemma split_comparison (more : list (Separator * jsstring)) :
  ∀ name before piece,
    unseparated name = true →
    forallb (λ p, unseparated p.2) more = true →
    split_from separators before (name ++ others more) piece O
    = pieces (rev piece ++ name) more.
Proof.
  induction more as [|[s n] more IH]; intros name before piece Hname Hmore.
  - cbn [others pieces]. rewrite split_from_unmatched.
    + by rewrite app_nil_r.
    + intros pre suf Hsplit. rewrite app_nil_r in Hsplit.
      apply separators_none. intros s.
      destruct (no_separator_inside name pre suf [] s Hname Hsplit) as [_ H].
      by rewrite app_nil_r in H.
  - cbn [forallb] in Hmore. apply andb_true_iff in Hmore as [Hn Hmore].
    cbn [others pieces].
    change (js " " ++ word s ++ js " " ++ n ++ others more)
      with ([32%N] ++ word s ++ (32%N :: n) ++ others more).
    rewrite app_assoc.
    rewrite split_from_kept by (intros i Hi; by apply no_match_in_name).
    rewrite split_at_separator.
    rewrite IH by (done || by apply unseparated_space).
    rewrite rev_app_distr, !rev_involutive. cbn [rev app].
    by rewrite <- app_assoc.
Qed.

Lemma split_by_from (s : jsstring) :
  split separators s = split_from separators [] s [] O.
Proof. by destruct s. Qed.

Lemma trimStart_space_r (s : jsstring) :
  trimStart (s ++ [32%N]) = trimStart s ++ [32%N]
  ∨ trimStart (s ++ [32%N]) = [] ∧ trimStart s = [].
Proof.
  induction s as [|c s IH]; [by right |]. cbn [app trimStart].
  destruct (is_space c); [exact IH | by left].
Qed.

Lemma trim_space_r (s : jsstring) : trim (s ++ js " ") = trim s.
Proof.
  change (js " ") with [32%N]. unfold trim.
  destruct (trimStart_space_r s) as [-> | [-> ->]]; [| done].
  unfold trimEnd. by rewrite rev_app_distr.
Qed.

Lemma trim_space_l (s : jsstring) : trim (js " " ++ s) = trim s.
Proof. reflexivity. Qed.

Lemma trim_pieces (more : list (Separator * jsstring)) : ∀ current,
  trim <$> pieces current more = trim current :: (trim <$> (snd <$> more)).
Proof.
  induction more as [|[s n] more IH]; intros current; [done |].
  cbn [pieces fmap list_fmap snd]. rewrite trim_space_r. f_equal.
  change (list_fmap _ _ trim (pieces (js " " ++ n) more))
    with (trim <$> pieces (js " " ++ n) more).
  by rewrite IH, trim_space_l.
Qed.

Lemma asked (first : jsstring) (more : list (Separator * jsstring)) :
  existsb (λ p, asks p.1) more = true →
  includes (comparison first more) (js "vs")
  || includes (comparison first more) (js "compare") = true.
Proof.
  intros Hask. unfold comparison.
  assert (∃ s, asks s = true ∧ includes (others more) (word s) = true)
    as (s & Hs & Hin).
  { induction more as [|[s n] more IH]; [done |].
    cbn [existsb fst] in Hask. cbn [others].
    destruct (asks s) eqn:E.
    - exists s. split; [done |]. apply (includes_app_r (js " ")), includes_prefix.
    - destruct (IH Hask) as (s' & Hs' & Hin). exists s'. split; [done |].
      rewrite !app_assoc. by apply includes_app_r. }
  apply (includes_app_r first) in Hin.
  destruct s; [| | done]; cbn [word] in Hin; rewrite Hin; [done | apply orb_true_r].
Qed.

(** X29. A comparison names each card once: for names joined by "vs",
    "compare" or "and" between single spaces, with "vs" or "compare" among
    them and no such word inside a name, the search query carries
    "compare", the trimmed names joined by " vs ", and the closing words,
    between the base terms and the site restriction. *)
Theorem comparison_names_each_card
    (first : jsstring) (more : list (Separator * jsstring)) :
  unseparated first = true →
  forallb (λ p, unseparated p.2) more = true →
  existsb (λ p, asks p.1) more = true →
  searchQuery (enhanceSearchParams (comparison first more))
  = baseSearchTerms ++ js " "
    ++ (js "compare " ++ join (js " vs ") (trim <$> first :: (snd <$> more))
        ++ js " detailed features benefits india")
    ++ js " " ++ siteClause.
Proof.
  intros Hfirst Hmore Hask. unfold enhanceSearchParams. cbn [searchQuery].
  do 2 f_equal. unfold additionalTerms. rewrite (asked first more Hask).
  unfold compareTerms. cbv zeta. do 2 f_equal.
  rewrite split_by_from. unfold comparison.
  rewrite split_comparison by done. cbn [rev app].
  by rewrite trim_pieces.
Qed.

Lemma comparison_names_each_card_witness :
  let first := js "hdfc regalia" in
  let more := [(Vs, js "axis magnus"); (And, js "sbi elite")] in
  searchQuery (enhanceSearchParams (comparison first more))
  = baseSearchTerms ++ js " "
    ++ (js "compare " ++ join (js " vs ") (trim <$> first :: (snd <$> more))
        ++ js " detailed features benefits india")
    ++ js " " ++ siteClause.
Proof.
  intros first more.
  apply (comparison_names_each_card first more); vm_compute; reflexivity.
Defined.

End ComparisonFacts.
